(** * Yamada substitute-edge computation: a shallow embedding of [yamada.py]

    The development follows the Python module function by function.  The
    [networkx] graph objects are association lists in insertion order (the
    order in which [networkx] iterates over nodes and neighbours), the
    [SortedSet] of quasi-cut entries is a strictly sorted list, and the
    methods of [Substitute] are computations in a state-and-exception monad
    over the attributes of the instance. *)

From Stdlib Require Import String ZArith List Bool Lia Permutation.
Import ListNotations.
Local Open Scope Z_scope.

(** ** Exceptions and results *)

(** The Python exceptions that the module and the library calls it makes can
    raise.  [OutOfFuel] is not a Python exception: it marks the bound that
    the model puts on loops and traversals. *)
Inductive exn : Type :=
| ValueError (msg : string)
| KeyError
| TypeError
| IndexError
| NetworkXError
| NetworkXPointlessConcept
| OutOfFuel.

Inductive result (A : Type) : Type :=
| Ok (a : A)
| Raise (e : exn).
Arguments Ok {A} a.
Arguments Raise {A} e.

Definition rbind {A B} (r : result A) (k : A -> result B) : result B :=
  match r with
  | Ok a => k a
  | Raise e => Raise e
  end.

Notation "x <-r c ;; k" := (rbind c (fun x => k))
  (at level 61, c at next level, right associativity).

Definition is_ok {A} (r : result A) : bool :=
  match r with Ok _ => true | Raise _ => false end.

(** ** Python containers *)

Definition memZ (x : Z) (l : list Z) : bool := existsb (Z.eqb x) l.

(** A [dict] with node keys, in insertion order. *)
Fixpoint dict_get {A} (k : Z) (d : list (Z * A)) : option A :=
  match d with
  | [] => None
  | (k', a) :: d' => if Z.eqb k k' then Some a else dict_get k d'
  end.

(** [d[k] = a]: an existing key keeps its position. *)
Fixpoint dict_set {A} (k : Z) (a : A) (d : list (Z * A)) : list (Z * A) :=
  match d with
  | [] => [(k, a)]
  | (k', a') :: d' =>
      if Z.eqb k k' then (k, a) :: d' else (k', a') :: dict_set k a d'
  end.

Definition dict_has {A} (k : Z) (d : list (Z * A)) : bool :=
  match dict_get k d with Some _ => true | None => false end.

(** [d[k]], raising [KeyError] on a missing key. *)
Definition dict_item {A} (k : Z) (d : list (Z * A)) : result A :=
  match dict_get k d with Some a => Ok a | None => Raise KeyError end.

(** A Python tuple of integers; the caller-supplied edge containers hold
    these, and [in] compares tuples by length and contents. *)
Definition tuple := list Z.

Fixpoint tuple_eqb (s t : tuple) : bool :=
  match s, t with
  | [], [] => true
  | x :: s', y :: t' => Z.eqb x y && tuple_eqb s' t'
  | _, _ => false
  end.

Definition tuple_in (t : tuple) (c : list tuple) : bool :=
  existsb (tuple_eqb t) c.

Definition pair_eqb (p q : Z * Z) : bool :=
  Z.eqb (fst p) (fst q) && Z.eqb (snd p) (snd q).

(** A weighted edge [(w, u, v)]. *)
Definition wedge := (Z * Z * Z)%type.

Definition wedge_eqb (a b : wedge) : bool :=
  let '(w1, u1, v1) := a in
  let '(w2, u2, v2) := b in
  Z.eqb w1 w2 && Z.eqb u1 u2 && Z.eqb v1 v2.

Definition tuple_of_pair (e : Z * Z) : tuple := [fst e; snd e].
Definition tuple_of_wedge (e : wedge) : tuple :=
  let '(w, u, v) := e in [w; u; v].

(** [list.sort()] on integers (the result of a sort is determined by its
    input, so any sorting function models it). *)
Fixpoint insert_sorted (x : Z) (l : list Z) : list Z :=
  match l with
  | [] => [x]
  | y :: l' => if Z.leb x y then x :: l else y :: insert_sorted x l'
  end.

Definition sort_Z (l : list Z) : list Z := fold_right insert_sorted [] l.

(** [sorted(xs, key=...)] with a key that is a pair of integers: stable. *)
Definition key_leb (a b : Z * Z) : bool :=
  Z.ltb (fst a) (fst b) || (Z.eqb (fst a) (fst b) && Z.leb (snd a) (snd b)).

Fixpoint insert_by_key {A} (k : Z * Z) (x : A) (l : list ((Z * Z) * A))
  : list ((Z * Z) * A) :=
  match l with
  | [] => [(k, x)]
  | (k', y) :: l' =>
      if key_leb k k' then (k, x) :: l else (k', y) :: insert_by_key k x l'
  end.

Definition sort_by_key {A} (l : list ((Z * Z) * A)) : list A :=
  map snd (fold_right (fun kx acc => insert_by_key (fst kx) (snd kx) acc) [] l).

(** ** The [networkx] objects the module uses *)

Module nx.

(** [nx.Graph]: node -> neighbour -> the ['weight'] attribute of the edge,
    when the edge has one. *)
Definition Graph := list (Z * list (Z * option Z)).

(** [nx.DiGraph], successors only; the edge data that [to_directed] copies
    is never read. *)
Definition DiGraph := list (Z * list Z).

Definition nodes (g : Graph) : list Z := map fst g.
Definition number_of_nodes (g : Graph) : nat := length g.

(** [G.add_edge(u, v, weight=w)]. *)
Definition add_node (n : Z) (g : Graph) : Graph :=
  if dict_has n g then g else g ++ [(n, [])].

Definition add_half (u v : Z) (w : option Z) (g : Graph) : Graph :=
  match dict_get u g with
  | Some nbrs => dict_set u (dict_set v w nbrs) g
  | None => g
  end.

Definition add_edge (u v : Z) (w : option Z) (g : Graph) : Graph :=
  add_half v u w (add_half u v w (add_node v (add_node u g))).

(** [G.add_weighted_edges_from(ebunch)] on an empty graph. *)
Definition from_weighted_edges (es : list (Z * Z * Z)) : Graph :=
  fold_left (fun g '(u, v, w) => add_edge u v (Some w) g) es [].

(** [(u, v) in G.edges]. *)
Definition has_edge (g : Graph) (u v : Z) : bool :=
  match dict_get u g with
  | Some nbrs => dict_has v nbrs
  | None => false
  end.

(** Iteration over [G.edges()]: every edge once, from the endpoint that
    comes first in node order. *)
Fixpoint edges_from (seen : list Z) (g : Graph) : list (Z * Z) :=
  match g with
  | [] => []
  | (n, nbrs) :: g' =>
      map (fun x => (n, fst x))
          (filter (fun x => negb (memZ (fst x) seen)) nbrs)
        ++ edges_from (n :: seen) g'
  end.

Definition edges (g : Graph) : list (Z * Z) := edges_from [] g.

(** [G.get_edge_data(u, v)]: [None] when there is no such edge. *)
Definition get_edge_data (g : Graph) (u v : Z) : option (option Z) :=
  match dict_get u g with
  | Some nbrs => dict_get v nbrs
  | None => None
  end.

(** [G.get_edge_data(u, v)['weight']]. *)
Definition edge_weight (g : Graph) (u v : Z) : result Z :=
  match get_edge_data g u v with
  | None => Raise TypeError
  | Some None => Raise KeyError
  | Some (Some w) => Ok w
  end.

(** [nx.neighbors(G, n)]. *)
Definition neighbors (g : Graph) (n : Z) : result (list Z) :=
  match dict_get n g with
  | Some nbrs => Ok (map fst nbrs)
  | None => Raise NetworkXError
  end.

(** [G.number_of_edges()]: half the sum of the degrees, a self-loop
    counting twice. *)
Definition degree (n : Z) (nbrs : list (Z * option Z)) : nat :=
  (length nbrs + (if dict_has n nbrs then 1 else 0))%nat.

Definition number_of_edges (g : Graph) : nat :=
  Nat.div (fold_right (fun x acc => (degree (fst x) (snd x) + acc)%nat) 0%nat g) 2.

Definition succ_of (d : DiGraph) (n : Z) : list Z :=
  match dict_get n d with
  | Some s => s
  | None => []
  end.

(** [G.to_directed()]: a fresh directed graph with both orientations of
    every edge. *)
Definition to_directed (g : Graph) : DiGraph :=
  map (fun x => (fst x, map fst (snd x))) g.

Definition successors (d : DiGraph) (n : Z) : result (list Z) :=
  match dict_get n d with
  | Some s => Ok s
  | None => Raise NetworkXError
  end.

(** [D.remove_edges_from(ebunch)]: edges that are not there are skipped. *)
Definition remove_edge (d : DiGraph) (e : Z * Z) : DiGraph :=
  map (fun x => if Z.eqb (fst x) (fst e)
                then (fst x, filter (fun c => negb (Z.eqb c (snd e))) (snd x))
                else x) d.

Definition remove_edges_from (d : DiGraph) (es : list (Z * Z)) : DiGraph :=
  fold_left remove_edge es d.

(** Iteration over [D.edges()]. *)
Definition di_edges (d : DiGraph) : list (Z * Z) :=
  flat_map (fun x => map (fun c => (fst x, c)) (snd x)) d.

(** Depth-first traversal: [visit v (visited, out)] scans the successors of
    the freshly discovered node [v] in adjacency order, descends into the
    ones not yet visited, and emits [v] once all of them are done. *)
Fixpoint dfs_children (visit : Z -> list Z * list Z -> result (list Z * list Z))
         (cs : list Z) (st : list Z * list Z) : result (list Z * list Z) :=
  match cs with
  | [] => Ok st
  | c :: cs' =>
      if memZ c (fst st) then dfs_children visit cs' st
      else
        st' <-r visit c (c :: fst st, snd st) ;;
        dfs_children visit cs' st'
  end.

Fixpoint dfs_visit (fuel : nat) (d : DiGraph) (v : Z) (st : list Z * list Z)
  : result (list Z * list Z) :=
  match fuel with
  | O => Raise OutOfFuel
  | S fuel' =>
      st' <-r dfs_children (dfs_visit fuel' d) (succ_of d v) st ;;
      Ok (fst st', snd st' ++ [v])
  end.

(** [nx.dfs_postorder_nodes(D, source)].  The library returns a generator
    that the caller consumes while it deletes edges of [D]; the edges
    deleted after a node is emitted leave that node, whose successors the
    traversal has finished scanning by then, so the nodes emitted are those
    of the traversal of the graph as it is when the generator is made. *)
Definition dfs_postorder_nodes (d : DiGraph) (source : Z) : result (list Z) :=
  match dict_get source d with
  | None => Raise KeyError
  | Some _ =>
      st <-r dfs_visit (length d) d source ([source], []) ;;
      Ok (snd st)
  end.

(** [nx.descendants(D, source)]: the set of nodes reachable from [source],
    without [source] itself.  Python returns a set, and the caller sorts
    what it derives from it, so the traversal that collects the set does
    not matter. *)
Definition descendants (d : DiGraph) (source : Z) : result (list Z) :=
  match dict_get source d with
  | None => Raise NetworkXError
  | Some _ =>
      st <-r dfs_visit (length d) d source ([source], []) ;;
      Ok (filter (fun c => negb (Z.eqb c source)) (snd st))
  end.

(** [nx.is_connected(G)]: the traversal from the first node reaches as
    many nodes as the graph has. *)
Definition is_connected (g : Graph) : result bool :=
  match g with
  | [] => Raise NetworkXPointlessConcept
  | (n0, _) :: _ =>
      st <-r dfs_visit (length g) (to_directed g) n0 ([n0], []) ;;
      Ok (Nat.eqb (length (snd st)) (length g))
  end.

(** [nx.is_tree(G)] for an undirected graph. *)
Definition is_tree (g : Graph) : result bool :=
  match g with
  | [] => Raise NetworkXPointlessConcept
  | _ :: _ =>
      if Nat.eqb (length g - 1) (number_of_edges g)
      then is_connected g
      else Ok false
  end.

End nx.

(** ** The quasi-cut set: a [SortedSet] keyed by [(x[0], x[1], x[2])] *)

Module SortedSet.

(** The order of the keys: lexicographic on (weight, source, target). *)
Definition key_ltb (a b : wedge) : bool :=
  let '(w1, u1, v1) := a in
  let '(w2, u2, v2) := b in
  Z.ltb w1 w2
  || (Z.eqb w1 w2 && (Z.ltb u1 u2 || (Z.eqb u1 u2 && Z.ltb v1 v2))).

Definition contains (x : wedge) (s : list wedge) : bool :=
  existsb (wedge_eqb x) s.

(** [s.add(x)]: nothing changes when [x] is there already. *)
Fixpoint add (x : wedge) (s : list wedge) : list wedge :=
  match s with
  | [] => [x]
  | y :: s' =>
      if wedge_eqb x y then s
      else if key_ltb x y then x :: s
      else y :: add x s'
  end.

(** [s.remove(x)], called only on members. *)
Definition remove (x : wedge) (s : list wedge) : list wedge :=
  filter (fun y => negb (wedge_eqb x y)) s.

End SortedSet.

(** ** Module-level functions *)

(** The fixture of the module: [graph = nx.Graph(example)]. *)
Definition example : nx.Graph :=
  [ (1, [(2, Some 2); (3, Some 1)]);
    (2, [(1, Some 2); (3, Some 3); (4, Some 1)]);
    (3, [(1, Some 1); (2, Some 3); (4, Some 2); (5, Some 2)]);
    (4, [(2, Some 1); (3, Some 2); (5, Some 1); (6, Some 3)]);
    (5, [(3, Some 2); (4, Some 1); (6, Some 3)]);
    (6, [(4, Some 3); (5, Some 3)]) ].

Fixpoint is_weighted_edges (g : nx.Graph) (es : list (Z * Z)) : result bool :=
  match es with
  | [] => Ok true
  | (u, v) :: es' =>
      match nx.get_edge_data g u v with
      | None => Raise TypeError
      | Some None => Ok false
      | Some (Some _) => is_weighted_edges g es'
      end
  end.

Definition is_weighted (g : nx.Graph) : result bool :=
  is_weighted_edges g (nx.edges g).

Definition has_self_cycles (g : nx.Graph) : bool :=
  existsb (fun node => nx.has_edge g node node) (nx.nodes g).

Definition check_input_graph (g : nx.Graph) : result unit :=
  c <-r nx.is_connected g ;;
  if negb c then Raise (ValueError "Input graph must be a connected.")
  else if has_self_cycles g
  then Raise (ValueError "Input graph must have no self-cycles.")
  else
    w <-r is_weighted g ;;
    if negb w then Raise (ValueError "Input graph must have weighted edges.")
    else Ok tt.

Definition is_tree_of_graph (child parent : nx.Graph) : result bool :=
  if forallb (fun e => nx.has_edge parent (fst e) (snd e)) (nx.edges child)
  then nx.is_tree child
  else Ok false.

Definition check_input_tree (tree parent_graph : nx.Graph) : result unit :=
  _ <-r check_input_graph tree ;;
  t <-r is_tree_of_graph tree parent_graph ;;
  if negb t then Raise (ValueError "Input tree is not a spanning tree.")
  else Ok tt.

(** [Yamada.is_admissible]: [edge in tree.edges] unpacks [edge] into two
    endpoints, and fails on a tuple of another length; the intersection
    compares the restricted tuples with the tree's edges as it lists
    them. *)
Fixpoint fixed_in_tree (tree : nx.Graph) (fixed : list tuple) : result bool :=
  match fixed with
  | [] => Ok true
  | [u; v] :: fixed' =>
      if nx.has_edge tree u v then fixed_in_tree tree fixed' else Ok false
  | _ :: _ => Raise (ValueError "too many values to unpack")
  end.

Definition is_admissible (tree : nx.Graph) (fixed restricted : list tuple)
  : result bool :=
  f <-r fixed_in_tree tree fixed ;;
  if negb f then Ok false
  else
    Ok (negb (existsb (fun r => tuple_in r (map tuple_of_pair (nx.edges tree)))
                      restricted)).

(** ** The [Substitute] class *)

Record Substitute : Type := mkSubstitute {
  graph : nx.Graph;
  tree : nx.Graph;
  fixed_edges : list tuple;
  restricted_edges : list tuple;
  ordered : bool;
  (** set by [instantiate_substitute_variables] *)
  directed : nx.DiGraph;
  postorder_nodes : list (Z * Z);
  descendants : list (Z * list Z);
  quasi_cuts : list wedge
}.

(** [Substitute.__init__]. *)
Definition Substitute_init (g t : nx.Graph) (fixed restricted : list tuple)
           (ord : bool) : result Substitute :=
  _ <-r check_input_graph g ;;
  _ <-r check_input_tree t g ;;
  Ok {| graph := g; tree := t; fixed_edges := fixed;
        restricted_edges := restricted; ordered := ord;
        directed := []; postorder_nodes := []; descendants := [];
        quasi_cuts := [] |}.

(** Methods run in a state monad over the instance, with exceptions. *)
Definition M (A : Type) : Type := Substitute -> result (A * Substitute).

Definition ret {A} (a : A) : M A := fun self => Ok (a, self).

Definition bind {A B} (m : M A) (k : A -> M B) : M B :=
  fun self =>
    match m self with
    | Ok (a, self') => k a self'
    | Raise e => Raise e
    end.

Definition lift {A} (r : result A) : M A :=
  fun self => match r with Ok a => Ok (a, self) | Raise e => Raise e end.

Definition gets {A} (f : Substitute -> A) : M A := fun self => Ok (f self, self).

Definition modify (f : Substitute -> Substitute) : M unit :=
  fun self => Ok (tt, f self).

Notation "x <- c ;; k" := (bind c (fun x => k))
  (at level 61, c at next level, right associativity).
Notation "c ;;; k" := (bind c (fun _ => k))
  (at level 61, right associativity).

Definition set_directed (d : nx.DiGraph) (s : Substitute) : Substitute :=
  {| graph := graph s; tree := tree s; fixed_edges := fixed_edges s;
     restricted_edges := restricted_edges s; ordered := ordered s;
     directed := d; postorder_nodes := postorder_nodes s;
     descendants := descendants s; quasi_cuts := quasi_cuts s |}.

Definition set_postorder (po : list (Z * Z)) (ds : list (Z * list Z))
           (s : Substitute) : Substitute :=
  {| graph := graph s; tree := tree s; fixed_edges := fixed_edges s;
     restricted_edges := restricted_edges s; ordered := ordered s;
     directed := directed s; postorder_nodes := po;
     descendants := ds; quasi_cuts := quasi_cuts s |}.

Definition set_quasi_cuts (q : list wedge) (s : Substitute) : Substitute :=
  {| graph := graph s; tree := tree s; fixed_edges := fixed_edges s;
     restricted_edges := restricted_edges s; ordered := ordered s;
     directed := directed s; postorder_nodes := postorder_nodes s;
     descendants := descendants s; quasi_cuts := q |}.

(** [random_node]: [r_idx] is the index that [random.randint(0, high=n)]
    draws, [0 <= r_idx < n]. *)
Definition random_node (r_idx : nat) : M Z :=
  g <- gets graph ;;
  match nth_error (nx.nodes g) r_idx with
  | Some n => ret n
  | None => lift (Raise IndexError)
  end.

(** [find_incident_edges]: the Python set is listed in neighbour order; the
    caller's updates for two of its members touch different quasi-cut
    entries. *)
Fixpoint incident_loop (self : Substitute) (node : Z) (nbrs : list Z)
  : result (list wedge) :=
  match nbrs with
  | [] => Ok []
  | neighbor :: nbrs' =>
      if negb (tuple_in [node; neighbor] (restricted_edges self))
         && negb (nx.has_edge (tree self) node neighbor)
      then
        w <-r nx.edge_weight (graph self) node neighbor ;;
        rest <-r incident_loop self node nbrs' ;;
        Ok ((w, node, neighbor) :: rest)
      else incident_loop self node nbrs'
  end.

Definition find_incident_edges (node : Z) : M (list wedge) :=
  fun self =>
    nbrs <-r nx.neighbors (graph self) node ;;
    inc <-r incident_loop self node nbrs ;;
    Ok (inc, self).

(** [postorder_tree], first loop: [po] is [postorder_nodes] so far, [i] the
    value of [i + 1].  Each round ranks [node] and deletes from
    [self.directed] the edges from [node] to the neighbours not ranked
    yet. *)
Fixpoint rank_loop (nodes : list Z) (i : Z) (po : list (Z * Z))
  : M (list (Z * Z)) :=
  match nodes with
  | [] => ret po
  | node :: nodes' =>
      let po' := dict_set node i po in
      d <- gets directed ;;
      nbrs <- lift (nx.successors d node) ;;
      let parent_nodes :=
        map (fun neighbor => (node, neighbor))
            (filter (fun neighbor => negb (dict_has neighbor po')) nbrs) in
      modify (set_directed (nx.remove_edges_from d parent_nodes)) ;;;
      rank_loop nodes' (i + 1) po'
  end.

Fixpoint rank_all (po : list (Z * Z)) (cs : list Z) : result (list Z) :=
  match cs with
  | [] => Ok []
  | child :: cs' =>
      r <-r dict_item child po ;;
      rest <-r rank_all po cs' ;;
      Ok (r :: rest)
  end.

(** [postorder_tree], second loop, over the keys of [postorder_nodes]. *)
Fixpoint descendants_loop (d : nx.DiGraph) (po : list (Z * Z))
         (keys : list Z) (acc : list (Z * list Z))
  : result (list (Z * list Z)) :=
  match keys with
  | [] => Ok acc
  | each :: keys' =>
      r <-r dict_item each po ;;
      cs <-r nx.descendants d each ;;
      rs <-r rank_all po cs ;;
      descendants_loop d po keys' (dict_set each (sort_Z (r :: rs)) acc)
  end.

Definition postorder_tree (r_idx : nat)
  : M (list (Z * Z) * list (Z * list Z)) :=
  ord <- gets ordered ;;
  nodes <- (if ord then gets (fun self => nx.nodes (tree self))
            else
              root <- random_node r_idx ;;
              d <- gets directed ;;
              lift (nx.dfs_postorder_nodes d root)) ;;
  po <- rank_loop nodes 1 [] ;;
  d <- gets directed ;;
  ds <- lift (descendants_loop d po (map fst po) []) ;;
  ret (po, ds).

Definition instantiate_substitute_variables (r_idx : nat) : M unit :=
  t <- gets tree ;;
  modify (set_directed (nx.to_directed t)) ;;;
  pd <- postorder_tree r_idx ;;
  modify (set_postorder (fst pd) (snd pd)) ;;;
  modify (set_quasi_cuts []).

(** [postordered_edges]: [(w, v, u)] for every edge [u -> v] of
    [self.directed], sorted by the ranks of [v] and [u]. *)
Fixpoint weigh_edges (g : nx.Graph) (es : list (Z * Z)) : result (list wedge) :=
  match es with
  | [] => Ok []
  | (u, v) :: es' =>
      w <-r nx.edge_weight g u v ;;
      rest <-r weigh_edges g es' ;;
      Ok ((w, v, u) :: rest)
  end.

Fixpoint with_keys (po : list (Z * Z)) (es : list wedge)
  : result (list ((Z * Z) * wedge)) :=
  match es with
  | [] => Ok []
  | (w, a, b) :: es' =>
      ra <-r dict_item a po ;;
      rb <-r dict_item b po ;;
      rest <-r with_keys po es' ;;
      Ok (((ra, rb), (w, a, b)) :: rest)
  end.

Definition postordered_edges : M (list wedge) :=
  fun self =>
    edges <-r weigh_edges (graph self) (nx.di_edges (directed self)) ;;
    keyed <-r with_keys (postorder_nodes self) edges ;;
    Ok (sort_by_key keyed, self).

(** [equal_weight_descendant]: the scan of [self.quasi_cuts]. *)
Fixpoint scan_cuts (po : list (Z * Z)) (ds : list (Z * list Z))
         (weight node : Z) (cuts : list wedge) : result (option wedge) :=
  match cuts with
  | [] => Ok None
  | cut_edge :: cuts' =>
      let '(x, y, z) := cut_edge in
      r <-r dict_item y po ;;
      dn <-r dict_item node ds ;;
      let related := memZ r dn in
      if related && Z.eqb x weight then Ok (Some cut_edge)
      else scan_cuts po ds weight node cuts'
  end.

Definition equal_weight_descendant (weighted_edge : wedge) : M (option wedge) :=
  fun self =>
    let '(weight, node, _) := weighted_edge in
    r <-r scan_cuts (postorder_nodes self) (descendants self) weight node
                    (quasi_cuts self) ;;
    Ok (r, self).

(** The substitute mapping, a [dict] keyed by pairs, in insertion order. *)
Definition subst_dict := list ((Z * Z) * list (Z * Z)).

Fixpoint sd_set (k : Z * Z) (v : list (Z * Z)) (d : subst_dict) : subst_dict :=
  match d with
  | [] => [(k, v)]
  | (k', v') :: d' =>
      if pair_eqb k k' then (k, v) :: d' else (k', v') :: sd_set k v d'
  end.

Fixpoint sd_get (k : Z * Z) (d : subst_dict) : option (list (Z * Z)) :=
  match d with
  | [] => None
  | (k', v') :: d' => if pair_eqb k k' then Some v' else sd_get k d'
  end.

(** [substitute_dict[k].append(x)]. *)
Definition sd_append (k x : Z * Z) (d : subst_dict) : result subst_dict :=
  match sd_get k d with
  | Some v => Ok (sd_set k (v ++ [x]) d)
  | None => Raise KeyError
  end.

(** [x[-1]] and [x[0]] on a list. *)
Definition first_item (l : list Z) : result Z :=
  match l with [] => Raise IndexError | x :: _ => Ok x end.

Definition last_item (l : list Z) : result Z :=
  match l with [] => Raise IndexError | _ :: _ => Ok (last l 0) end.

(** The three tests of step 2.1 on the rank [r] of the neighbour and the
    descendant ranks [dn] of the node. *)
Definition step_a (r : Z) (dn : list Z) : result bool :=
  m <-r first_item dn ;; Ok (Z.ltb r m).
Definition step_b (r : Z) (dn : list Z) : bool := memZ r dn.
Definition step_c (r : Z) (dn : list Z) : result bool :=
  m <-r last_item dn ;; Ok (Z.gtb r m).

(** Step 2.1 for one incident edge. *)
Definition update_cuts (i_edge : wedge) : M unit :=
  let '(w, a, b) := i_edge in
  let reversed_edge := (w, b, a) in
  po <- gets postorder_nodes ;;
  ds <- gets descendants ;;
  r <- lift (dict_item b po) ;;
  dn <- lift (dict_item a ds) ;;
  (* step 2.1.a *)
  ca <- lift (step_a r dn) ;;
  (if ca then
     q <- gets quasi_cuts ;;
     let q' := if SortedSet.contains reversed_edge q
               then SortedSet.remove reversed_edge q else q in
     modify (set_quasi_cuts (SortedSet.add i_edge q'))
   else ret tt) ;;;
  (* step 2.1.b *)
  (if step_b r dn then
     q <- gets quasi_cuts ;;
     if SortedSet.contains reversed_edge q
     then modify (set_quasi_cuts (SortedSet.remove reversed_edge q))
     else ret tt
   else ret tt) ;;;
  (* step 2.1.c *)
  cc <- lift (step_c r dn) ;;
  if cc then
    q <- gets quasi_cuts ;;
    modify (set_quasi_cuts (SortedSet.add i_edge q))
  else ret tt.

Fixpoint update_cuts_loop (incident_edges : list wedge) : M unit :=
  match incident_edges with
  | [] => ret tt
  | i_edge :: rest => update_cuts i_edge ;;; update_cuts_loop rest
  end.

(** Step 2.2, the [while] loop: each round that does not leave the loop
    removes an entry of the quasi-cut set, so [fuel] above its size is
    enough.  The result is the entry recorded by step 2.2.c, if any. *)
Fixpoint search_loop (fuel : nat) (n_edge : wedge) : M (option wedge) :=
  match fuel with
  | O => lift (Raise OutOfFuel)
  | S fuel' =>
      cut <- equal_weight_descendant n_edge ;;
      match cut with
      | None => ret None
      | Some cut_edge =>
          let '(_, node, _) := n_edge in
          let '(_, _, z) := cut_edge in
          po <- gets postorder_nodes ;;
          ds <- gets descendants ;;
          r <- lift (dict_item z po) ;;
          dn <- lift (dict_item node ds) ;;
          if memZ r dn then
            (* step 2.2.b *)
            q <- gets quasi_cuts ;;
            modify (set_quasi_cuts (SortedSet.remove cut_edge q)) ;;;
            search_loop fuel' n_edge
          else
            (* step 2.2.c *)
            ret (Some cut_edge)
      end
  end.

(** One round of step 2 of [substitute]. *)
Definition substitute_step (n_edge : wedge) (sd : subst_dict) : M subst_dict :=
  let '(_, node, parent) := n_edge in
  incident_edges <- find_incident_edges node ;;
  update_cuts_loop incident_edges ;;;
  fixed <- gets fixed_edges ;;
  if negb (tuple_in (tuple_of_wedge n_edge) fixed) then
    q <- gets quasi_cuts ;;
    found <- search_loop (S (length q)) n_edge ;;
    match found with
    | Some (_, y, z) => lift (sd_append (node, parent) (y, z) sd)
    | None => ret sd
    end
  else ret sd.

Fixpoint substitute_loop (ordered_edges : list wedge) (sd : subst_dict)
  : M subst_dict :=
  match ordered_edges with
  | [] => ret sd
  | n_edge :: rest =>
      sd' <- substitute_step n_edge sd ;;
      substitute_loop rest sd'
  end.

Definition substitute (r_idx : nat) : M subst_dict :=
  (* step 1 *)
  instantiate_substitute_variables r_idx ;;;
  ordered_edges <- postordered_edges ;;
  let substitute_dict :=
    fold_left (fun d e => let '(_, a, b) := e in sd_set (a, b) [] d)
              ordered_edges [] in
  (* step 2 *)
  substitute_loop ordered_edges substitute_dict.

(** Building an instance and calling [substitute()] on it. *)
Definition run_substitute (g t : nx.Graph) (fixed restricted : list tuple)
           (ord : bool) (r_idx : nat) : result subst_dict :=
  self <-r Substitute_init g t fixed restricted ord ;;
  out <-r substitute r_idx self ;;
  Ok (fst out).


(** ** Fixtures and notions used to state the properties *)

(** The scenario of the specification: the path 1-2-3-4 with unit weights,
    and the same path closed by the edge (1, 4), built with
    [add_weighted_edges_from]. *)
Definition path4 : nx.Graph :=
  nx.from_weighted_edges [(1, 2, 1); (2, 3, 1); (3, 4, 1)].

Definition cycle4 : nx.Graph :=
  nx.from_weighted_edges [(1, 2, 1); (2, 3, 1); (3, 4, 1); (1, 4, 1)].

(** A path 2-1-3-4 whose middle edge has two equal-weight bridges. *)
Definition fork_tree : nx.Graph :=
  nx.from_weighted_edges [(2, 1, 5); (1, 3, 1); (3, 4, 5)].

Definition fork_graph : nx.Graph :=
  nx.from_weighted_edges
    [(2, 1, 5); (1, 3, 1); (3, 4, 5); (1, 4, 1); (2, 3, 1)].

(** A triangle, and a single edge of it. *)
Definition triangle : nx.Graph :=
  nx.from_weighted_edges [(1, 2, 1); (2, 3, 1); (1, 3, 1)].

Definition one_edge : nx.Graph := nx.from_weighted_edges [(1, 2, 1)].

(** An edge without its orientation. *)
Definition unorient (e : Z * Z) : Z * Z :=
  (Z.min (fst e) (snd e), Z.max (fst e) (snd e)).

(** The (tree edge, substitute edge) pairs of a mapping. *)
Definition pairs_of (sd : subst_dict) : list ((Z * Z) * (Z * Z)) :=
  flat_map (fun kv => map (fun e => (fst kv, e)) (snd kv)) sd.

Definition unorient_pairs (sd : subst_dict) : list ((Z * Z) * (Z * Z)) :=
  map (fun p => (unorient (fst p), unorient (snd p))) (pairs_of sd).

Definition same_set {A} (l1 l2 : list A) : Prop :=
  forall x, In x l1 <-> In x l2.

(** The keys that are mapped to a substitute. *)
Definition substituted_keys (sd : subst_dict) : list (Z * Z) :=
  map fst (filter (fun kv => negb (Nat.eqb (length (snd kv)) 0)) sd).

(** The scenario as the specification words it: one path edge gets (1, 4),
    and the edge (1, 2) is among those mapped to "none". *)
Definition scenario_as_stated (sd : subst_dict) : Prop :=
  length (substituted_keys sd) = 1%nat
  /\ (sd_get (1, 2) sd = Some [] \/ sd_get (2, 1) sd = Some []).

(** The quasi-cut set is kept in ascending key order. *)
Definition cut_lt (a b : wedge) : Prop := SortedSet.key_ltb a b = true.

Inductive sorted_cuts : list wedge -> Prop :=
| sorted_nil : sorted_cuts []
| sorted_cons (x : wedge) (s : list wedge) :
    sorted_cuts s -> (forall y, In y s -> cut_lt x y) -> sorted_cuts (x :: s).

(** What [equal_weight_descendant] tests on an entry: the rank of its
    source (its component 1) lies among the descendant ranks of [node], and
    its weight is the query weight. *)
Definition source_match (self : Substitute) (weight node : Z) (e : wedge)
  : bool :=
  let '(x, y, _) := e in
  match dict_get y (postorder_nodes self), dict_get node (descendants self) with
  | Some r, Some dn => memZ r dn && Z.eqb x weight
  | _, _ => false
  end.

(** The test as the specification words it, on the rank of the target. *)
Definition target_match (self : Substitute) (weight node : Z) (e : wedge)
  : bool :=
  let '(x, _, z) := e in
  match dict_get z (postorder_nodes self), dict_get node (descendants self) with
  | Some r, Some dn => memZ r dn && Z.eqb x weight
  | _, _ => false
  end.

(** find-first-matching as the specification words it. *)
Definition find_first_matching_as_stated (self : Substitute) (weight node : Z)
  : option wedge :=
  find (target_match self weight node) (quasi_cuts self).

(** The instance of the closed-path scenario, rooted at node 1, once the
    first tree edge (1, 4, 3) has been processed. *)
Definition cycle4_round1 : Substitute :=
  {| graph := cycle4; tree := path4; fixed_edges := [];
     restricted_edges := []; ordered := false;
     directed := [(1, [2]); (2, [3]); (3, [4]); (4, [])];
     postorder_nodes := [(4, 1); (3, 2); (2, 3); (1, 4)];
     descendants := [(4, [1]); (3, [1; 2]); (2, [1; 2; 3]); (1, [1; 2; 3; 4])];
     quasi_cuts := [(1, 4, 1)] |}.

(** The caller-supplied objects an instance refers to.  The fields hold the
    caller's own objects, so a method that mutated one of them would show as
    a change of the field. *)
Definition same_inputs (s1 s2 : Substitute) : Prop :=
  graph s1 = graph s2 /\ tree s1 = tree s2
  /\ fixed_edges s1 = fixed_edges s2
  /\ restricted_edges s1 = restricted_edges s2
  /\ ordered s1 = ordered s2.

(** A computation that leaves the caller-supplied objects as they are. *)
Definition keeps_inputs {A} (m : M A) : Prop :=
  forall s a s', m s = Ok (a, s') -> same_inputs s s'.

(** Two instances that refer to the same inputs and have the same directed
    copy. *)
Definition agree (s1 s2 : Substitute) : Prop :=
  same_inputs s1 s2 /\ directed s1 = directed s2.

(** A computation that reads nothing but the inputs and the directed copy,
    and changes nothing but the directed copy. *)
Definition reads_inputs {A} (m : M A) : Prop :=
  forall s1 s2, agree s1 s2 ->
    match m s1, m s2 with
    | Ok (a1, s1'), Ok (a2, s2') =>
        a1 = a2 /\ agree s1' s2'
        /\ postorder_nodes s1' = postorder_nodes s1
        /\ descendants s1' = descendants s1
        /\ quasi_cuts s1' = quasi_cuts s1
        /\ postorder_nodes s2' = postorder_nodes s2
        /\ descendants s2' = descendants s2
        /\ quasi_cuts s2' = quasi_cuts s2
    | Raise e1, Raise e2 => e1 = e2
    | _, _ => False
    end.

(** ** Graphs and traversals *)

(** [y] is a successor of [x]. *)
Definition edge (d : nx.DiGraph) (x y : Z) : Prop := In y (nx.succ_of d x).

(** Every successor is a node of the graph. *)
Definition succ_closed (d : nx.DiGraph) : Prop :=
  forall x y, edge d x y -> In y (map fst d).

Definition symmetric (d : nx.DiGraph) : Prop :=
  forall x y, edge d x y -> edge d y x.

(** The nodes a traversal has not discovered yet. *)
Definition unvisited (d : nx.DiGraph) (vis : list Z) : list Z :=
  filter (fun n => negb (memZ n vis)) (map fst d).

(** Every node emitted so far has all its successors discovered. *)
Definition closed_out (d : nx.DiGraph) (vis out : list Z) : Prop :=
  forall y z, In y out -> edge d y z -> In z vis.

(** [a] comes before [b] in [l]. *)
Definition before (l : list Z) (a b : Z) : Prop :=
  exists l1 l2 l3, l = l1 ++ a :: l2 ++ b :: l3.

(** [y] is reached from [x] along edges that lead to nodes emitted earlier
    in [l]. *)
Inductive down (d : nx.DiGraph) (l : list Z) : Z -> Z -> Prop :=
| down_refl (x : Z) : down d l x x
| down_step (x z y : Z) :
    edge d x z -> before l z x -> down d l z y -> down d l x y.

(** The nodes emitted by a traversal come in blocks: every node [x] of
    [new] ends a run [blk0 ++ [x]] of consecutive nodes that are all
    reached downwards from [x] and that no node emitted before the run has
    an edge to. *)
Definition blocks_ok (d : nx.DiGraph) (out new : list Z) : Prop :=
  forall x, In x new ->
    exists pre blk0 post,
      new = pre ++ blk0 ++ x :: post
      /\ (forall y, In y blk0 -> down d (blk0 ++ [x]) x y)
      /\ (forall z y, In z (blk0 ++ [x]) -> In y (out ++ pre) -> ~ edge d y z).

(** What a visit of [v] delivers when it has fuel for the nodes still to
    discover: the successors of the new nodes are all discovered, the new
    nodes are emitted after [out], all below [v], in blocks. *)
Definition visit_ok (d : nx.DiGraph) (fuel : nat) : Prop :=
  forall v vis0 out,
    In v (map fst d) -> ~ In v vis0 -> closed_out d vis0 out ->
    (length (unvisited d (v :: vis0)) < fuel)%nat ->
    exists vis' new0,
      nx.dfs_visit fuel d v (v :: vis0, out) = Ok (vis', out ++ new0 ++ [v])
      /\ (forall x, In x vis' <-> x = v \/ In x vis0 \/ In x new0)
      /\ NoDup (new0 ++ [v])
      /\ (forall x, In x new0 -> ~ In x vis0 /\ In x (map fst d))
      /\ closed_out d vis' (out ++ new0 ++ [v])
      /\ (forall y, In y new0 -> down d (new0 ++ [v]) v y)
      /\ blocks_ok d out (new0 ++ [v]).

(** [y] is reachable from [x]. *)
Inductive reach (d : nx.DiGraph) : Z -> Z -> Prop :=
| reach_refl (x : Z) : reach d x x
| reach_step (x z y : Z) : edge d x z -> reach d z y -> reach d x y.

(** ** Well-formed [nx.Graph] objects *)

Fixpoint nodupb (l : list Z) : bool :=
  match l with
  | [] => true
  | x :: l' => negb (memZ x l') && nodupb l'
  end.

(** What holds of every [nx.Graph]: the nodes are distinct, the neighbours
    of a node are distinct nodes of the graph, and an edge is stored with
    the same data under both its endpoints. *)
Definition wf_graphb (g : nx.Graph) : bool :=
  nodupb (nx.nodes g)
  && forallb (fun x =>
                nodupb (map fst (snd x))
                && forallb (fun y =>
                              memZ (fst y) (nx.nodes g)
                              && match nx.get_edge_data g (fst y) (fst x) with
                                 | Some w => match w, snd y with
                                             | Some a, Some b => Z.eqb a b
                                             | None, None => true
                                             | _, _ => false
                                             end
                                 | None => false
                                 end)
                           (snd x))
             g.

(** The tree touches every node of the graph. *)
Definition spans (t g : nx.Graph) : bool :=
  forallb (fun n => memZ n (nx.nodes t)) (nx.nodes g).

(** ** Ranks and ranges *)

(** The ranks [i], [i + 1], ... given to the nodes of a list in order. *)
Fixpoint ranks_from (i : Z) (l : list Z) : list (Z * Z) :=
  match l with
  | [] => []
  | x :: l' => (x, i) :: ranks_from (i + 1) l'
  end.

(** The integers [lo], [lo + 1], ..., [lo + n - 1]. *)
Fixpoint range (lo : Z) (n : nat) : list Z :=
  match n with
  | O => []
  | S n' => lo :: range (lo + 1) n'
  end.

(** A contiguous range of integers whose maximum is [r]. *)
Definition contiguous_up_to (r : Z) (ds : list Z) : Prop :=
  exists n : nat, ds = range (r - Z.of_nat n) (S n).

(** The nodes of [l] up to and including [a]. *)
Fixpoint upto (l : list Z) (a : Z) : list Z :=
  match l with
  | [] => []
  | x :: l' => if Z.eqb x a then [x] else x :: upto l' a
  end.

(** The rank of a node, 0 when it has none. *)
Definition rank_of (po : list (Z * Z)) (x : Z) : Z :=
  match dict_get x po with Some r => r | None => 0 end.

(** Ascending order of a list of integers. *)
Inductive ascending : list Z -> Prop :=
| ascending_nil : ascending []
| ascending_cons (x : Z) (l : list Z) :
    ascending l -> (forall y, In y l -> x <= y) -> ascending (x :: l).

(** The state of an instance once [instantiate_substitute_variables] has
    run on the tree [t] with the postorder [l]. *)
Record instantiated (t : nx.Graph) (l : list Z) (s : Substitute) : Prop := {
  inst_po : postorder_nodes s = ranks_from 1 l;
  inst_nodup : NoDup l;
  inst_nodes : forall x, In x l <-> In x (nx.nodes t);
  inst_blocks : blocks_ok (nx.to_directed t) [] l;
  inst_keys : map fst (directed s) = nx.nodes t;
  inst_succ :
    forall a, In a l ->
      nx.succ_of (directed s) a
      = filter (fun b => memZ b (upto l a)) (nx.succ_of (nx.to_directed t) a);
  inst_desc :
    forall x pre blk0 post,
      l = pre ++ blk0 ++ x :: post ->
      (forall y, In y blk0 -> down (nx.to_directed t) (blk0 ++ [x]) x y) ->
      (forall z y, In z (blk0 ++ [x]) -> In y ([] ++ pre) ->
                   ~ edge (nx.to_directed t) y z) ->
      dict_get x (descendants s)
      = Some (range (1 + Z.of_nat (length pre)) (S (length blk0)));
  inst_cuts : quasi_cuts s = []
}.

(** An edge with its endpoints exchanged. *)
Definition swap (e : Z * Z) : Z * Z := (snd e, fst e).

(** The key [e[1:]] under which a weighted tree edge is entered in the
    mapping. *)
Definition key_of (e : wedge) : Z * Z := (snd (fst e), snd e).

(** Two instances that differ in their quasi-cut sets only. *)
Definition cuts_only (s s' : Substitute) : Prop :=
  graph s' = graph s /\ tree s' = tree s
  /\ fixed_edges s' = fixed_edges s
  /\ restricted_edges s' = restricted_edges s
  /\ ordered s' = ordered s /\ directed s' = directed s
  /\ postorder_nodes s' = postorder_nodes s
  /\ descendants s' = descendants s.

(** Both endpoints of every quasi-cut entry are among the nodes [l]. *)
Definition cuts_within (l : list Z) (q : list wedge) : Prop :=
  forall e, In e q -> In (snd (fst e)) l /\ In (snd e) l.

(** [p] is reachable from [x] without passing through [c]. *)
Inductive reach_avoiding (d : nx.DiGraph) (c : Z) : Z -> Z -> Prop :=
| avoid_refl (x : Z) : x <> c -> reach_avoiding d c x x
| avoid_step (x z y : Z) :
    x <> c -> edge d x z -> reach_avoiding d c z y -> reach_avoiding d c x y.

(** The tree edge between [c] and [p] seen from the root: [p] is on the
    side of the root, [c] is the child. *)
Definition child_parent (t : nx.Graph) (root c p : Z) : Prop :=
  nx.has_edge t c p = true /\ reach_avoiding (nx.to_directed t) c root p.

Definition pair_eq_dec (a b : Z * Z) : {a = b} + {a <> b}.
Proof. decide equality; apply Z.eq_dec. Defined.

(** A spanning tree of the fixture [example]. *)
Definition example_tree : nx.Graph :=
  nx.from_weighted_edges
    [(1, 3, 1); (2, 4, 1); (4, 5, 1); (1, 2, 2); (4, 6, 3)].

(** ** Candidates and substitutes *)

(** What [find_incident_edges] lets through: [(w, x, y)] is an edge of the
    graph with weight [w], the tuple [(x, y)] is not in the restricted
    container, and the edge is not in the tree. *)
Definition candidate (s : Substitute) (e : wedge) : Prop :=
  nx.has_edge (graph s) (snd (fst e)) (snd e) = true
  /\ tuple_in [snd (fst e); snd e] (restricted_edges s) = false
  /\ nx.has_edge (tree s) (snd (fst e)) (snd e) = false
  /\ nx.edge_weight (graph s) (snd (fst e)) (snd e) = Ok (fst (fst e)).

(** How one update of step 2.1 for [i] changes the quasi-cut set. *)
Definition cuts_step (i : wedge) (q q' : list wedge) : Prop :=
  (forall e, In e q' -> e = i \/ In e q)
  /\ (sorted_cuts q -> sorted_cuts q').

(** The quasi-cut set of a run: in ascending key order, candidates only. *)
Definition cuts_inv (s : Substitute) : Prop :=
  sorted_cuts (quasi_cuts s) /\ forall e, In e (quasi_cuts s) -> candidate s e.

(** The rank of [x] lies in the descendant ranks of [node]. *)
Definition ranked_within (s : Substitute) (node x : Z) : Prop :=
  exists r dn,
    dict_get x (postorder_nodes s) = Some r
    /\ dict_get node (descendants s) = Some dn
    /\ memZ r dn = true.

(** The rank of [x] lies outside the descendant ranks of [node]. *)
Definition ranked_outside (s : Substitute) (node x : Z) : Prop :=
  exists r dn,
    dict_get x (postorder_nodes s) = Some r
    /\ dict_get node (descendants s) = Some dn
    /\ memZ r dn = false.

(** What step 2.2.c records for the tree edge [(w, c, p)]: a candidate of
    the same weight whose source is ranked within the descendants of [c] and
    whose target is ranked outside. *)
Definition good_substitute (s : Substitute) (w c : Z) (sub : Z * Z) : Prop :=
  candidate s (w, fst sub, snd sub)
  /\ ranked_within s c (fst sub)
  /\ ranked_outside s c (snd sub).

(** ** Exchanging a tree edge for its substitute *)

(** The edges of the tree once the edge between [c] and [p] is taken out and
    the edge between [y] and [z] is put in. *)
Definition exchanged (t : nx.Graph) (c p y z : Z) (u v : Z) : Prop :=
  (nx.has_edge t u v = true /\ (u, v) <> (c, p) /\ (u, v) <> (p, c))
  \/ (u, v) = (y, z) \/ (u, v) = (z, y).

(** [b] can be reached from [a] along the relation [R]. *)
Inductive joined (R : Z -> Z -> Prop) : Z -> Z -> Prop :=
| joined_refl (a : Z) : joined R a a
| joined_step (a b c : Z) : R a b -> joined R b c -> joined R a c.

(** The instance as the constructor leaves it once both checks passed. *)
Definition fresh_instance (g t : nx.Graph) (fixed restricted : list tuple)
           (ord : bool) : Substitute :=
  {| graph := g; tree := t; fixed_edges := fixed;
     restricted_edges := restricted; ordered := ord;
     directed := []; postorder_nodes := []; descendants := [];
     quasi_cuts := [] |}.

(** A keyed list in the order of [sorted(..., key=...)]. *)
Inductive sorted_by_key {A : Type} : list ((Z * Z) * A) -> Prop :=
| sorted_by_key_nil : sorted_by_key []
| sorted_by_key_cons (k : Z * Z) (x : A) (l : list ((Z * Z) * A)) :
    sorted_by_key l ->
    (forall k' y, In (k', y) l -> key_leb k k' = true) ->
    sorted_by_key ((k, x) :: l).

(** The rank of the node a weighted tree edge (w, child, parent) is
    processed at. *)
Definition child_rank (s : Substitute) (e : wedge) : Z :=
  rank_of (postorder_nodes s) (snd (fst e)).

(** * Lemmas *)

(** ** Containers *)

Lemma memZ_In (x : Z) (l : list Z) : memZ x l = true <-> In x l.
Proof.
  unfold memZ. rewrite existsb_exists. split.
  - intros [y [Hy He]]. apply Z.eqb_eq in He. subst. exact Hy.
  - intros H. exists x. split; [exact H | apply Z.eqb_refl].
Qed.

Lemma memZ_not_In (x : Z) (l : list Z) : memZ x l = false <-> ~ In x l.
Proof.
  rewrite <- memZ_In. destruct (memZ x l); split; intros; congruence.
Qed.

Lemma wedge_eqb_eq (a b : wedge) : wedge_eqb a b = true <-> a = b.
Proof.
  destruct a as [[w1 u1] v1], b as [[w2 u2] v2]. unfold wedge_eqb.
  rewrite !andb_true_iff, !Z.eqb_eq. split.
  - intros [[-> ->] ->]. reflexivity.
  - intros H. inversion H. auto.
Qed.

Lemma wedge_eqb_refl (a : wedge) : wedge_eqb a a = true.
Proof. apply wedge_eqb_eq. reflexivity. Qed.

Lemma contains_In (x : wedge) (s : list wedge) :
  SortedSet.contains x s = true <-> In x s.
Proof.
  unfold SortedSet.contains. rewrite existsb_exists. split.
  - intros [y [Hy He]]. apply wedge_eqb_eq in He. subst. exact Hy.
  - intros H. exists x. split; [exact H | apply wedge_eqb_refl].
Qed.

(** ** The order of the quasi-cut set *)

Lemma key_ltb_irrefl (a : wedge) : SortedSet.key_ltb a a = false.
Proof.
  destruct a as [[w u] v]. unfold SortedSet.key_ltb.
  rewrite !Z.ltb_irrefl, !Z.eqb_refl. reflexivity.
Qed.

Lemma key_ltb_spec (a b : wedge) :
  SortedSet.key_ltb a b = true <->
  (fst (fst a) < fst (fst b)
   \/ (fst (fst a) = fst (fst b)
       /\ (snd (fst a) < snd (fst b)
           \/ (snd (fst a) = snd (fst b) /\ snd a < snd b)))).
Proof.
  destruct a as [[w1 u1] v1], b as [[w2 u2] v2]. unfold SortedSet.key_ltb.
  simpl. rewrite !orb_true_iff, !andb_true_iff, !orb_true_iff, !andb_true_iff.
  rewrite !Z.ltb_lt, !Z.eqb_eq. tauto.
Qed.

Lemma key_ltb_trans (a b c : wedge) :
  cut_lt a b -> cut_lt b c -> cut_lt a c.
Proof.
  unfold cut_lt. rewrite !key_ltb_spec. lia.
Qed.

Lemma key_ltb_asym (a b : wedge) : cut_lt a b -> cut_lt b a -> False.
Proof.
  unfold cut_lt. rewrite !key_ltb_spec. lia.
Qed.

Lemma key_ltb_total (a b : wedge) :
  SortedSet.key_ltb a b = false -> wedge_eqb a b = false -> cut_lt b a.
Proof.
  intros H1 H2. unfold cut_lt. apply key_ltb_spec.
  assert (H1' : ~ cut_lt a b) by (unfold cut_lt; congruence).
  unfold cut_lt in H1'. rewrite key_ltb_spec in H1'.
  assert (H2' : a <> b).
  { intros E. apply wedge_eqb_eq in E. congruence. }
  destruct a as [[w1 u1] v1], b as [[w2 u2] v2]. simpl in *.
  assert (w1 <> w2 \/ u1 <> u2 \/ v1 <> v2).
  { destruct (Z.eq_dec w1 w2); [|auto].
    destruct (Z.eq_dec u1 u2); [|auto].
    destruct (Z.eq_dec v1 v2); [|auto]. subst. congruence. }
  lia.
Qed.

Lemma add_In (x y : wedge) (s : list wedge) :
  In y (SortedSet.add x s) <-> y = x \/ In y s.
Proof.
  induction s as [|z s IH]; simpl.
  - intuition.
  - destruct (wedge_eqb x z) eqn:E.
    + apply wedge_eqb_eq in E. subst. simpl. intuition.
    + destruct (SortedSet.key_ltb x z); simpl; [intuition|].
      rewrite IH. intuition.
Qed.

Lemma remove_In (x y : wedge) (s : list wedge) :
  In y (SortedSet.remove x s) <-> In y s /\ y <> x.
Proof.
  unfold SortedSet.remove. rewrite filter_In. split.
  - intros [H1 H2]. split; [exact H1|]. intros ->.
    rewrite wedge_eqb_refl in H2. discriminate.
  - intros [H1 H2]. split; [exact H1|].
    destruct (wedge_eqb x y) eqn:E; [|reflexivity].
    apply wedge_eqb_eq in E. congruence.
Qed.

Lemma add_sorted (x : wedge) (s : list wedge) :
  sorted_cuts s -> sorted_cuts (SortedSet.add x s).
Proof.
  induction 1 as [|z s Hs IH Hz]; simpl.
  - constructor; [constructor | intros y []].
  - destruct (wedge_eqb x z) eqn:E; [constructor; assumption|].
    destruct (SortedSet.key_ltb x z) eqn:L.
    + constructor; [constructor; assumption|].
      intros y [<- | Hy]; [exact L|].
      apply key_ltb_trans with z; [exact L | apply Hz, Hy].
    + constructor; [exact IH|].
      intros y Hy. apply add_In in Hy. destruct Hy as [-> | Hy].
      * apply key_ltb_total; assumption.
      * apply Hz, Hy.
Qed.

Lemma remove_sorted (x : wedge) (s : list wedge) :
  sorted_cuts s -> sorted_cuts (SortedSet.remove x s).
Proof.
  induction 1 as [|z s Hs IH Hz]; simpl.
  - constructor.
  - destruct (negb (wedge_eqb x z)).
    + constructor; [exact IH|].
      intros y Hy. apply remove_In in Hy. apply Hz, Hy.
    + exact IH.
Qed.

Lemma remove_length (x : wedge) (s : list wedge) :
  In x s -> (length (SortedSet.remove x s) < length s)%nat.
Proof.
  induction s as [|z s IH]; simpl; [intros []|].
  intros [-> | H].
  - rewrite wedge_eqb_refl. simpl.
    pose proof (filter_length_le (fun y => negb (wedge_eqb x y)) s). 
    unfold SortedSet.remove. lia.
  - specialize (IH H). unfold SortedSet.remove in *.
    destruct (negb (wedge_eqb x z)); simpl; lia.
Qed.

(** ** The monad *)

Lemma bind_Ok {A B} (m : M A) (k : A -> M B) (s s'' : Substitute) (b : B) :
  bind m k s = Ok (b, s'') <->
  exists a s', m s = Ok (a, s') /\ k a s' = Ok (b, s'').
Proof.
  unfold bind. destruct (m s) as [[a s']|e]; split.
  - intros H. exists a, s'. auto.
  - intros [a0 [s0 [H1 H2]]]. inversion H1. subst. exact H2.
  - discriminate.
  - intros [a0 [s0 [H1 _]]]. discriminate.
Qed.

Lemma rbind_Ok {A B} (r : result A) (k : A -> result B) (b : B) :
  rbind r k = Ok b <-> exists a, r = Ok a /\ k a = Ok b.
Proof.
  destruct r as [a|e]; simpl; split.
  - intros H. exists a. auto.
  - intros [a0 [H1 H2]]. inversion H1. subst. exact H2.
  - discriminate.
  - intros [a0 [H1 _]]. discriminate.
Qed.

Lemma lift_Ok {A} (r : result A) (s s' : Substitute) (a : A) :
  lift r s = Ok (a, s') <-> r = Ok a /\ s' = s.
Proof.
  unfold lift. destruct r; split; intros H.
  - inversion H. auto.
  - destruct H as [H ->]. inversion H. reflexivity.
  - discriminate.
  - destruct H; discriminate.
Qed.

Lemma gets_Ok {A} (f : Substitute -> A) (s s' : Substitute) (a : A) :
  gets f s = Ok (a, s') <-> a = f s /\ s' = s.
Proof.
  unfold gets. split; intros H.
  - inversion H. auto.
  - destruct H as [-> ->]. reflexivity.
Qed.

Lemma modify_Ok (f : Substitute -> Substitute) (s s' : Substitute) (u : unit) :
  modify f s = Ok (u, s') <-> s' = f s.
Proof.
  unfold modify. destruct u. split; intros H.
  - inversion H. auto.
  - subst. reflexivity.
Qed.

Lemma ret_Ok {A} (a b : A) (s s' : Substitute) :
  ret a s = Ok (b, s') <-> b = a /\ s' = s.
Proof.
  unfold ret. split; intros H.
  - inversion H. auto.
  - destruct H as [-> ->]. reflexivity.
Qed.

(** Inversion of a successful run, one operation at a time. *)
Ltac bind_inv H :=
  apply bind_Ok in H;
  let a := fresh "a" in
  let s := fresh "s" in
  let G := fresh "G" in
  destruct H as [a [s [G H]]];
  first [ apply gets_Ok in G; destruct G as [-> ->]
        | apply modify_Ok in G; subst s
        | apply lift_Ok in G; destruct G as [G ->]
        | apply ret_Ok in G; destruct G as [-> ->]
        | idtac ].

Lemma dict_item_Ok {A} (k : Z) (d : list (Z * A)) (a : A) :
  dict_item k d = Ok a <-> dict_get k d = Some a.
Proof.
  unfold dict_item. destruct (dict_get k d); split; intros H;
    inversion H; reflexivity.
Qed.

Lemma dict_has_get {A} (k : Z) (d : list (Z * A)) :
  dict_has k d = true <-> exists a, dict_get k d = Some a.
Proof.
  unfold dict_has. destruct (dict_get k d) as [a|]; split.
  - intros _. exists a. reflexivity.
  - reflexivity.
  - discriminate.
  - intros [a H]. discriminate.
Qed.

(** ** The scan of the quasi-cut set *)

(** With the ranks and descendant sets it reads in place, the scan is
    [find] with the test on the source of the entry. *)
Lemma scan_cuts_find (self : Substitute) (weight node : Z) (cuts : list wedge) :
  dict_has node (descendants self) = true ->
  (forall e, In e cuts -> dict_has (snd (fst e)) (postorder_nodes self) = true) ->
  scan_cuts (postorder_nodes self) (descendants self) weight node cuts
  = Ok (find (source_match self weight node) cuts).
Proof.
  intros Hn. apply dict_has_get in Hn. destruct Hn as [dn Hdn].
  induction cuts as [|[[x y] z] cuts IH]; intros Hs; simpl.
  - reflexivity.
  - assert (Hy : dict_has y (postorder_nodes self) = true).
    { apply (Hs (x, y, z)). left. reflexivity. }
    apply dict_has_get in Hy. destruct Hy as [r Hr].
    unfold dict_item. rewrite Hr, Hdn. simpl.
    destruct (memZ r dn && (x =? weight)) eqn:E.
    + reflexivity.
    + apply IH. intros e He. apply Hs. right. exact He.
Qed.

(** The scan only reads. *)
Lemma scan_cuts_In (po : list (Z * Z)) (ds : list (Z * list Z))
      (weight node : Z) (cuts : list wedge) (e : wedge) :
  scan_cuts po ds weight node cuts = Ok (Some e) -> In e cuts.
Proof.
  induction cuts as [|[[x y] z] cuts IH]; simpl.
  - discriminate.
  - destruct (dict_item y po) as [r|]; simpl; [|discriminate].
    destruct (dict_item node ds) as [dn|]; simpl; [|discriminate].
    destruct (memZ r dn && (x =? weight)).
    + intros H. inversion H. left. reflexivity.
    + intros H. right. apply IH, H.
Qed.

Lemma find_first_sorted (f : wedge -> bool) (s : list wedge) :
  sorted_cuts s ->
  match find f s with
  | Some e =>
      In e s /\ f e = true
      /\ forall e', In e' s -> cut_lt e' e -> f e' = false
  | None => forall e, In e s -> f e = false
  end.
Proof.
  induction 1 as [|x s Hs IH Hx]; simpl.
  - intros e [].
  - destruct (f x) eqn:E.
    + split; [left; reflexivity|]. split; [exact E|].
      intros e' [<- | He'] Hlt.
      * exfalso. unfold cut_lt in Hlt. rewrite key_ltb_irrefl in Hlt.
        discriminate.
      * exfalso. apply (key_ltb_asym x e'); [apply Hx, He' | exact Hlt].
    + destruct (find f s) as [e|].
      * destruct IH as [H1 [H2 H3]]. split; [right; exact H1|].
        split; [exact H2|].
        intros e' [<- | He'] Hlt; [exact E | apply H3; assumption].
      * intros e [<- | He]; [exact E | apply IH, He].
Qed.

Lemma equal_weight_descendant_state (n_edge : wedge) (self self' : Substitute)
      (r : option wedge) :
  equal_weight_descendant n_edge self = Ok (r, self') -> self' = self.
Proof.
  unfold equal_weight_descendant. destruct n_edge as [[w node] p].
  destruct (scan_cuts _ _ _ _ _); simpl; intros H; inversion H; reflexivity.
Qed.

Lemma equal_weight_descendant_In (n_edge : wedge) (self self' : Substitute)
      (e : wedge) :
  equal_weight_descendant n_edge self = Ok (Some e, self') ->
  In e (quasi_cuts self).
Proof.
  unfold equal_weight_descendant. destruct n_edge as [[w node] p].
  destruct (scan_cuts _ _ _ _ _) as [r|] eqn:E; simpl; [|discriminate].
  intros H. inversion H. subst. apply scan_cuts_In in E. exact E.
Qed.

(** ** The search loop *)

(** The entry that step 2.2.c records is in the quasi-cut set when the loop
    is left. *)
Lemma search_loop_retains (fuel : nat) (n_edge : wedge) :
  forall (self self' : Substitute) (ce : wedge),
    search_loop fuel n_edge self = Ok (Some ce, self') ->
    In ce (quasi_cuts self').
Proof.
  induction fuel as [|fuel IH]; intros self self' ce; simpl.
  - unfold lift. discriminate.
  - intros H. apply bind_Ok in H. destruct H as [cut [s1 [H1 H2]]].
    pose proof (equal_weight_descendant_state _ _ _ _ H1) as ->.
    destruct cut as [cut_edge|].
    + apply equal_weight_descendant_In in H1.
      destruct n_edge as [[w node] p]. destruct cut_edge as [[x y] z].
      do 4 bind_inv H2.
      destruct (memZ a a0).
      * do 2 bind_inv H2. apply IH in H2. exact H2.
      * apply ret_Ok in H2. destruct H2 as [H2 ->]. inversion H2; subst.
        exact H1.
    + apply ret_Ok in H2. destruct H2 as [H2 _]. discriminate H2.
Qed.

(** ** What a call leaves alone, and what it reads *)

Lemma same_inputs_refl (s : Substitute) : same_inputs s s.
Proof. repeat split. Qed.

Lemma same_inputs_trans (s1 s2 s3 : Substitute) :
  same_inputs s1 s2 -> same_inputs s2 s3 -> same_inputs s1 s3.
Proof.
  unfold same_inputs. intros [-> [-> [-> [-> ->]]]] H. exact H.
Qed.

Lemma same_inputs_sym (s1 s2 : Substitute) :
  same_inputs s1 s2 -> same_inputs s2 s1.
Proof.
  unfold same_inputs. intros [-> [-> [-> [-> ->]]]]. repeat split.
Qed.

Lemma keeps_ret {A} (a : A) : keeps_inputs (ret a).
Proof. intros s b s' H. apply ret_Ok in H. destruct H as [_ ->]. apply same_inputs_refl. Qed.

Lemma keeps_gets {A} (f : Substitute -> A) : keeps_inputs (gets f).
Proof. intros s b s' H. apply gets_Ok in H. destruct H as [_ ->]. apply same_inputs_refl. Qed.

Lemma keeps_lift {A} (r : result A) : keeps_inputs (lift r).
Proof. intros s b s' H. apply lift_Ok in H. destruct H as [_ ->]. apply same_inputs_refl. Qed.

Lemma keeps_bind {A B} (m : M A) (k : A -> M B) :
  keeps_inputs m -> (forall a, keeps_inputs (k a)) -> keeps_inputs (bind m k).
Proof.
  intros Hm Hk s b s' H. apply bind_Ok in H. destruct H as [a [s1 [H1 H2]]].
  apply same_inputs_trans with s1; [apply (Hm _ _ _ H1) | apply (Hk _ _ _ _ H2)].
Qed.

Lemma keeps_set_directed (d : nx.DiGraph) : keeps_inputs (modify (set_directed d)).
Proof. intros s u s' H. apply modify_Ok in H. subst. repeat split. Qed.

Lemma keeps_set_postorder po ds : keeps_inputs (modify (set_postorder po ds)).
Proof. intros s u s' H. apply modify_Ok in H. subst. repeat split. Qed.

Lemma keeps_set_quasi_cuts q : keeps_inputs (modify (set_quasi_cuts q)).
Proof. intros s u s' H. apply modify_Ok in H. subst. repeat split. Qed.

Lemma keeps_if {A} (b : bool) (m1 m2 : M A) :
  keeps_inputs m1 -> keeps_inputs m2 -> keeps_inputs (if b then m1 else m2).
Proof. destruct b; auto. Qed.

Lemma keeps_fun {A} (f : Substitute -> result A) :
  keeps_inputs (fun self => a <-r f self ;; Ok (a, self)).
Proof.
  intros s a s' H. destruct (f s); simpl in H; inversion H.
  apply same_inputs_refl.
Qed.



Create HintDb frame.
#[export] Hint Resolve keeps_ret keeps_gets keeps_lift keeps_set_directed
  keeps_set_postorder keeps_set_quasi_cuts : frame.

Ltac keeps :=
  repeat first
    [ solve [auto with frame]
    | apply keeps_bind; [|intros ?]
    | apply keeps_if ].

Lemma keeps_random_node (r_idx : nat) : keeps_inputs (random_node r_idx).
Proof.
  unfold random_node. apply keeps_bind; [auto with frame|]. intros g.
  destruct (nth_error (nx.nodes g) r_idx); auto with frame.
Qed.
#[export] Hint Resolve keeps_random_node : frame.

Lemma keeps_rank_loop (nodes : list Z) :
  forall i po, keeps_inputs (rank_loop nodes i po).
Proof.
  induction nodes as [|node nodes IH]; intros i po; simpl.
  - auto with frame.
  - keeps.
Qed.
#[export] Hint Resolve keeps_rank_loop : frame.

Lemma keeps_postorder_tree (r_idx : nat) : keeps_inputs (postorder_tree r_idx).
Proof.
  unfold postorder_tree. apply keeps_bind; [auto with frame|]. intros ord.
  apply keeps_bind.
  - destruct ord; keeps.
  - intros nodes. keeps.
Qed.
#[export] Hint Resolve keeps_postorder_tree : frame.

Lemma keeps_instantiate (r_idx : nat) :
  keeps_inputs (instantiate_substitute_variables r_idx).
Proof.
  unfold instantiate_substitute_variables. keeps.
Qed.
#[export] Hint Resolve keeps_instantiate : frame.

Lemma keeps_postordered_edges : keeps_inputs postordered_edges.
Proof.
  intros s a s' H. unfold postordered_edges in H.
  destruct (weigh_edges _ _); simpl in H; [|discriminate].
  destruct (with_keys _ _); simpl in H; [|discriminate].
  inversion H. apply same_inputs_refl.
Qed.
#[export] Hint Resolve keeps_postordered_edges : frame.

Lemma keeps_find_incident_edges (node : Z) :
  keeps_inputs (find_incident_edges node).
Proof.
  intros s a s' H. unfold find_incident_edges in H.
  destruct (nx.neighbors _ _); simpl in H; [|discriminate].
  destruct (incident_loop _ _ _); simpl in H; [|discriminate].
  inversion H. apply same_inputs_refl.
Qed.
#[export] Hint Resolve keeps_find_incident_edges : frame.

Lemma keeps_update_cuts (i_edge : wedge) : keeps_inputs (update_cuts i_edge).
Proof.
  destruct i_edge as [[w a] b]. unfold update_cuts.
  keeps.
  all: match goal with
       | |- keeps_inputs (if ?c then _ else _) => destruct c
       end; keeps.
Qed.
#[export] Hint Resolve keeps_update_cuts : frame.

Lemma keeps_update_cuts_loop (es : list wedge) :
  keeps_inputs (update_cuts_loop es).
Proof.
  induction es as [|e es IH]; simpl.
  - auto with frame.
  - keeps.
Qed.
#[export] Hint Resolve keeps_update_cuts_loop : frame.

Lemma keeps_equal_weight_descendant (n_edge : wedge) :
  keeps_inputs (equal_weight_descendant n_edge).
Proof.
  intros s a s' H. apply equal_weight_descendant_state in H. subst.
  apply same_inputs_refl.
Qed.
#[export] Hint Resolve keeps_equal_weight_descendant : frame.

Lemma keeps_search_loop (fuel : nat) (n_edge : wedge) :
  keeps_inputs (search_loop fuel n_edge).
Proof.
  induction fuel as [|fuel IH]; simpl.
  - auto with frame.
  - apply keeps_bind; [apply keeps_equal_weight_descendant|].
    intros [cut_edge|]; [|auto with frame].
    destruct n_edge as [[w node] p]. destruct cut_edge as [[x y] z].
    keeps.
Qed.
#[export] Hint Resolve keeps_search_loop : frame.

Lemma keeps_substitute_step (n_edge : wedge) (sd : subst_dict) :
  keeps_inputs (substitute_step n_edge sd).
Proof.
  destruct n_edge as [[w node] p]. unfold substitute_step.
  keeps.
  match goal with |- keeps_inputs (match ?x with _ => _ end) => destruct x as [[[? ?] ?]|] end;
      auto with frame.
Qed.
#[export] Hint Resolve keeps_substitute_step : frame.

Lemma keeps_substitute_loop (es : list wedge) :
  forall sd, keeps_inputs (substitute_loop es sd).
Proof.
  induction es as [|e es IH]; intros sd; simpl.
  - auto with frame.
  - keeps.
Qed.
#[export] Hint Resolve keeps_substitute_loop : frame.

Lemma keeps_substitute (r_idx : nat) : keeps_inputs (substitute r_idx).
Proof.
  unfold substitute. keeps.
Qed.

(** *** The working state is made afresh *)

Lemma reads_ret {A} (a : A) : reads_inputs (ret a).
Proof. intros s1 s2 H. simpl. repeat split; apply H. Qed.

Lemma reads_lift {A} (r : result A) : reads_inputs (lift r).
Proof.
  intros s1 s2 H. unfold lift. destruct r; [|reflexivity].
  repeat split; apply H.
Qed.

Lemma reads_bind {A B} (m : M A) (k : A -> M B) :
  reads_inputs m -> (forall a, reads_inputs (k a)) -> reads_inputs (bind m k).
Proof.
  intros Hm Hk s1 s2 H. unfold bind. specialize (Hm s1 s2 H).
  destruct (m s1) as [[a1 s1']|e1], (m s2) as [[a2 s2']|e2];
    try contradiction; [|exact Hm].
  destruct Hm as [-> [Ha [E1 [E2 [E3 [E4 [E5 E6]]]]]]].
  specialize (Hk a2 s1' s2' Ha).
  destruct (k a2 s1') as [[b1 s1'']|e1], (k a2 s2') as [[b2 s2'']|e2];
    try contradiction; [|exact Hk].
  destruct Hk as [-> [Hb [F1 [F2 [F3 [F4 [F5 F6]]]]]]].
  repeat split; try apply Hb; congruence.
Qed.

Lemma reads_gets_graph : reads_inputs (gets graph).
Proof. intros s1 s2 H. simpl. repeat split; apply H. Qed.
Lemma reads_gets_tree : reads_inputs (gets tree).
Proof. intros s1 s2 H. simpl. repeat split; apply H. Qed.
Lemma reads_gets_ordered : reads_inputs (gets ordered).
Proof. intros s1 s2 H. simpl. repeat split; apply H. Qed.
Lemma reads_gets_directed : reads_inputs (gets directed).
Proof. intros s1 s2 H. simpl. repeat split; apply H. Qed.
Lemma reads_gets_tree_nodes :
  reads_inputs (gets (fun self => nx.nodes (tree self))).
Proof.
  intros s1 s2 H. simpl. repeat split; try apply H.
  destruct H as [[_ [-> _]] _]. reflexivity.
Qed.

Lemma reads_set_directed (d : nx.DiGraph) : reads_inputs (modify (set_directed d)).
Proof. intros s1 s2 H. simpl. repeat split; apply H. Qed.

Lemma reads_random_node (r_idx : nat) : reads_inputs (random_node r_idx).
Proof.
  unfold random_node. apply reads_bind; [apply reads_gets_graph|].
  intros g. destruct (nth_error _ _); [apply reads_ret | apply reads_lift].
Qed.

Lemma reads_rank_loop (nodes : list Z) :
  forall i po, reads_inputs (rank_loop nodes i po).
Proof.
  induction nodes as [|node nodes IH]; intros i po; simpl.
  - apply reads_ret.
  - apply reads_bind; [apply reads_gets_directed|]. intros d.
    apply reads_bind; [apply reads_lift|]. intros nbrs.
    apply reads_bind; [apply reads_set_directed|]. intros _.
    apply IH.
Qed.

Lemma reads_postorder_tree (r_idx : nat) : reads_inputs (postorder_tree r_idx).
Proof.
  unfold postorder_tree.
  apply reads_bind; [apply reads_gets_ordered|]. intros ord.
  apply reads_bind.
  - destruct ord; [apply reads_gets_tree_nodes|].
    apply reads_bind; [apply reads_random_node|]. intros root.
    apply reads_bind; [apply reads_gets_directed|]. intros d.
    apply reads_lift.
  - intros nodes.
    apply reads_bind; [apply reads_rank_loop|]. intros po.
    apply reads_bind; [apply reads_gets_directed|]. intros d.
    apply reads_bind; [apply reads_lift|]. intros ds.
    apply reads_ret.
Qed.

(** [instantiate_substitute_variables] starts from the inputs alone. *)
Lemma instantiate_fresh (r_idx : nat) (s1 s2 : Substitute) :
  same_inputs s1 s2 ->
  instantiate_substitute_variables r_idx s1
  = instantiate_substitute_variables r_idx s2.
Proof.
  intros H. unfold instantiate_substitute_variables, bind, gets, modify.
  assert (Ht : tree s1 = tree s2) by apply H. rewrite Ht.
  assert (Ha : agree (set_directed (nx.to_directed (tree s2)) s1)
                     (set_directed (nx.to_directed (tree s2)) s2)).
  { split; [|reflexivity]. exact H. }
  pose proof (reads_postorder_tree r_idx _ _ Ha) as Hp.
  destruct (postorder_tree r_idx (set_directed _ s1)) as [[a1 t1]|e1],
           (postorder_tree r_idx (set_directed _ s2)) as [[a2 t2]|e2];
    try contradiction.
  - destruct Hp as [-> [[Hi Hd] _]]. do 2 f_equal.
    destruct t1, t2. unfold same_inputs in Hi. simpl in *.
    destruct Hi as [-> [-> [-> [-> ->]]]]. subst. reflexivity.
  - subst. reflexivity.
Qed.

Lemma substitute_fresh (r_idx : nat) (s1 s2 : Substitute) :
  same_inputs s1 s2 -> substitute r_idx s1 = substitute r_idx s2.
Proof.
  intros H. unfold substitute, bind.
  rewrite (instantiate_fresh r_idx s1 s2 H). reflexivity.
Qed.

(** ** Depth-first traversal *)

Lemma before_app_l (l pre post : list Z) (a b : Z) :
  before l a b -> before (pre ++ l ++ post) a b.
Proof.
  intros [l1 [l2 [l3 ->]]]. exists (pre ++ l1), l2, (l3 ++ post).
  rewrite <- !app_assoc. simpl. rewrite <- !app_assoc. reflexivity.
Qed.

Lemma down_app (d : nx.DiGraph) (l pre post : list Z) (x y : Z) :
  down d l x y -> down d (pre ++ l ++ post) x y.
Proof.
  induction 1 as [x | x z y He Hb _ IH].
  - apply down_refl.
  - apply down_step with z; [exact He | apply before_app_l, Hb | exact IH].
Qed.

Lemma down_trans (d : nx.DiGraph) (l : list Z) (x y z : Z) :
  down d l x y -> down d l y z -> down d l x z.
Proof.
  induction 1 as [x | x w y He Hb _ IH]; intros H.
  - exact H.
  - apply down_step with w; [exact He | exact Hb | apply IH, H].
Qed.

Lemma unvisited_In (d : nx.DiGraph) (vis : list Z) (x : Z) :
  In x (unvisited d vis) <-> In x (map fst d) /\ ~ In x vis.
Proof.
  unfold unvisited. rewrite filter_In, negb_true_iff, memZ_not_In. tauto.
Qed.

Lemma filter_length_mono {A} (f g : A -> bool) (l : list A) :
  (forall x, In x l -> f x = true -> g x = true) ->
  (length (filter f l) <= length (filter g l))%nat.
Proof.
  induction l as [|a l IH]; intros H; simpl; [lia|].
  assert (IH' : (length (filter f l) <= length (filter g l))%nat).
  { apply IH. intros x Hx. apply H. right. exact Hx. }
  destruct (f a) eqn:Ef.
  - rewrite (H a (or_introl eq_refl) Ef). simpl. lia.
  - destruct (g a); simpl; lia.
Qed.

Lemma filter_length_lt {A} (f g : A -> bool) (l : list A) (a : A) :
  (forall x, In x l -> f x = true -> g x = true) ->
  In a l -> f a = false -> g a = true ->
  (length (filter f l) < length (filter g l))%nat.
Proof.
  induction l as [|b l IH]; intros H Ha Hf Hg; simpl; [destruct Ha|].
  assert (Hm : (length (filter f l) <= length (filter g l))%nat).
  { apply filter_length_mono. intros x Hx. apply H. right. exact Hx. }
  destruct Ha as [-> | Ha].
  - rewrite Hf, Hg. simpl. lia.
  - assert (IH' : (length (filter f l) < length (filter g l))%nat).
    { apply IH; auto. intros x Hx. apply H. right. exact Hx. }
    destruct (f b) eqn:Ef.
    + rewrite (H b (or_introl eq_refl) Ef). simpl. lia.
    + destruct (g b); simpl; lia.
Qed.

Lemma unvisited_mono (d : nx.DiGraph) (vis vis' : list Z) :
  (forall x, In x vis -> In x vis') ->
  (length (unvisited d vis') <= length (unvisited d vis))%nat.
Proof.
  intros H. apply filter_length_mono. intros x _.
  rewrite !negb_true_iff, !memZ_not_In. intros Hn Hx. apply Hn, H, Hx.
Qed.

Lemma unvisited_cons (d : nx.DiGraph) (vis : list Z) (c : Z) :
  In c (map fst d) -> ~ In c vis ->
  (length (unvisited d (c :: vis)) < length (unvisited d vis))%nat.
Proof.
  intros Hc Hn. apply filter_length_lt with c.
  - intros x _. rewrite !negb_true_iff, !memZ_not_In. simpl. tauto.
  - exact Hc.
  - rewrite negb_false_iff, memZ_In. left. reflexivity.
  - rewrite negb_true_iff, memZ_not_In. exact Hn.
Qed.

Lemma closed_out_mono (d : nx.DiGraph) (vis vis' out : list Z) :
  (forall x, In x vis -> In x vis') ->
  closed_out d vis out -> closed_out d vis' out.
Proof. intros H Hc y z Hy He. apply H, (Hc y z Hy He). Qed.

Lemma blocks_ok_app (d : nx.DiGraph) (out n1 n2 : list Z) :
  blocks_ok d out n1 -> blocks_ok d (out ++ n1) n2 -> blocks_ok d out (n1 ++ n2).
Proof.
  intros H1 H2 x Hx. apply in_app_or in Hx. destruct Hx as [Hx | Hx].
  - destruct (H1 x Hx) as [pre [blk0 [post [E [Hd Hn]]]]].
    exists pre, blk0, (post ++ n2). split; [|split; assumption].
    rewrite E. rewrite <- !app_assoc. simpl. reflexivity.
  - destruct (H2 x Hx) as [pre [blk0 [post [E [Hd Hn]]]]].
    exists (n1 ++ pre), blk0, post. split; [|split].
    + rewrite E. rewrite <- !app_assoc. reflexivity.
    + exact Hd.
    + intros z y Hz Hy. apply Hn; [exact Hz|].
      rewrite <- app_assoc. rewrite app_assoc in Hy. 
      rewrite <- app_assoc in Hy. exact Hy.
Qed.

Section Traversal.

Variable d : nx.DiGraph.
Hypothesis Hsc : succ_closed d.

Lemma dfs_children_spec (fuel : nat) (IHv : visit_ok d fuel) :
  forall cs vis out,
    (forall c, In c cs -> In c (map fst d)) ->
    closed_out d vis out ->
    (length (unvisited d vis) <= fuel)%nat ->
    exists vis' news,
      nx.dfs_children (nx.dfs_visit fuel d) cs (vis, out) = Ok (vis', out ++ news)
      /\ (forall x, In x vis' <-> In x vis \/ In x news)
      /\ NoDup news
      /\ (forall x, In x news -> ~ In x vis /\ In x (map fst d))
      /\ closed_out d vis' (out ++ news)
      /\ blocks_ok d out news
      /\ (forall c, In c cs -> In c vis')
      /\ (forall y, In y news -> exists c, In c cs /\ In c news /\ down d news c y).
Proof.
  induction cs as [|c cs IHcs]; intros vis out Hk Hc Hf.
  - exists vis, []. rewrite app_nil_r. simpl.
    split; [reflexivity|]. split; [tauto|]. split; [constructor|].
    split; [intros x []|]. split; [exact Hc|].
    split; [intros x []|]. split; intros x [].
  - simpl. destruct (memZ c vis) eqn:Em.
    + destruct (IHcs vis out) as [vis' [news [E [Hv [Hnd [Hnew [Hcl [Hb [Hcs Hdn]]]]]]]]];
        auto.
      { intros c' Hc'. apply Hk. right. exact Hc'. }
      exists vis', news. split; [exact E|]. split; [exact Hv|].
      split; [exact Hnd|]. split; [exact Hnew|]. split; [exact Hcl|].
      split; [exact Hb|]. split.
      * intros c' [<- | Hc']; [|apply Hcs, Hc'].
        apply Hv. left. apply memZ_In. exact Em.
      * intros y Hy. destruct (Hdn y Hy) as [c' [H1 [H2 H3]]].
        exists c'. split; [right; exact H1 | split; assumption].
    + apply memZ_not_In in Em.
      assert (Hck : In c (map fst d)) by (apply Hk; left; reflexivity).
      destruct (IHv c vis out Hck Em Hc) as
          [vis1 [new0 [E1 [Hv1 [Hnd1 [Hnew1 [Hcl1 [Hdn1 Hb1]]]]]]]].
      { pose proof (unvisited_cons d vis c Hck Em). lia. }
      rewrite E1. simpl.
      destruct (IHcs vis1 (out ++ new0 ++ [c])) as
          [vis' [news [E [Hv [Hnd [Hnew [Hcl [Hb [Hcs Hdn]]]]]]]]].
      { intros c' Hc'. apply Hk. right. exact Hc'. }
      { exact Hcl1. }
      { pose proof (unvisited_mono d vis vis1) as Hm.
        assert ((length (unvisited d vis1) <= length (unvisited d vis))%nat).
        { apply Hm. intros x Hx. apply Hv1. right. left. exact Hx. }
        lia. }
      exists vis', ((new0 ++ [c]) ++ news).
      split; [rewrite E; f_equal; f_equal; rewrite <- !app_assoc; reflexivity|].
      split.
      { intros x. rewrite Hv, Hv1, !in_app_iff. simpl. intuition congruence. }
      split.
      { apply NoDup_app; [exact Hnd1 | exact Hnd |].
        intros x Hx Hx'. apply (proj1 (Hnew x Hx')). apply Hv1.
        apply in_app_or in Hx. destruct Hx as [Hx | [<- | []]]; auto. }
      split.
      { intros x Hx. apply in_app_or in Hx. destruct Hx as [Hx | Hx].
        - apply in_app_or in Hx. destruct Hx as [Hx | [<- | []]].
          + apply Hnew1, Hx.
          + split; assumption.
        - destruct (Hnew x Hx) as [H1 H2]. split; [|exact H2].
          intros Hx'. apply H1. apply Hv1. right. left. exact Hx'. }
      split.
      { rewrite <- !app_assoc in Hcl. rewrite <- !app_assoc. exact Hcl. }
      split.
      { apply blocks_ok_app; [exact Hb1 | exact Hb]. }
      split.
      { intros c' [<- | Hc']; [|apply Hcs, Hc'].
        apply Hv. left. apply Hv1. left. reflexivity. }
      { intros y Hy. apply in_app_or in Hy. destruct Hy as [Hy | Hy].
        - exists c. split; [left; reflexivity|]. split.
          + apply in_or_app. left. apply in_or_app. right. left. reflexivity.
          + apply in_app_or in Hy. destruct Hy as [Hy | [<- | []]].
            * apply (down_app d (new0 ++ [c]) [] news). apply Hdn1, Hy.
            * apply down_refl.
        - destruct (Hdn y Hy) as [c' [H1 [H2 H3]]].
          exists c'. split; [right; exact H1|]. split.
          + apply in_or_app. right. exact H2.
          + pose proof (down_app d news (new0 ++ [c]) [] c' y H3) as H4.
            rewrite app_nil_r in H4. exact H4. }
Qed.

Lemma dfs_visit_spec : forall fuel, visit_ok d fuel.
Proof.
  induction fuel as [|fuel IH]; intros v vis0 out Hvk Hv0 Hc Hf.
  - lia.
  - simpl.
    destruct (dfs_children_spec fuel IH (nx.succ_of d v) (v :: vis0) out)
      as [vis' [news [E [Hv [Hnd [Hnew [Hcl [Hb [Hcs Hdn]]]]]]]]].
    { intros c Hcin. apply (Hsc v c Hcin). }
    { apply closed_out_mono with vis0; [|exact Hc].
      intros x Hx. right. exact Hx. }
    { lia. }
    rewrite E. simpl. exists vis', news.
    assert (Hvn : ~ In v news).
    { intros Hin. apply (proj1 (Hnew v Hin)). left. reflexivity. }
    assert (Hroot : forall y, In y news -> down d (news ++ [v]) v y).
    { intros y Hy. destruct (Hdn y Hy) as [c [H1 [H2 H3]]].
      apply down_step with c.
      - exact H1.
      - apply in_split in H2. destruct H2 as [l1 [l2 ->]].
        exists l1, l2, []. rewrite <- app_assoc. reflexivity.
      - apply (down_app d news [] [v]). exact H3. }
    split; [rewrite <- app_assoc; reflexivity|].
    split.
    { intros x. rewrite Hv. simpl. intuition congruence. }
    split.
    { apply NoDup_app; [exact Hnd | constructor; [intros []|constructor] |].
      intros x Hx [<- | []]. exact (Hvn Hx). }
    split.
    { intros x Hx. destruct (Hnew x Hx) as [H1 H2]. split; [|exact H2].
      intros Hx'. apply H1. right. exact Hx'. }
    split.
    { intros y z Hy He. rewrite app_assoc in Hy. apply in_app_or in Hy.
      destruct Hy as [Hy | [<- | []]].
      - apply (Hcl y z Hy He).
      - apply Hcs. exact He. }
    split; [exact Hroot|].
    intros x Hx. apply in_app_or in Hx. destruct Hx as [Hx | [<- | []]].
    + destruct (Hb x Hx) as [pre [blk0 [post [Eb [Hd1 Hn1]]]]].
      exists pre, blk0, (post ++ [v]). split; [|split; assumption].
      rewrite Eb. rewrite <- !app_assoc. reflexivity.
    + exists [], news, []. split; [reflexivity|]. split; [exact Hroot|].
      intros z y Hz Hy. rewrite app_nil_r in Hy. intros He.
      pose proof (Hc y z Hy He) as Hz0.
      apply in_app_or in Hz. destruct Hz as [Hz | [<- | []]].
      * apply (proj1 (Hnew z Hz)). right. exact Hz0.
      * exact (Hv0 Hz0).
Qed.

End Traversal.

(** ** Reachability *)

Lemma reach_trans (d : nx.DiGraph) (x y z : Z) :
  reach d x y -> reach d y z -> reach d x z.
Proof.
  induction 1 as [x | x w y He _ IH]; intros H; [exact H|].
  apply reach_step with w; [exact He | apply IH, H].
Qed.

Lemma reach_sym (d : nx.DiGraph) (x y : Z) :
  symmetric d -> reach d x y -> reach d y x.
Proof.
  intros Hs. induction 1 as [x | x w y He _ IH]; [apply reach_refl|].
  apply reach_trans with w; [exact IH|].
  apply reach_step with x; [apply Hs, He | apply reach_refl].
Qed.

Lemma down_reach (d : nx.DiGraph) (l : list Z) (x y : Z) :
  down d l x y -> reach d x y.
Proof.
  induction 1 as [x | x z y He _ _ IH]; [apply reach_refl|].
  apply reach_step with z; assumption.
Qed.

(** A set of nodes that contains the successors of its members contains
    whatever is reachable from them. *)
Lemma reach_closed (d : nx.DiGraph) (s : list Z) (x y : Z) :
  (forall a b, In a s -> edge d a b -> In b s) ->
  In x s -> reach d x y -> In y s.
Proof.
  intros Hc Hx H. induction H as [x | x z y He _ IH]; [exact Hx|].
  apply IH. apply (Hc x z Hx He).
Qed.

Lemma succ_of_In_keys (d : nx.DiGraph) (x y : Z) :
  edge d x y -> In x (map fst d).
Proof.
  unfold edge, nx.succ_of. induction d as [|[k s] d IH]; simpl; [intros []|].
  destruct (Z.eqb x k) eqn:E.
  - apply Z.eqb_eq in E. subst. intros _. left. reflexivity.
  - intros H. right. apply IH, H.
Qed.

Lemma dict_get_In_keys {A} (k : Z) (d : list (Z * A)) (a : A) :
  dict_get k d = Some a -> In k (map fst d).
Proof.
  induction d as [|[k' a'] d IH]; simpl; [discriminate|].
  destruct (Z.eqb k k') eqn:E.
  - apply Z.eqb_eq in E. subst. intros _. left. reflexivity.
  - intros H. right. apply IH, H.
Qed.

Lemma In_keys_dict_get {A} (k : Z) (d : list (Z * A)) :
  In k (map fst d) -> exists a, dict_get k d = Some a.
Proof.
  induction d as [|[k' a'] d IH]; simpl; [intros []|].
  destruct (Z.eqb k k') eqn:E.
  - intros _. exists a'. reflexivity.
  - intros [H | H]; [subst; rewrite Z.eqb_refl in E; discriminate|].
    apply IH, H.
Qed.

Lemma dict_get_In {A} (k : Z) (d : list (Z * A)) (a : A) :
  dict_get k d = Some a -> In (k, a) d.
Proof.
  induction d as [|[k' a'] d IH]; simpl; [discriminate|].
  destruct (Z.eqb k k') eqn:E.
  - apply Z.eqb_eq in E. subst. intros H. inversion H. left. reflexivity.
  - intros H. right. apply IH, H.
Qed.

Lemma In_dict_get {A} (k : Z) (d : list (Z * A)) (a : A) :
  NoDup (map fst d) -> In (k, a) d -> dict_get k d = Some a.
Proof.
  induction d as [|[k' a'] d IH]; simpl; [intros _ []|].
  intros Hnd [H | H].
  - inversion H. subst. rewrite Z.eqb_refl. reflexivity.
  - inversion Hnd as [|? ? Hn Hnd']. subst.
    destruct (Z.eqb k k') eqn:E.
    + apply Z.eqb_eq in E. subst. exfalso. apply Hn.
      apply in_map_iff. exists (k', a). auto.
    + apply IH; assumption.
Qed.

(** *** The traversal from a source *)

(** The whole of a traversal that starts with nothing discovered: the nodes
    emitted are distinct, are exactly those reachable from the source, the
    source comes last, and they come in blocks. *)
Lemma dfs_from_source (d : nx.DiGraph) (source : Z) :
  succ_closed d -> In source (map fst d) ->
  exists vis' new0,
    nx.dfs_visit (length d) d source ([source], []) = Ok (vis', new0 ++ [source])
    /\ NoDup (new0 ++ [source])
    /\ (forall x, In x (new0 ++ [source]) <-> reach d source x)
    /\ (forall x, In x new0 -> In x (map fst d))
    /\ blocks_ok d [] (new0 ++ [source]).
Proof.
  intros Hsc Hs.
  destruct (dfs_visit_spec d Hsc (length d) source [] []) as
      [vis' [new0 [E [Hv [Hnd [Hnew [Hcl [Hdn Hb]]]]]]]].
  - exact Hs.
  - intros [].
  - intros y z [].
  - pose proof (unvisited_cons d [] source Hs (fun H => H)) as H.
    assert (length (unvisited d []) <= length d)%nat.
    { unfold unvisited. rewrite <- (length_map fst d). apply filter_length_le. }
    lia.
  - exists vis', new0. simpl in E. split; [exact E|]. split; [exact Hnd|].
    split; [|split; [intros x Hx; apply Hnew, Hx | exact Hb]].
    intros x. split.
    + intros Hx. apply in_app_or in Hx. destruct Hx as [Hx | [<- | []]].
      * apply down_reach with (new0 ++ [source]). apply Hdn, Hx.
      * apply reach_refl.
    + intros Hr. apply (reach_closed d (new0 ++ [source]) source x).
      * intros a b Ha He. simpl in Hcl. specialize (Hcl a b Ha He).
        apply Hv in Hcl. destruct Hcl as [-> | [[] | Hb']].
        -- apply in_or_app. right. left. reflexivity.
        -- apply in_or_app. left. exact Hb'.
      * apply in_or_app. right. left. reflexivity.
      * exact Hr.
Qed.

(** ** Well-formed graphs and their directed copies *)

Lemma nodupb_NoDup (l : list Z) : nodupb l = true <-> NoDup l.
Proof.
  induction l as [|x l IH]; simpl.
  - split; [constructor | reflexivity].
  - rewrite andb_true_iff, negb_true_iff, memZ_not_In, IH. split.
    + intros [H1 H2]. constructor; assumption.
    + intros H. inversion H. auto.
Qed.

Lemma to_directed_keys (g : nx.Graph) : map fst (nx.to_directed g) = nx.nodes g.
Proof.
  unfold nx.to_directed, nx.nodes. rewrite map_map. simpl. reflexivity.
Qed.

Lemma to_directed_get (g : nx.Graph) (x : Z) :
  dict_get x (nx.to_directed g)
  = match dict_get x g with Some nbrs => Some (map fst nbrs) | None => None end.
Proof.
  induction g as [|[k nbrs] g IH]; simpl; [reflexivity|].
  destruct (Z.eqb x k); [reflexivity | exact IH].
Qed.

Lemma to_directed_succ (g : nx.Graph) (x : Z) :
  nx.succ_of (nx.to_directed g) x
  = match dict_get x g with Some nbrs => map fst nbrs | None => [] end.
Proof.
  unfold nx.succ_of. rewrite to_directed_get. destruct (dict_get x g); reflexivity.
Qed.

Lemma edge_has_edge (g : nx.Graph) (x y : Z) :
  edge (nx.to_directed g) x y <-> nx.has_edge g x y = true.
Proof.
  unfold edge, nx.has_edge. rewrite to_directed_succ.
  destruct (dict_get x g) as [nbrs|]; [|split; [intros [] | discriminate]].
  rewrite dict_has_get. split.
  - apply In_keys_dict_get.
  - intros [a H]. apply dict_get_In_keys in H. exact H.
Qed.

Lemma edge_get_edge_data (g : nx.Graph) (x y : Z) :
  edge (nx.to_directed g) x y <-> exists w, nx.get_edge_data g x y = Some w.
Proof.
  rewrite edge_has_edge. unfold nx.has_edge, nx.get_edge_data.
  destruct (dict_get x g) as [nbrs|].
  - apply dict_has_get.
  - split; [discriminate | intros [w H]; discriminate].
Qed.

(** What [wf_graphb] checks, as propositions. *)
Record wf_graph (g : nx.Graph) : Prop := {
  wf_nodes : NoDup (nx.nodes g);
  wf_nbrs : forall x nbrs, dict_get x g = Some nbrs -> NoDup (map fst nbrs);
  wf_closed : succ_closed (nx.to_directed g);
  wf_sym : forall x y w,
      nx.get_edge_data g x y = Some w -> nx.get_edge_data g y x = Some w
}.

Lemma wf_graphb_wf (g : nx.Graph) : wf_graphb g = true -> wf_graph g.
Proof.
  unfold wf_graphb. rewrite andb_true_iff, forallb_forall.
  intros [Hn Hall]. apply nodupb_NoDup in Hn.
  assert (Hent : forall x nbrs y w,
             dict_get x g = Some nbrs -> In (y, w) nbrs ->
             NoDup (map fst nbrs) /\ In y (nx.nodes g)
             /\ nx.get_edge_data g y x = Some w).
  { intros x nbrs y w Hx Hy. apply dict_get_In in Hx.
    specialize (Hall (x, nbrs) Hx). simpl in Hall.
    apply andb_true_iff in Hall. destruct Hall as [H1 H2].
    apply nodupb_NoDup in H1. split; [exact H1|].
    rewrite forallb_forall in H2. specialize (H2 (y, w) Hy). simpl in H2.
    apply andb_true_iff in H2. destruct H2 as [H2 H3].
    apply memZ_In in H2. split; [exact H2|].
    destruct (nx.get_edge_data g y x) as [w'|]; [|discriminate].
    destruct w' as [a|], w as [b|]; try discriminate.
    - apply Z.eqb_eq in H3. subst. reflexivity.
    - reflexivity. }
  constructor.
  - exact Hn.
  - intros x nbrs Hx. destruct nbrs as [|[y w] nbrs']; [constructor|].
    apply (Hent x _ y w Hx). left. reflexivity.
  - intros x y He. rewrite to_directed_keys.
    unfold edge in He. rewrite to_directed_succ in He.
    destruct (dict_get x g) as [nbrs|] eqn:Hx; [|destruct He].
    apply in_map_iff in He. destruct He as [[y' w] [E Hy]]. simpl in E. subst.
    apply (Hent x nbrs y w Hx Hy).
  - intros x y w H. unfold nx.get_edge_data in H.
    destruct (dict_get x g) as [nbrs|] eqn:Hx; [|discriminate].
    apply dict_get_In in H. apply (Hent x nbrs y w Hx H).
Qed.

Lemma wf_symmetric (g : nx.Graph) :
  wf_graph g -> symmetric (nx.to_directed g).
Proof.
  intros Hwf x y He. apply edge_get_edge_data in He. destruct He as [w He].
  apply edge_get_edge_data. exists w. apply (wf_sym g Hwf), He.
Qed.

Lemma wf_succ_NoDup (g : nx.Graph) (x : Z) :
  wf_graph g -> NoDup (nx.succ_of (nx.to_directed g) x).
Proof.
  intros Hwf. rewrite to_directed_succ.
  destruct (dict_get x g) as [nbrs|] eqn:Hx; [|constructor].
  apply (wf_nbrs g Hwf x nbrs Hx).
Qed.

(** *** Connectivity *)

(** What [nx.is_connected] establishes: every node is reachable from
    every node. *)
Lemma is_connected_reach (g : nx.Graph) :
  wf_graph g -> nx.is_connected g = Ok true ->
  forall x y, In x (nx.nodes g) -> In y (nx.nodes g) ->
              reach (nx.to_directed g) x y.
Proof.
  intros Hwf Hc.
  assert (H0 : exists n0, In n0 (nx.nodes g)
                          /\ forall y, In y (nx.nodes g) ->
                                       reach (nx.to_directed g) n0 y).
  { unfold nx.is_connected in Hc. destruct g as [|[n0 nbrs0] g'] eqn:Eg;
      [discriminate|]. rewrite <- Eg in *.
    assert (Hn0 : In n0 (nx.nodes g)) by (rewrite Eg; left; reflexivity).
    exists n0. split; [exact Hn0|].
    destruct (dfs_from_source (nx.to_directed g) n0 (wf_closed g Hwf)) as
        [vis' [new0 [E [Hnd [Hr [Hk Hb]]]]]].
    { rewrite to_directed_keys. exact Hn0. }
    assert (El : length (nx.to_directed g) = length g).
    { unfold nx.to_directed. apply length_map. }
    rewrite El in E. rewrite E in Hc. simpl in Hc.
    inversion Hc as [Hlen]. apply Nat.eqb_eq in Hlen.
    assert (Hincl : incl (nx.nodes g) (new0 ++ [n0])).
    { apply NoDup_length_incl.
      - exact Hnd.
      - unfold nx.nodes. rewrite length_map. lia.
      - intros z Hz. apply in_app_or in Hz. destruct Hz as [Hz | [<- | []]].
        + rewrite <- to_directed_keys. apply Hk, Hz.
        + exact Hn0. }
    intros y Hy. apply Hr. apply Hincl, Hy. }
  destruct H0 as [n0 [Hn0 Hall]]. intros x y Hx Hy.
  apply reach_trans with n0.
  - apply reach_sym; [apply wf_symmetric, Hwf | apply Hall, Hx].
  - apply Hall, Hy.
Qed.

(** ** Ranking and pruning *)

Lemma dict_get_set {A} (k k' : Z) (a : A) (d : list (Z * A)) :
  dict_get k (dict_set k' a d)
  = if Z.eqb k k' then Some a else dict_get k d.
Proof.
  induction d as [|[k0 a0] d IH]; simpl.
  - destruct (Z.eqb k k'); reflexivity.
  - destruct (Z.eqb k' k0) eqn:E0; simpl.
    + apply Z.eqb_eq in E0. subst.
      destruct (Z.eqb k k0); reflexivity.
    + destruct (Z.eqb k k0) eqn:E1.
      * apply Z.eqb_eq in E1. subst.
        rewrite Z.eqb_sym, E0. reflexivity.
      * exact IH.
Qed.

Lemma dict_set_fresh {A} (k : Z) (a : A) (d : list (Z * A)) :
  ~ In k (map fst d) -> dict_set k a d = d ++ [(k, a)].
Proof.
  induction d as [|[k0 a0] d IH]; simpl; intros H; [reflexivity|].
  destruct (Z.eqb k k0) eqn:E.
  - apply Z.eqb_eq in E. subst. exfalso. apply H. left. reflexivity.
  - rewrite IH; [reflexivity|]. intros Hin. apply H. right. exact Hin.
Qed.

Lemma dict_has_In {A} (k : Z) (d : list (Z * A)) :
  dict_has k d = memZ k (map fst d).
Proof.
  destruct (memZ k (map fst d)) eqn:E.
  - apply memZ_In in E. apply dict_has_get. apply In_keys_dict_get, E.
  - apply memZ_not_In in E. destruct (dict_has k d) eqn:H; [|reflexivity].
    apply dict_has_get in H. destruct H as [a H].
    apply dict_get_In_keys in H. contradiction.
Qed.

Lemma map_fst_ranks_from (i : Z) (l : list Z) : map fst (ranks_from i l) = l.
Proof.
  revert i. induction l as [|x l IH]; intros i; simpl; [reflexivity|].
  rewrite IH. reflexivity.
Qed.

Lemma ranks_from_get (l pre post : list Z) (x i : Z) :
  l = pre ++ x :: post -> ~ In x pre ->
  dict_get x (ranks_from i l) = Some (i + Z.of_nat (length pre)).
Proof.
  intros ->. revert i. induction pre as [|p pre IH]; intros i Hn; simpl.
  - rewrite Z.eqb_refl. f_equal. lia.
  - destruct (Z.eqb x p) eqn:E.
    + apply Z.eqb_eq in E. subst. exfalso. apply Hn. left. reflexivity.
    + rewrite IH; [f_equal; lia|]. intros H. apply Hn. right. exact H.
Qed.

Lemma remove_edge_keys (d : nx.DiGraph) (e : Z * Z) :
  map fst (nx.remove_edge d e) = map fst d.
Proof.
  unfold nx.remove_edge. rewrite map_map. apply map_ext.
  intros [k s]. simpl. destruct (Z.eqb k (fst e)); reflexivity.
Qed.

Lemma remove_edge_succ (d : nx.DiGraph) (e : Z * Z) (x : Z) :
  nx.succ_of (nx.remove_edge d e) x
  = if Z.eqb x (fst e)
    then filter (fun c => negb (Z.eqb c (snd e))) (nx.succ_of d x)
    else nx.succ_of d x.
Proof.
  unfold nx.succ_of, nx.remove_edge.
  induction d as [|[k s] d IH]; simpl.
  - destruct (Z.eqb x (fst e)); reflexivity.
  - destruct (Z.eqb x k) eqn:E.
    + apply Z.eqb_eq in E. subst.
      destruct (Z.eqb k (fst e)) eqn:E1; simpl; rewrite Z.eqb_refl; reflexivity.
    + destruct (Z.eqb k (fst e)) eqn:E1; simpl; rewrite E; exact IH.
Qed.

Lemma filter_twice {A} (f g : A -> bool) (l : list A) :
  filter f (filter g l) = filter (fun x => g x && f x) l.
Proof.
  induction l as [|a l IH]; simpl; [reflexivity|].
  destruct (g a); simpl; [|exact IH].
  destruct (f a); rewrite IH; reflexivity.
Qed.

Lemma remove_edges_from_keys (es : list (Z * Z)) (d : nx.DiGraph) :
  map fst (nx.remove_edges_from d es) = map fst d.
Proof.
  unfold nx.remove_edges_from. revert d.
  induction es as [|e es IH]; intros d; simpl; [reflexivity|].
  rewrite IH. apply remove_edge_keys.
Qed.

Lemma remove_edges_from_succ (node : Z) (cs : list Z) (d : nx.DiGraph) (x : Z) :
  nx.succ_of (nx.remove_edges_from d (map (fun c => (node, c)) cs)) x
  = if Z.eqb x node
    then filter (fun c => negb (memZ c cs)) (nx.succ_of d x)
    else nx.succ_of d x.
Proof.
  unfold nx.remove_edges_from. revert d.
  induction cs as [|c cs IH]; intros d; simpl.
  - destruct (Z.eqb x node); [|reflexivity].
    symmetry. apply forallb_filter_id. apply forallb_forall. reflexivity.
  - rewrite IH. rewrite remove_edge_succ. simpl.
    destruct (Z.eqb x node); [|reflexivity].
    rewrite filter_twice. apply filter_ext. intros a.
    rewrite (Z.eqb_sym a c). destruct (Z.eqb c a); reflexivity.
Qed.

Lemma successors_succ_of (d : nx.DiGraph) (x : Z) :
  In x (map fst d) -> nx.successors d x = Ok (nx.succ_of d x).
Proof.
  intros H. apply In_keys_dict_get in H. destruct H as [s H].
  unfold nx.successors, nx.succ_of. rewrite H. reflexivity.
Qed.

Lemma set_directed_twice (d1 d2 : nx.DiGraph) (s : Substitute) :
  set_directed d2 (set_directed d1 s) = set_directed d2 s.
Proof. reflexivity. Qed.

Lemma set_directed_same (s : Substitute) : set_directed (directed s) s = s.
Proof. destruct s. reflexivity. Qed.

(** The first loop of [postorder_tree] on distinct nodes of the directed
    copy: the nodes get consecutive ranks, and a node of the list keeps the
    successors that are ranked when its round comes, itself included. *)
Lemma rank_loop_spec (nodes : list Z) :
  forall i po s,
    NoDup nodes ->
    (forall x, In x nodes -> ~ In x (map fst po)) ->
    (forall x, In x nodes -> In x (map fst (directed s))) ->
    exists d',
      rank_loop nodes i po s = Ok (po ++ ranks_from i nodes, set_directed d' s)
      /\ map fst d' = map fst (directed s)
      /\ forall a,
          nx.succ_of d' a
          = if memZ a nodes
            then filter (fun b => memZ b (map fst po ++ upto nodes a))
                        (nx.succ_of (directed s) a)
            else nx.succ_of (directed s) a.
Proof.
  induction nodes as [|x nodes IH]; intros i po s Hnd Hpo Hk.
  - exists (directed s). simpl. rewrite app_nil_r, set_directed_same.
    split; [reflexivity|]. split; reflexivity.
  - inversion Hnd as [|? ? Hx Hnd']. subst.
    assert (Hxpo : ~ In x (map fst po)) by (apply Hpo; left; reflexivity).
    assert (Hxk : In x (map fst (directed s))) by (apply Hk; left; reflexivity).
    simpl. unfold bind at 1. unfold gets at 1.
    unfold bind at 1. rewrite (successors_succ_of _ _ Hxk). unfold lift at 1.
    unfold bind at 1. unfold modify at 1.
    rewrite (dict_set_fresh x i po Hxpo).
    set (po' := po ++ [(x, i)]).
    set (cs := filter (fun neighbor => negb (dict_has neighbor po'))
                      (nx.succ_of (directed s) x)).
    set (d1 := nx.remove_edges_from (directed s)
                                    (map (fun neighbor => (x, neighbor)) cs)).
    destruct (IH (i + 1) po' (set_directed d1 s) Hnd') as [d' [E [Hkeys Hsucc]]].
    + intros y Hy. unfold po'. rewrite map_app, in_app_iff. simpl.
      intros [H | [H | []]]; [apply (Hpo y (or_intror Hy) H)|].
      subst. contradiction.
    + intros y Hy. simpl. unfold d1. rewrite remove_edges_from_keys.
      apply Hk. right. exact Hy.
    + exists d'. rewrite E. rewrite set_directed_twice.
      split.
      { unfold po'. rewrite <- app_assoc. reflexivity. }
      split.
      { rewrite Hkeys. simpl. unfold d1. apply remove_edges_from_keys. }
      intros a. rewrite Hsucc. simpl directed. unfold d1.
      rewrite remove_edges_from_succ. simpl memZ. simpl upto.
      destruct (Z.eqb a x) eqn:Eax.
      * apply Z.eqb_eq in Eax. subst a. rewrite Z.eqb_refl. simpl.
        assert (Hm : memZ x nodes = false) by (apply memZ_not_In; exact Hx).
        rewrite Hm. unfold cs. 
        assert (Hf : forall l : list Z,
                   filter (fun c => negb (memZ c (filter (fun n => negb (dict_has n po')) l))) l
                   = filter (fun b => memZ b (map fst po ++ [x])) l).
        { assert (Hdh : forall n, dict_has n po' = memZ n (map fst po ++ [x])).
          { intros n. unfold po'. rewrite dict_has_In, map_app. reflexivity. }
          intros l. apply filter_ext_in. intros b Hb.
          destruct (memZ b (map fst po ++ [x])) eqn:Eb.
          - apply negb_true_iff, memZ_not_In. intros Hin.
            apply filter_In in Hin. destruct Hin as [_ Hin].
            rewrite Hdh, Eb in Hin. discriminate.
          - apply negb_false_iff, memZ_In. apply filter_In.
            split; [exact Hb|]. rewrite Hdh, Eb. reflexivity. }
        apply Hf.
      * rewrite (Z.eqb_sym x a), Eax. simpl.
        destruct (memZ a nodes); [|reflexivity].
        apply filter_ext. intros b. unfold po'. rewrite map_app. simpl.
        rewrite <- app_assoc. reflexivity.
Qed.

(** ** Sorting *)

Lemma insert_sorted_perm (x : Z) (l : list Z) :
  Permutation (insert_sorted x l) (x :: l).
Proof.
  induction l as [|y l IH]; simpl; [apply Permutation_refl|].
  destruct (Z.leb x y); [apply Permutation_refl|].
  apply Permutation_trans with (y :: x :: l);
    [apply perm_skip, IH | apply perm_swap].
Qed.

Lemma sort_Z_perm (l : list Z) : Permutation (sort_Z l) l.
Proof.
  induction l as [|x l IH]; simpl; [apply perm_nil|].
  apply Permutation_trans with (x :: sort_Z l);
    [apply insert_sorted_perm | apply perm_skip, IH].
Qed.

Lemma insert_sorted_ascending (x : Z) (l : list Z) :
  ascending l -> ascending (insert_sorted x l).
Proof.
  induction 1 as [|y l Hl IH Hy]; simpl.
  - constructor; [constructor | intros y []].
  - destruct (Z.leb x y) eqn:E.
    + apply Z.leb_le in E. constructor.
      * constructor; assumption.
      * intros z [<- | Hz]; [exact E|]. specialize (Hy z Hz). lia.
    + apply Z.leb_gt in E. constructor; [exact IH|].
      intros z Hz.
      apply (Permutation_in z (insert_sorted_perm x l)) in Hz.
      destruct Hz as [<- | Hz]; [lia | apply Hy, Hz].
Qed.

Lemma sort_Z_ascending (l : list Z) : ascending (sort_Z l).
Proof.
  induction l as [|x l IH]; simpl; [constructor|].
  apply insert_sorted_ascending, IH.
Qed.

Lemma ascending_perm_eq (l1 : list Z) :
  forall l2, ascending l1 -> ascending l2 -> Permutation l1 l2 -> l1 = l2.
Proof.
  induction l1 as [|a l1 IH]; intros l2 H1 H2 Hp.
  - apply Permutation_nil in Hp. subst. reflexivity.
  - destruct l2 as [|b l2].
    + apply Permutation_sym, Permutation_nil in Hp. discriminate.
    + inversion H1 as [|? ? Ha1 Ha2]. inversion H2 as [|? ? Hb1 Hb2]. subst.
      assert (Hab : a = b).
      { assert (Hin1 : In a (b :: l2)).
        { apply (Permutation_in a Hp). left. reflexivity. }
        assert (Hin2 : In b (a :: l1)).
        { apply (Permutation_in b (Permutation_sym Hp)). left. reflexivity. }
        destruct Hin1 as [E | Hin1]; [auto|].
        destruct Hin2 as [E | Hin2]; [auto|].
        specialize (Ha2 b Hin2). specialize (Hb2 a Hin1). lia. }
      subst b. f_equal. apply IH; try assumption.
      apply Permutation_cons_inv with a. exact Hp.
Qed.

Lemma sort_Z_unique (l l' : list Z) :
  Permutation l l' -> ascending l' -> sort_Z l = l'.
Proof.
  intros Hp Ha. apply ascending_perm_eq.
  - apply sort_Z_ascending.
  - exact Ha.
  - apply Permutation_trans with l; [apply sort_Z_perm | exact Hp].
Qed.

Lemma range_In (n : nat) : forall lo x,
    In x (range lo n) <-> lo <= x < lo + Z.of_nat n.
Proof.
  induction n as [|n IH]; intros lo x; simpl.
  - split; [intros [] | lia].
  - rewrite IH. lia.
Qed.

Lemma range_ascending (n : nat) : forall lo, ascending (range lo n).
Proof.
  induction n as [|n IH]; intros lo; simpl; constructor.
  - apply IH.
  - intros y Hy. apply range_In in Hy. lia.
Qed.

Lemma range_app (n m : nat) : forall lo,
    range lo (n + m) = range lo n ++ range (lo + Z.of_nat n) m.
Proof.
  induction n as [|n IH]; intros lo; simpl.
  - f_equal. lia.
  - rewrite IH. do 3 f_equal. lia.
Qed.

Lemma range_last (n : nat) (lo : Z) :
  last (range lo (S n)) 0 = lo + Z.of_nat n.
Proof.
  revert lo. induction n as [|n IH]; intros lo.
  - simpl. lia.
  - change (range lo (S (S n))) with (lo :: range (lo + 1) (S n)).
    change (last (lo :: range (lo + 1) (S n)) 0)
      with (last (range (lo + 1) (S n)) 0).
    rewrite IH. lia.
Qed.

(** ** The nodes up to a node *)

Lemma upto_split (pre post : list Z) (a : Z) :
  ~ In a pre -> upto (pre ++ a :: post) a = pre ++ [a].
Proof.
  induction pre as [|p pre IH]; intros H; simpl.
  - rewrite Z.eqb_refl. reflexivity.
  - destruct (Z.eqb p a) eqn:E.
    + apply Z.eqb_eq in E. subst. exfalso. apply H. left. reflexivity.
    + rewrite IH; [reflexivity|]. intros Hin. apply H. right. exact Hin.
Qed.

Lemma before_upto (l : list Z) (a b : Z) :
  NoDup l -> before l b a -> In b (upto l a).
Proof.
  intros Hnd [l1 [l2 [l3 E]]]. subst l.
  assert (Hs : upto (l1 ++ b :: l2 ++ a :: l3) a = (l1 ++ b :: l2) ++ [a]).
  { replace (l1 ++ b :: l2 ++ a :: l3) with ((l1 ++ b :: l2) ++ a :: l3)
      by (rewrite <- app_assoc; reflexivity).
    apply upto_split.
    replace (l1 ++ b :: l2 ++ a :: l3) with ((l1 ++ b :: l2) ++ a :: l3) in Hnd
      by (rewrite <- app_assoc; reflexivity).
    apply NoDup_remove_2 in Hnd. intros H. apply Hnd.
    apply in_or_app. left. exact H. }
  rewrite Hs. apply in_or_app. left. apply in_or_app. right. left. reflexivity.
Qed.

(** ** The descendants in the pruned graph *)

Section Pruned.

Variable d0 : nx.DiGraph.
Variable l : list Z.
Variable d' : nx.DiGraph.

Hypothesis Hsym : symmetric d0.
Hypothesis Hnd : NoDup l.
Hypothesis Hblocks : blocks_ok d0 [] l.
Hypothesis Hpruned :
  forall a, In a l ->
            nx.succ_of d' a
            = filter (fun b => memZ b (upto l a)) (nx.succ_of d0 a).

Lemma pruned_edge (a b : Z) :
  In a l -> (edge d' a b <-> edge d0 a b /\ In b (upto l a)).
Proof.
  intros Ha. unfold edge. rewrite (Hpruned a Ha), filter_In, memZ_In. tauto.
Qed.

Lemma block_reach (x : Z) (pre blk0 post : list Z) :
  l = pre ++ blk0 ++ x :: post ->
  (forall y, In y blk0 -> down d0 (blk0 ++ [x]) x y) ->
  (forall z y, In z (blk0 ++ [x]) -> In y ([] ++ pre) -> ~ edge d0 y z) ->
  forall y, reach d' x y <-> In y (blk0 ++ [x]).
Proof.
  intros El Hdown Hno y.
  assert (Hblk : forall z, In z (blk0 ++ [x]) -> In z l).
  { intros z Hz. rewrite El. apply in_or_app. right.
    apply in_app_or in Hz. destruct Hz as [Hz | [<- | []]].
    - apply in_or_app. left. exact Hz.
    - apply in_or_app. right. left. reflexivity. }
  split.
  - assert (Hgen : forall z, reach d' z y -> In z (blk0 ++ [x]) -> In y (blk0 ++ [x])).
    { intros z Hr. induction Hr as [z | z w y He _ IH]; intros Hz; [exact Hz|].
      apply IH. apply (pruned_edge z w (Hblk z Hz)) in He.
      destruct He as [He Hw].
      assert (Hsub : In w pre \/ In w (blk0 ++ [x])).
      { assert (Hz' := Hz). apply in_split in Hz'.
        destruct Hz' as [b1 [b2 Eb]].
        assert (El' : l = (pre ++ b1) ++ z :: (b2 ++ post)).
        { rewrite El.
          replace (blk0 ++ x :: post) with ((blk0 ++ [x]) ++ post)
            by (rewrite <- app_assoc; reflexivity).
          rewrite Eb. rewrite <- !app_assoc. reflexivity. }
        rewrite El' in Hw. rewrite upto_split in Hw.
        - rewrite <- app_assoc in Hw. apply in_app_or in Hw.
          destruct Hw as [Hw | Hw]; [left; exact Hw|].
          right. rewrite Eb. apply in_app_or in Hw.
          destruct Hw as [Hw | [<- | []]].
          + apply in_or_app. left. exact Hw.
          + apply in_or_app. right. left. reflexivity.
        - rewrite El' in Hnd. apply NoDup_remove_2 in Hnd.
          intros H. apply Hnd. apply in_or_app. left. exact H. }
      destruct Hsub as [Hpre | Hin]; [|exact Hin].
      exfalso. apply (Hno z w Hz); [exact Hpre | apply Hsym, He]. }
    intros Hr. apply (Hgen x Hr). apply in_or_app. right. left. reflexivity.
  - intros Hy. apply in_app_or in Hy. destruct Hy as [Hy | [<- | []]];
      [|apply reach_refl].
    specialize (Hdown y Hy).
    assert (Hbl : forall a b, before (blk0 ++ [x]) b a -> before l b a).
    { intros a b Hb. rewrite El.
      replace (blk0 ++ x :: post) with ((blk0 ++ [x]) ++ post)
        by (rewrite <- app_assoc; reflexivity).
      apply before_app_l. exact Hb. }
    induction Hdown as [a | a b c He Hb _ IH]; [apply reach_refl|].
    apply reach_step with b; [|apply IH, Hy].
    assert (Ha : In a l).
    { apply Hblk. destruct Hb as [l1 [l2 [l3 E]]]. rewrite E.
      apply in_or_app. right. right. apply in_or_app. right. left. reflexivity. }
    apply (pruned_edge a b Ha). split; [exact He|].
    apply before_upto; [exact Hnd | apply Hbl, Hb].
Qed.

End Pruned.

(** ** The descendant sets *)

Lemma rank_all_ok (po : list (Z * Z)) (cs : list Z) :
  (forall y, In y cs -> In y (map fst po)) ->
  rank_all po cs = Ok (map (rank_of po) cs).
Proof.
  induction cs as [|c cs IH]; intros H; simpl; [reflexivity|].
  assert (Hc : In c (map fst po)) by (apply H; left; reflexivity).
  apply In_keys_dict_get in Hc. destruct Hc as [r Hr].
  unfold dict_item, rank_of. rewrite Hr. simpl.
  rewrite IH; [reflexivity|]. intros y Hy. apply H. right. exact Hy.
Qed.

Lemma dict_item_rank_of (po : list (Z * Z)) (x : Z) :
  In x (map fst po) -> dict_item x po = Ok (rank_of po x).
Proof.
  intros H. apply In_keys_dict_get in H. destruct H as [r Hr].
  unfold dict_item, rank_of. rewrite Hr. reflexivity.
Qed.

Lemma ranks_consecutive (mid : list Z) :
  forall pre post i,
    NoDup (pre ++ mid ++ post) ->
    map (rank_of (ranks_from i (pre ++ mid ++ post))) mid
    = range (i + Z.of_nat (length pre)) (length mid).
Proof.
  induction mid as [|m mid IH]; intros pre post i Hnd; simpl in *; [reflexivity|].
  f_equal.
  - unfold rank_of.
    rewrite (ranks_from_get (pre ++ m :: mid ++ post) pre (mid ++ post) m i eq_refl).
    + reflexivity.
    + apply NoDup_remove_2 in Hnd. intros H. apply Hnd.
      apply in_or_app. left. exact H.
  - assert (E : pre ++ m :: mid ++ post = (pre ++ [m]) ++ mid ++ post).
    { rewrite <- app_assoc. reflexivity. }
    rewrite E. rewrite E in Hnd. rewrite (IH (pre ++ [m]) post i Hnd).
    rewrite length_app. simpl. f_equal. lia.
Qed.

Lemma descendants_loop_spec (d : nx.DiGraph) (po : list (Z * Z))
      (P : Z -> list Z -> Prop) (keys : list Z) :
  (forall x, In x keys ->
             exists r cs rs,
               dict_item x po = Ok r /\ nx.descendants d x = Ok cs
               /\ rank_all po cs = Ok rs /\ P x (sort_Z (r :: rs))) ->
  forall acc,
  exists ds,
    descendants_loop d po keys acc = Ok ds
    /\ (forall x, In x keys -> exists v, dict_get x ds = Some v /\ P x v)
    /\ (forall x, ~ In x keys -> dict_get x ds = dict_get x acc).
Proof.
  induction keys as [|k keys IH]; intros H acc.
  - exists acc. simpl. split; [reflexivity|]. split; [intros x []|reflexivity].
  - destruct (H k (or_introl eq_refl)) as [r [cs [rs [H1 [H2 [H3 H4]]]]]].
    cbn [descendants_loop]. rewrite H1. cbn [rbind]. rewrite H2.
    cbn [rbind]. rewrite H3. cbn [rbind].
    destruct (IH (fun x Hx => H x (or_intror Hx))
                 (dict_set k (sort_Z (r :: rs)) acc))
      as [ds [E [Hin Hout]]].
    exists ds. split; [exact E|]. split.
    + intros x [<- | Hx].
      * destruct (in_dec Z.eq_dec k keys) as [Hk | Hk]; [apply Hin, Hk|].
        exists (sort_Z (r :: rs)).
        rewrite (Hout k Hk), dict_get_set, Z.eqb_refl. split; [reflexivity|].
        exact H4.
      * apply Hin, Hx.
    + intros x Hx. rewrite Hout.
      * rewrite dict_get_set. destruct (Z.eqb x k) eqn:E'; [|reflexivity].
        apply Z.eqb_eq in E'. subst. exfalso. apply Hx. left. reflexivity.
      * intros Hin'. apply Hx. right. exact Hin'.
Qed.

Lemma filter_not_last (new0 : list Z) (x : Z) :
  NoDup (new0 ++ [x]) ->
  filter (fun c => negb (Z.eqb c x)) (new0 ++ [x]) = new0.
Proof.
  intros Hnd. rewrite filter_app. simpl. rewrite Z.eqb_refl. simpl.
  rewrite app_nil_r. apply forallb_filter_id. apply forallb_forall.
  intros y Hy. apply negb_true_iff. apply Z.eqb_neq. intros ->.
  apply NoDup_remove_2 in Hnd. apply Hnd. rewrite app_nil_r. exact Hy.
Qed.

Section Descendants.

Variable t : nx.Graph.
Variable l : list Z.
Variable d' : nx.DiGraph.

Hypothesis Hwf : wf_graph t.
Hypothesis Hnd : NoDup l.
Hypothesis Hnodes : forall x, In x l <-> In x (nx.nodes t).
Hypothesis Hblocks : blocks_ok (nx.to_directed t) [] l.
Hypothesis Hkeys : map fst d' = nx.nodes t.
Hypothesis Hpruned :
  forall a, In a l ->
            nx.succ_of d' a
            = filter (fun b => memZ b (upto l a)) (nx.succ_of (nx.to_directed t) a).

Lemma pruned_succ_closed : succ_closed d'.
Proof.
  intros x y He. rewrite Hkeys.
  assert (Hx : In x l).
  { apply Hnodes. rewrite <- Hkeys. apply (succ_of_In_keys d' x y He). }
  apply (pruned_edge (nx.to_directed t) l d' Hpruned x y Hx) in He.
  destruct He as [He _]. rewrite <- to_directed_keys.
  apply (wf_closed t Hwf x y He).
Qed.

(** The descendant ranks computed for a node are the ranks of its block. *)
Lemma descendants_of_block (x : Z) (pre blk0 post : list Z) :
  l = pre ++ blk0 ++ x :: post ->
  (forall y, In y blk0 -> down (nx.to_directed t) (blk0 ++ [x]) x y) ->
  (forall z y, In z (blk0 ++ [x]) -> In y ([] ++ pre) ->
               ~ edge (nx.to_directed t) y z) ->
  exists r cs rs,
    dict_item x (ranks_from 1 l) = Ok r /\ nx.descendants d' x = Ok cs
    /\ rank_all (ranks_from 1 l) cs = Ok rs
    /\ sort_Z (r :: rs) = range (1 + Z.of_nat (length pre)) (S (length blk0)).
Proof.
  intros El Hdown Hno.
  assert (Hxl : In x l).
  { rewrite El. apply in_or_app. right. apply in_or_app. right. left. reflexivity. }
  assert (Hxk : In x (map fst d')) by (rewrite Hkeys; apply Hnodes, Hxl).
  destruct (dfs_from_source d' x pruned_succ_closed Hxk) as
      [vis' [new0 [E [Hnd0 [Hr [Hk Hb]]]]]].
  pose proof (block_reach (nx.to_directed t) l d' (wf_symmetric t Hwf) Hnd
                          Hpruned x pre blk0 post El Hdown Hno) as Hbr.
  assert (Hblk : forall z, In z (blk0 ++ [x]) -> In z l).
  { intros z Hz. rewrite El. apply in_or_app. right.
    apply in_app_or in Hz. destruct Hz as [Hz | [<- | []]].
    - apply in_or_app. left. exact Hz.
    - apply in_or_app. right. left. reflexivity. }
  exists (rank_of (ranks_from 1 l) x), new0, (map (rank_of (ranks_from 1 l)) new0).
  split; [apply dict_item_rank_of; rewrite map_fst_ranks_from; exact Hxl|].
  split.
  { unfold nx.descendants. apply In_keys_dict_get in Hxk.
    destruct Hxk as [sx Hsx]. rewrite Hsx, E. simpl.
    rewrite (filter_not_last new0 x Hnd0). reflexivity. }
  split.
  { apply rank_all_ok. intros y Hy. rewrite map_fst_ranks_from.
    apply Hblk, Hbr, Hr. apply in_or_app. left. exact Hy. }
  change (rank_of (ranks_from 1 l) x :: map (rank_of (ranks_from 1 l)) new0)
    with (map (rank_of (ranks_from 1 l)) (x :: new0)).
  apply sort_Z_unique; [|apply range_ascending].
  assert (Hp : Permutation (x :: new0) (blk0 ++ [x])).
  { apply NoDup_Permutation.
    - apply (Permutation_NoDup (l := new0 ++ [x])); [|exact Hnd0].
      apply Permutation_sym, Permutation_cons_append.
    - rewrite El in Hnd. apply NoDup_app_remove_l in Hnd.
      replace (blk0 ++ x :: post) with ((blk0 ++ [x]) ++ post) in Hnd
        by (rewrite <- app_assoc; reflexivity).
      apply NoDup_app_remove_r in Hnd. exact Hnd.
    - intros y. rewrite <- Hbr, <- Hr. rewrite in_app_iff. simpl. tauto. }
  apply (Permutation_map (rank_of (ranks_from 1 l))) in Hp.
  apply Permutation_trans with (map (rank_of (ranks_from 1 l)) (blk0 ++ [x]));
    [exact Hp|].
  assert (El' : l = pre ++ (blk0 ++ [x]) ++ post).
  { rewrite El. rewrite <- app_assoc. reflexivity. }
  rewrite El' at 1. rewrite ranks_consecutive.
  - rewrite length_app. simpl. rewrite Nat.add_1_r. apply Permutation_refl.
  - rewrite <- El'. exact Hnd.
Qed.

End Descendants.

(** ** [instantiate_substitute_variables] on a valid tree *)

Lemma postorder_tree_eq (s s1 : Substitute) (r_idx : nat) (root : Z)
      (l : list Z) (po : list (Z * Z)) (ds : list (Z * list Z)) :
  ordered s = false ->
  nth_error (nx.nodes (graph s)) r_idx = Some root ->
  nx.dfs_postorder_nodes (directed s) root = Ok l ->
  rank_loop l 1 [] s = Ok (po, s1) ->
  descendants_loop (directed s1) po (map fst po) [] = Ok ds ->
  postorder_tree r_idx s = Ok ((po, ds), s1).
Proof.
  intros Hord Hnth Hdfs Hrank Hdesc.
  unfold postorder_tree, bind, gets, random_node, bind, gets.
  rewrite Hord, Hnth. unfold ret, lift. rewrite Hdfs, Hrank, Hdesc.
  reflexivity.
Qed.

Lemma instantiate_spec (s : Substitute) (r_idx : nat) (root : Z) :
  wf_graph (tree s) ->
  nx.is_connected (tree s) = Ok true ->
  ordered s = false ->
  nth_error (nx.nodes (graph s)) r_idx = Some root ->
  In root (nx.nodes (tree s)) ->
  exists l s',
    instantiate_substitute_variables r_idx s = Ok (tt, s')
    /\ same_inputs s s'
    /\ nx.dfs_postorder_nodes (nx.to_directed (tree s)) root = Ok l
    /\ instantiated (tree s) l s'.
Proof.
  intros Hwf Hconn Hord Hnth Hroot.
  set (t := tree s) in *. set (d0 := nx.to_directed t).
  assert (Hrk : In root (map fst d0)).
  { unfold d0. rewrite to_directed_keys. exact Hroot. }
  destruct (dfs_from_source d0 root (wf_closed t Hwf) Hrk) as
      [vis' [new0 [E [Hnd [Hr [Hk Hb]]]]]].
  set (l := new0 ++ [root]) in *.
  assert (Hnodes : forall x, In x l <-> In x (nx.nodes t)).
  { intros x. split.
    - intros Hx. apply in_app_or in Hx. destruct Hx as [Hx | [<- | []]].
      + rewrite <- to_directed_keys. apply Hk, Hx.
      + exact Hroot.
    - intros Hx. apply Hr. apply (is_connected_reach t Hwf Hconn); assumption. }
  assert (Hdfs : nx.dfs_postorder_nodes d0 root = Ok l).
  { unfold nx.dfs_postorder_nodes. apply In_keys_dict_get in Hrk.
    destruct Hrk as [sx Hsx]. rewrite Hsx, E. reflexivity. }
  destruct (rank_loop_spec l 1 [] (set_directed d0 s) Hnd) as [d' [E2 [Hkeys Hsucc]]].
  { intros x _ []. }
  { intros x Hx. simpl. unfold d0. rewrite to_directed_keys. apply Hnodes, Hx. }
  simpl in E2, Hkeys, Hsucc. rewrite set_directed_twice in E2.
  assert (Hkeys' : map fst d' = nx.nodes t).
  { rewrite Hkeys. unfold d0. apply to_directed_keys. }
  assert (Hpruned : forall a, In a l ->
             nx.succ_of d' a
             = filter (fun b => memZ b (upto l a)) (nx.succ_of d0 a)).
  { intros a Ha. rewrite Hsucc. apply memZ_In in Ha. rewrite Ha. reflexivity. }
  set (P := fun (x : Z) (v : list Z) =>
              forall pre blk0 post,
                l = pre ++ blk0 ++ x :: post ->
                (forall y, In y blk0 -> down d0 (blk0 ++ [x]) x y) ->
                (forall z y, In z (blk0 ++ [x]) -> In y ([] ++ pre) ->
                             ~ edge d0 y z) ->
                v = range (1 + Z.of_nat (length pre)) (S (length blk0))).
  destruct (descendants_loop_spec d' (ranks_from 1 l) P l) with (acc := @nil (Z * list Z))
    as [ds [E3 [Hin _]]].
  { intros x Hx. destruct (Hb x Hx) as [pre [blk0 [post [El [Hdown Hno]]]]].
    destruct (descendants_of_block t l d' Hwf Hnd Hnodes Hkeys' Hpruned
                                   x pre blk0 post El Hdown Hno)
      as [r [cs [rs [H1 [H2 [H3 H4]]]]]].
    exists r, cs, rs. split; [exact H1|]. split; [exact H2|].
    split; [exact H3|].
    intros pre2 blk2 post2 El2 Hdown2 Hno2.
    destruct (descendants_of_block t l d' Hwf Hnd Hnodes Hkeys' Hpruned
                                   x pre2 blk2 post2 El2 Hdown2 Hno2)
      as [r' [cs' [rs' [H1' [H2' [H3' H4']]]]]].
    rewrite H1 in H1'. inversion H1'; subst r'.
    rewrite H2 in H2'. inversion H2'; subst cs'.
    rewrite H3 in H3'. inversion H3'; subst rs'.
    exact H4'. }
  exists l, (set_quasi_cuts [] (set_postorder (ranks_from 1 l) ds (set_directed d' s))).
  split.
  { unfold instantiate_substitute_variables, bind, gets, modify.
    fold t. fold d0.
    rewrite (postorder_tree_eq (set_directed d0 s) (set_directed d' s) r_idx root
                               l (ranks_from 1 l) ds); try assumption.
    - reflexivity.
    - simpl. rewrite map_fst_ranks_from. exact E3. }
  split; [repeat split|].
  split; [exact Hdfs|].
  constructor; simpl; try assumption; try reflexivity.
  intros x pre blk0 post El Hdown Hno.
  assert (Hx : In x l).
  { rewrite El. apply in_or_app. right. apply in_or_app. right. left. reflexivity. }
  destruct (Hin x Hx) as [v [Hv HP]]. rewrite Hv. f_equal.
  apply (HP pre blk0 post El Hdown Hno).
Qed.

(** ** What the constructor has checked *)

Lemma check_input_graph_Ok (g : nx.Graph) :
  check_input_graph g = Ok tt ->
  nx.is_connected g = Ok true /\ has_self_cycles g = false
  /\ is_weighted g = Ok true.
Proof.
  unfold check_input_graph. intros H.
  destruct (nx.is_connected g) as [[|]|]; simpl in H; try discriminate.
  destruct (has_self_cycles g); try discriminate.
  destruct (is_weighted g) as [[|]|]; simpl in H; try discriminate.
  repeat split.
Qed.

Lemma check_input_tree_Ok (t g : nx.Graph) :
  check_input_tree t g = Ok tt ->
  check_input_graph t = Ok tt
  /\ forallb (fun e => nx.has_edge g (fst e) (snd e)) (nx.edges t) = true
  /\ nx.is_tree t = Ok true.
Proof.
  unfold check_input_tree. intros H.
  destruct (check_input_graph t) as [[]|]; simpl in H; try discriminate.
  split; [reflexivity|]. unfold is_tree_of_graph in H.
  destruct (forallb _ (nx.edges t)); simpl in H; [|discriminate].
  destruct (nx.is_tree t) as [[|]|]; simpl in H; try discriminate.
  split; reflexivity.
Qed.

Lemma Substitute_init_Ok (g t : nx.Graph) (fixed restricted : list tuple)
      (ord : bool) (s : Substitute) :
  Substitute_init g t fixed restricted ord = Ok s ->
  s = {| graph := g; tree := t; fixed_edges := fixed;
         restricted_edges := restricted; ordered := ord;
         directed := []; postorder_nodes := []; descendants := [];
         quasi_cuts := [] |}
  /\ check_input_graph g = Ok tt /\ check_input_tree t g = Ok tt.
Proof.
  unfold Substitute_init. intros H.
  destruct (check_input_graph g) as [[]|]; simpl in H; try discriminate.
  destruct (check_input_tree t g) as [[]|]; simpl in H; try discriminate.
  inversion H. repeat split.
Qed.

Lemma spans_In (t g : nx.Graph) (x : Z) :
  spans t g = true -> In x (nx.nodes g) -> In x (nx.nodes t).
Proof.
  unfold spans. rewrite forallb_forall. intros H Hx.
  apply memZ_In. apply H, Hx.
Qed.

(** ** The three tests of step 2.1 on a range *)

Lemma memZ_range (k lo : Z) (n : nat) :
  memZ k (range lo n) = (lo <=? k) && (k <? lo + Z.of_nat n).
Proof.
  destruct (memZ k (range lo n)) eqn:E; symmetry.
  - apply memZ_In, range_In in E. apply andb_true_iff.
    rewrite Z.leb_le, Z.ltb_lt. exact E.
  - apply memZ_not_In in E. rewrite range_In in E.
    destruct (lo <=? k) eqn:E1; [|reflexivity].
    destruct (k <? lo + Z.of_nat n) eqn:E2; [|reflexivity].
    apply Z.leb_le in E1. apply Z.ltb_lt in E2. lia.
Qed.

Lemma step_a_range (k lo : Z) (n : nat) :
  step_a k (range lo (S n)) = Ok (k <? lo).
Proof. reflexivity. Qed.

Lemma step_c_range (k lo : Z) (n : nat) :
  step_c k (range lo (S n)) = Ok (k >? lo + Z.of_nat n).
Proof.
  unfold step_c, last_item.
  change (range lo (S n)) with (lo :: range (lo + 1) n) at 1.
  cbv iota. rewrite range_last. reflexivity.
Qed.

Lemma steps_on_range (k r : Z) (ds : list Z) :
  contiguous_up_to r ds ->
  (step_a k ds = Ok true /\ step_b k ds = false /\ step_c k ds = Ok false)
  \/ (step_a k ds = Ok false /\ step_b k ds = true /\ step_c k ds = Ok false)
  \/ (step_a k ds = Ok false /\ step_b k ds = false /\ step_c k ds = Ok true).
Proof.
  intros [n ->]. rewrite step_a_range, step_c_range. unfold step_b.
  rewrite memZ_range, Z.gtb_ltb.
  destruct (k <? r - Z.of_nat n) eqn:E1;
    destruct (r - Z.of_nat n <=? k) eqn:E2;
    destruct (k <? r - Z.of_nat n + Z.of_nat (S n)) eqn:E3;
    destruct (r - Z.of_nat n + Z.of_nat n <? k) eqn:E4;
    simpl;
    first [ left; repeat split; reflexivity
          | right; left; repeat split; reflexivity
          | right; right; repeat split; reflexivity
          | exfalso;
            rewrite ?Z.ltb_lt, ?Z.ltb_ge, ?Z.leb_le, ?Z.leb_gt in *; lia ].
Qed.

(** ** Valid input *)

Lemma valid_instantiate (g t : nx.Graph) (fixed restricted : list tuple)
      (r_idx : nat) (self0 : Substitute) :
  wf_graphb t = true ->
  spans t g = true ->
  Substitute_init g t fixed restricted false = Ok self0 ->
  (r_idx < nx.number_of_nodes g)%nat ->
  exists root l self1,
    nth_error (nx.nodes g) r_idx = Some root
    /\ instantiate_substitute_variables r_idx self0 = Ok (tt, self1)
    /\ same_inputs self0 self1
    /\ nx.dfs_postorder_nodes (nx.to_directed t) root = Ok l
    /\ instantiated t l self1.
Proof.
  intros Hwf Hsp Hinit Hr.
  apply wf_graphb_wf in Hwf.
  apply Substitute_init_Ok in Hinit. destruct Hinit as [-> [Hg Ht]].
  apply check_input_tree_Ok in Ht. destruct Ht as [Ht _].
  apply check_input_graph_Ok in Ht. destruct Ht as [Hconn _].
  destruct (nth_error (nx.nodes g) r_idx) as [root|] eqn:Hnth.
  - exists root.
    edestruct (instantiate_spec
                 {| graph := g; tree := t; fixed_edges := fixed;
                    restricted_edges := restricted; ordered := false;
                    directed := []; postorder_nodes := []; descendants := [];
                    quasi_cuts := [] |} r_idx root)
      as [l [s' [E [Hs [Hd Hi]]]]]; simpl; try eassumption; try reflexivity.
    + apply (spans_In t g root Hsp). apply nth_error_In in Hnth. exact Hnth.
    + exists l, s'. simpl in *. split; [reflexivity|]. split; [exact E|].
      split; [exact Hs|]. split; [exact Hd | exact Hi].
  - apply nth_error_None in Hnth. unfold nx.number_of_nodes in Hr.
    unfold nx.nodes in Hnth. rewrite length_map in Hnth. lia.
Qed.

(** The rank and the descendant ranks of a node of the postorder. *)
Lemma instantiated_node (t : nx.Graph) (l : list Z) (s : Substitute) (v : Z) :
  instantiated t l s -> In v l ->
  exists pre blk0 post,
    l = pre ++ blk0 ++ v :: post
    /\ dict_get v (postorder_nodes s)
       = Some (1 + Z.of_nat (length pre) + Z.of_nat (length blk0))
    /\ dict_get v (descendants s)
       = Some (range (1 + Z.of_nat (length pre)) (S (length blk0)))
    /\ (forall y, In y blk0 -> down (nx.to_directed t) (blk0 ++ [v]) v y)
    /\ (forall z y, In z (blk0 ++ [v]) -> In y pre ->
                    ~ edge (nx.to_directed t) y z).
Proof.
  intros Hi Hv.
  destruct (inst_blocks t l s Hi v Hv) as [pre [blk0 [post [El [Hdown Hno]]]]].
  exists pre, blk0, post. split; [exact El|]. split.
  - rewrite (inst_po t l s Hi).
    assert (El' : l = (pre ++ blk0) ++ v :: post).
    { rewrite El. rewrite <- app_assoc. reflexivity. }
    rewrite (ranks_from_get l (pre ++ blk0) post v 1 El').
    + rewrite length_app. f_equal. lia.
    + pose proof (inst_nodup t l s Hi) as Hnd. rewrite El' in Hnd.
      apply NoDup_remove_2 in Hnd. intros H. apply Hnd.
      apply in_or_app. left. exact H.
  - split; [apply (inst_desc t l s Hi v pre blk0 post El Hdown Hno)|].
    split; [exact Hdown | exact Hno].
Qed.

(** ** The edges a graph lists *)

Lemma edges_from_cover (g1 : nx.Graph) :
  forall seen g2 x nbrs y,
    In y (map fst nbrs) -> ~ In y seen -> ~ In y (map fst g1) ->
    In (x, y) (nx.edges_from seen (g1 ++ (x, nbrs) :: g2)).
Proof.
  induction g1 as [|[k s] g1 IH]; intros seen g2 x nbrs y Hy Hs Hg; simpl.
  - apply in_or_app. left. apply in_map_iff.
    apply in_map_iff in Hy. destruct Hy as [[y' w] [E Hin]]. simpl in E. subst.
    exists (y, w). split; [reflexivity|]. apply filter_In. split; [exact Hin|].
    simpl. apply negb_true_iff, memZ_not_In. exact Hs.
  - apply in_or_app. right. apply IH; [exact Hy | | ].
    + intros [E | H]; [|exact (Hs H)]. apply Hg. left. simpl. exact E.
    + intros H. apply Hg. right. exact H.
Qed.

Lemma has_edge_In (g : nx.Graph) (x y : Z) :
  nx.has_edge g x y = true <->
  exists nbrs, dict_get x g = Some nbrs /\ In y (map fst nbrs).
Proof.
  unfold nx.has_edge. destruct (dict_get x g) as [nbrs|].
  - rewrite dict_has_In, memZ_In. split.
    + intros H. exists nbrs. auto.
    + intros [n [E H]]. inversion E. subst. exact H.
  - split; [discriminate | intros [n [E _]]; discriminate].
Qed.

Lemma has_edge_sym (g : nx.Graph) (x y : Z) :
  wf_graph g -> nx.has_edge g x y = true -> nx.has_edge g y x = true.
Proof.
  intros Hwf H. apply edge_has_edge. apply (wf_symmetric g Hwf).
  apply edge_has_edge. exact H.
Qed.

(** Every edge is listed, from one endpoint or the other. *)
Lemma edges_cover (g : nx.Graph) (x y : Z) :
  wf_graph g -> nx.has_edge g x y = true ->
  In (x, y) (nx.edges g) \/ In (y, x) (nx.edges g).
Proof.
  intros Hwf H.
  assert (Hnd : NoDup (map fst g)) by apply (wf_nodes g Hwf).
  pose proof (has_edge_sym g x y Hwf H) as H'.
  apply has_edge_In in H. destruct H as [nx_ [Ex Hy]].
  apply has_edge_In in H'. destruct H' as [ny [Ey Hx]].
  apply dict_get_In in Ex. apply in_split in Ex. destruct Ex as [g1 [g2 Eg]].
  destruct (in_dec Z.eq_dec y (map fst g1)) as [Hin | Hout].
  - right. apply in_map_iff in Hin. destruct Hin as [[y' ny'] [E Hin]].
    simpl in E. subst y'.
    apply in_split in Hin. destruct Hin as [h1 [h2 Eh]].
    assert (Eny : ny' = ny).
    { assert (Hi : In (y, ny') g).
      { rewrite Eg, Eh. apply in_or_app. left. apply in_or_app. right.
        left. reflexivity. }
      apply (In_dict_get y g ny' Hnd) in Hi. rewrite Ey in Hi.
      inversion Hi. reflexivity. }
    subst ny'. unfold nx.edges. rewrite Eg, Eh. rewrite <- app_assoc. simpl.
    apply edges_from_cover; [exact Hx | intros [] |].
    intros Hxh. rewrite Eg, Eh in Hnd. rewrite map_app in Hnd. simpl in Hnd.
    apply NoDup_remove_2 in Hnd. apply Hnd.
    apply in_or_app. left. rewrite map_app. apply in_or_app. left. exact Hxh.
  - left. unfold nx.edges. rewrite Eg.
    apply edges_from_cover; [exact Hy | intros [] | exact Hout].
Qed.

(** *** Weights *)

Lemma is_weighted_edges_true (g : nx.Graph) (es : list (Z * Z)) :
  is_weighted_edges g es = Ok true ->
  forall x y, In (x, y) es -> exists w, nx.get_edge_data g x y = Some (Some w).
Proof.
  induction es as [|[u v] es IH]; simpl; intros H x y Hin; [destruct Hin|].
  destruct (nx.get_edge_data g u v) as [[w|]|] eqn:E; try discriminate.
  destruct Hin as [Hin | Hin]; [|apply IH; assumption].
  inversion Hin. subst. exists w. exact E.
Qed.

(** In a graph that [is_weighted] accepts every edge has a weight. *)
Lemma weighted_edge_weight (g : nx.Graph) (x y : Z) :
  wf_graph g -> is_weighted g = Ok true -> nx.has_edge g x y = true ->
  exists w, nx.edge_weight g x y = Ok w.
Proof.
  intros Hwf Hw H. unfold is_weighted in Hw.
  unfold nx.edge_weight.
  destruct (edges_cover g x y Hwf H) as [Hin | Hin].
  - destruct (is_weighted_edges_true g _ Hw x y Hin) as [w E].
    exists w. rewrite E. reflexivity.
  - destruct (is_weighted_edges_true g _ Hw y x Hin) as [w E].
    exists w. rewrite (wf_sym g Hwf y x _ E). reflexivity.
Qed.

(** The edges of a tree that [is_tree_of_graph] accepts are edges of the
    graph. *)
Lemma tree_edges_in_graph (t g : nx.Graph) (x y : Z) :
  wf_graph t -> wf_graph g ->
  forallb (fun e => nx.has_edge g (fst e) (snd e)) (nx.edges t) = true ->
  nx.has_edge t x y = true -> nx.has_edge g x y = true.
Proof.
  intros Ht Hg Hall H. rewrite forallb_forall in Hall.
  destruct (edges_cover t x y Ht H) as [Hin | Hin].
  - apply (Hall (x, y) Hin).
  - apply has_edge_sym; [exact Hg|]. apply (Hall (y, x) Hin).
Qed.

(** *** Self-loops *)

Lemma no_self_cycles (g : nx.Graph) (x : Z) :
  has_self_cycles g = false -> nx.has_edge g x x = false.
Proof.
  unfold has_self_cycles. intros H.
  destruct (nx.has_edge g x x) eqn:E; [|reflexivity].
  assert (Hx : In x (nx.nodes g)).
  { apply has_edge_In in E. destruct E as [nbrs [E _]].
    apply dict_get_In_keys in E. exact E. }
  assert (Ht : existsb (fun node => nx.has_edge g node node) (nx.nodes g) = true).
  { apply existsb_exists. exists x. split; assumption. }
  congruence.
Qed.

(** ** Ranks and positions *)

Lemma rank_of_cons (i x b : Z) (l : list Z) :
  rank_of (ranks_from i (x :: l)) b
  = if Z.eqb b x then i else rank_of (ranks_from (i + 1) l) b.
Proof. unfold rank_of. simpl. destruct (Z.eqb b x); reflexivity. Qed.

Lemma rank_of_bounds (l : list Z) :
  forall i b, In b l ->
              i <= rank_of (ranks_from i l) b < i + Z.of_nat (length l).
Proof.
  induction l as [|x l IH]; intros i b Hb; [destruct Hb|].
  rewrite rank_of_cons. simpl length.
  destruct (Z.eqb b x) eqn:E; [lia|].
  destruct Hb as [Hb | Hb].
  - subst. rewrite Z.eqb_refl in E. discriminate.
  - specialize (IH (i + 1) b Hb). lia.
Qed.

Lemma upto_In (l : list Z) (a b : Z) : In b (upto l a) -> In b l.
Proof.
  induction l as [|x l IH]; simpl; [intros []|].
  destruct (Z.eqb x a).
  - intros [H | []]. left. exact H.
  - intros [H | H]; [left; exact H | right; apply IH, H].
Qed.

Lemma upto_rank (l : list Z) :
  forall i a b,
    NoDup l -> In a l ->
    (In b (upto l a) <->
     In b l /\ rank_of (ranks_from i l) b <= rank_of (ranks_from i l) a).
Proof.
  induction l as [|x l IH]; intros i a b Hnd Ha; [destruct Ha|].
  inversion Hnd as [|? ? Hx Hnd']. subst.
  rewrite !rank_of_cons. simpl upto.
  destruct (Z.eqb x a) eqn:Exa.
  - apply Z.eqb_eq in Exa. subst a. rewrite Z.eqb_refl. simpl. split.
    + intros [<- | []]. rewrite Z.eqb_refl. split; [left; reflexivity | lia].
    + intros [[<- | Hb] Hle]; [left; reflexivity|].
      destruct (Z.eqb b x) eqn:Eb.
      * apply Z.eqb_eq in Eb. left. congruence.
      * pose proof (rank_of_bounds l (i + 1) b Hb). lia.
  - rewrite (Z.eqb_sym a x), Exa.
    destruct Ha as [Ha | Ha]; [subst; rewrite Z.eqb_refl in Exa; discriminate|].
    simpl. rewrite (IH (i + 1) a b Hnd' Ha).
    destruct (Z.eqb b x) eqn:Eb.
    + apply Z.eqb_eq in Eb. subst b. split.
      * intros _. split; [left; reflexivity|].
        pose proof (rank_of_bounds l (i + 1) a Ha). lia.
      * intros _. left. reflexivity.
    + split.
      * intros [E | [H1 H2]]; [subst; rewrite Z.eqb_refl in Eb; discriminate|].
        split; [right; exact H1 | exact H2].
      * intros [[E | H1] H2];
          [subst; rewrite Z.eqb_refl in Eb; discriminate|].
        right. split; assumption.
Qed.

Lemma rank_of_inj (l : list Z) :
  forall i a b,
    NoDup l -> In a l -> In b l ->
    rank_of (ranks_from i l) a = rank_of (ranks_from i l) b -> a = b.
Proof.
  induction l as [|x l IH]; intros i a b Hnd Ha Hb; [destruct Ha|].
  inversion Hnd as [|? ? Hx Hnd']. subst. rewrite !rank_of_cons.
  destruct (Z.eqb a x) eqn:Ea; destruct (Z.eqb b x) eqn:Eb.
  - apply Z.eqb_eq in Ea, Eb. congruence.
  - destruct Hb as [Hb | Hb]; [subst; rewrite Z.eqb_refl in Eb; discriminate|].
    pose proof (rank_of_bounds l (i + 1) b Hb). lia.
  - destruct Ha as [Ha | Ha]; [subst; rewrite Z.eqb_refl in Ea; discriminate|].
    pose proof (rank_of_bounds l (i + 1) a Ha). lia.
  - destruct Ha as [Ha | Ha]; [subst; rewrite Z.eqb_refl in Ea; discriminate|].
    destruct Hb as [Hb | Hb]; [subst; rewrite Z.eqb_refl in Eb; discriminate|].
    apply IH; assumption.
Qed.

Lemma before_rank (l : list Z) (i a b : Z) :
  NoDup l -> before l a b ->
  rank_of (ranks_from i l) a < rank_of (ranks_from i l) b.
Proof.
  intros Hnd [l1 [l2 [l3 E]]]. unfold rank_of.
  rewrite (ranks_from_get l l1 (l2 ++ b :: l3) a i E).
  - assert (E' : l = (l1 ++ a :: l2) ++ b :: l3).
    { rewrite E. rewrite <- app_assoc. reflexivity. }
    rewrite (ranks_from_get l (l1 ++ a :: l2) l3 b i E').
    + rewrite length_app. simpl. lia.
    + rewrite E' in Hnd. apply NoDup_remove_2 in Hnd. intros H. apply Hnd.
      apply in_or_app. left. exact H.
  - rewrite E in Hnd. apply NoDup_remove_2 in Hnd. intros H. apply Hnd.
    apply in_or_app. left. exact H.
Qed.

(** ** The edges of a directed graph *)

Lemma di_edges_In (d : nx.DiGraph) (a b : Z) :
  NoDup (map fst d) -> (In (a, b) (nx.di_edges d) <-> edge d a b).
Proof.
  intros Hnd. unfold nx.di_edges, edge, nx.succ_of. rewrite in_flat_map. split.
  - intros [[k s] [Hin Hb]]. simpl in Hb. apply in_map_iff in Hb.
    destruct Hb as [c [E Hc]]. inversion E. subst.
    rewrite (In_dict_get a d s Hnd Hin). exact Hc.
  - destruct (dict_get a d) as [s|] eqn:E; [|intros []].
    intros Hb. exists (a, s). split; [apply dict_get_In, E|].
    simpl. apply in_map. exact Hb.
Qed.

Lemma NoDup_map_inj {A B} (f : A -> B) (l : list A) :
  (forall x y, f x = f y -> x = y) -> NoDup l -> NoDup (map f l).
Proof.
  intros Hf. induction 1 as [|x l Hx Hl IH]; simpl; constructor.
  - intros H. apply in_map_iff in H. destruct H as [y [E Hy]].
    apply Hf in E. subst. contradiction.
  - exact IH.
Qed.

Lemma di_edges_NoDup (d : nx.DiGraph) :
  NoDup (map fst d) ->
  (forall k s, In (k, s) d -> NoDup s) ->
  NoDup (nx.di_edges d).
Proof.
  unfold nx.di_edges. induction d as [|[k s] d IH]; intros Hk Hs; simpl.
  - constructor.
  - inversion Hk as [|? ? Hn Hk']. subst. apply NoDup_app.
    + apply NoDup_map_inj.
      * intros x y E. inversion E. reflexivity.
      * apply (Hs k s). left. reflexivity.
    + apply IH; [exact Hk'|]. intros k' s' H. apply (Hs k' s'). right. exact H.
    + intros [a b] H1 H2. apply in_map_iff in H1.
      destruct H1 as [c [E _]]. inversion E. subst.
      apply in_flat_map in H2. destruct H2 as [[k' s'] [Hin Hb]].
      simpl in Hb. apply in_map_iff in Hb. destruct Hb as [c [E' _]].
      inversion E'. subst. apply Hn. apply in_map_iff.
      exists (a, s'). split; [reflexivity | exact Hin].
Qed.

Lemma di_edges_length (d : nx.DiGraph) :
  length (nx.di_edges d)
  = fold_right (fun x acc => (length (snd x) + acc)%nat) 0%nat d.
Proof.
  unfold nx.di_edges. induction d as [|[k s] d IH]; simpl; [reflexivity|].
  rewrite length_app, length_map, IH. reflexivity.
Qed.

Lemma is_tree_count (g : nx.Graph) :
  nx.is_tree g = Ok true -> (length g - 1)%nat = nx.number_of_edges g.
Proof.
  unfold nx.is_tree. destruct g as [|e g']; [discriminate|].
  destruct (Nat.eqb _ _) eqn:E; [|discriminate].
  intros _. apply Nat.eqb_eq in E. exact E.
Qed.

(** ** One orientation of every tree edge survives the pruning *)

Section Kept.

Variable t : nx.Graph.
Variable l : list Z.
Variable d' : nx.DiGraph.

Hypothesis Hwf : wf_graph t.
Hypothesis Hloops : has_self_cycles t = false.
Hypothesis Hnd : NoDup l.
Hypothesis Hnodes : forall x, In x l <-> In x (nx.nodes t).
Hypothesis Hkeys : map fst d' = nx.nodes t.
Hypothesis Hpruned :
  forall a, In a l ->
            nx.succ_of d' a
            = filter (fun b => memZ b (upto l a)) (nx.succ_of (nx.to_directed t) a).

Let d0 := nx.to_directed t.
Let rk := rank_of (ranks_from 1 l).

Lemma kept_edge (a b : Z) :
  edge d' a b <-> edge d0 a b /\ rk b < rk a.
Proof.
  split.
  - intros He.
    assert (Ha : In a l).
    { apply Hnodes. rewrite <- Hkeys. apply (succ_of_In_keys d' a b He). }
    apply (pruned_edge d0 l d' Hpruned a b Ha) in He. destruct He as [He Hb].
    split; [exact He|].
    apply (upto_rank l 1 a b Hnd Ha) in Hb. destruct Hb as [Hb Hle].
    assert (Hne : rk b <> rk a).
    { intros E. apply (rank_of_inj l 1 b a Hnd Hb Ha) in E. subst b.
      apply edge_has_edge in He. rewrite (no_self_cycles t a Hloops) in He.
      discriminate. }
    unfold rk in *. lia.
  - intros [He Hlt].
    assert (Ha : In a l).
    { apply Hnodes. rewrite <- to_directed_keys.
      apply (succ_of_In_keys d0 a b He). }
    assert (Hb : In b l).
    { apply Hnodes. rewrite <- to_directed_keys. apply (wf_closed t Hwf a b He). }
    apply (pruned_edge d0 l d' Hpruned a b Ha). split; [exact He|].
    apply (upto_rank l 1 a b Hnd Ha). split; [exact Hb|]. unfold rk in Hlt. lia.
Qed.

Lemma kept_keys_NoDup : NoDup (map fst d').
Proof. rewrite Hkeys. apply (wf_nodes t Hwf). Qed.

Lemma kept_NoDup : NoDup (nx.di_edges d').
Proof.
  apply di_edges_NoDup; [apply kept_keys_NoDup|].
  intros k s Hin.
  assert (Hk : In k l).
  { apply Hnodes. rewrite <- Hkeys. apply in_map_iff.
    exists (k, s). split; [reflexivity | exact Hin]. }
  assert (Es : nx.succ_of d' k = s).
  { unfold nx.succ_of. rewrite (In_dict_get k d' s kept_keys_NoDup Hin).
    reflexivity. }
  rewrite <- Es, (Hpruned k Hk). apply NoDup_filter.
  apply (wf_succ_NoDup t k Hwf).
Qed.

Lemma d0_keys_NoDup : NoDup (map fst d0).
Proof. unfold d0. rewrite to_directed_keys. apply (wf_nodes t Hwf). Qed.

Lemma d0_NoDup : NoDup (nx.di_edges d0).
Proof.
  apply di_edges_NoDup; [apply d0_keys_NoDup|].
  intros k s Hin.
  assert (Es : nx.succ_of d0 k = s).
  { unfold nx.succ_of. rewrite (In_dict_get k d0 s d0_keys_NoDup Hin).
    reflexivity. }
  rewrite <- Es. apply (wf_succ_NoDup t k Hwf).
Qed.

Lemma kept_In (a b : Z) :
  In (a, b) (nx.di_edges d') <-> edge d0 a b /\ rk b < rk a.
Proof. rewrite (di_edges_In d' a b kept_keys_NoDup). apply kept_edge. Qed.

(** Every edge of the tree is kept in exactly one orientation. *)
Lemma kept_or_swapped (a b : Z) :
  edge d0 a b ->
  (In (a, b) (nx.di_edges d') /\ ~ In (b, a) (nx.di_edges d'))
  \/ (In (b, a) (nx.di_edges d') /\ ~ In (a, b) (nx.di_edges d')).
Proof.
  intros He.
  assert (He' : edge d0 b a) by (apply (wf_symmetric t Hwf), He).
  assert (Ha : In a l).
  { apply Hnodes. rewrite <- to_directed_keys. apply (succ_of_In_keys d0 a b He). }
  assert (Hb : In b l).
  { apply Hnodes. rewrite <- to_directed_keys. apply (succ_of_In_keys d0 b a He'). }
  assert (Hne : rk a <> rk b).
  { intros E. apply (rank_of_inj l 1 a b Hnd Ha Hb) in E. subst b.
    apply edge_has_edge in He. rewrite (no_self_cycles t a Hloops) in He.
    discriminate. }
  rewrite !kept_In.
  destruct (Z.lt_ge_cases (rk b) (rk a)) as [Hlt | Hge].
  - left. split; [split; assumption|]. intros [_ H]. lia.
  - right. split; [split; [exact He' | lia]|]. intros [_ H]. lia.
Qed.

Lemma kept_half :
  length (nx.di_edges d0) = (2 * length (nx.di_edges d'))%nat.
Proof.
  assert (Hp : Permutation (nx.di_edges d0)
                           (nx.di_edges d' ++ map swap (nx.di_edges d'))).
  { apply NoDup_Permutation.
    - apply d0_NoDup.
    - apply NoDup_app.
      + apply kept_NoDup.
      + apply NoDup_map_inj; [|apply kept_NoDup].
        intros [a b] [c e] E. unfold swap in E. simpl in E. inversion E.
        reflexivity.
      + intros [a b] H1 H2. apply in_map_iff in H2.
        destruct H2 as [[c e] [E H2]]. unfold swap in E. simpl in E.
        inversion E. subst.
        apply kept_In in H1. apply kept_In in H2. lia.
    - intros [a b]. rewrite (di_edges_In d0 a b d0_keys_NoDup), in_app_iff.
      split.
      + intros He. destruct (kept_or_swapped a b He) as [[H _] | [H _]].
        * left. exact H.
        * right. apply in_map_iff. exists (b, a). split; [reflexivity | exact H].
      + intros [H | H].
        * apply kept_In in H. apply H.
        * apply in_map_iff in H. destruct H as [[c e] [E H]].
          unfold swap in E. simpl in E. inversion E. subst.
          apply kept_In in H. apply (wf_symmetric t Hwf). apply H. }
  apply Permutation_length in Hp. rewrite Hp, length_app, length_map. lia.
Qed.

Lemma degree_sum :
  fold_right (fun x acc => (nx.degree (fst x) (snd x) + acc)%nat) 0%nat t
  = length (nx.di_edges d0).
Proof.
  unfold d0. rewrite di_edges_length.
  assert (H : forall n nbrs, In (n, nbrs) t -> dict_has n nbrs = false).
  { intros n nbrs Hin.
    pose proof (no_self_cycles t n Hloops) as Hn. unfold nx.has_edge in Hn.
    rewrite (In_dict_get n t nbrs (wf_nodes t Hwf) Hin) in Hn. exact Hn. }
  clear -H. induction t as [|[n nbrs] g IH]; simpl; [reflexivity|].
  unfold nx.degree at 1. simpl.
  rewrite (H n nbrs (or_introl eq_refl)), length_map.
  rewrite IH; [lia|]. intros n' nbrs' Hin. apply (H n' nbrs'). right. exact Hin.
Qed.

(** The tree has one node more than the pruned graph has edges. *)
Lemma kept_count :
  nx.is_tree t = Ok true ->
  length (nx.di_edges d') = (nx.number_of_nodes t - 1)%nat.
Proof.
  intros Ht. apply is_tree_count in Ht. unfold nx.number_of_nodes.
  rewrite Ht. unfold nx.number_of_edges.
  rewrite degree_sum, kept_half.
  rewrite Nat.mul_comm, Nat.div_mul; [reflexivity | lia].
Qed.

End Kept.

(** ** The postordered edges *)

Lemma weigh_edges_ok (g : nx.Graph) (es : list (Z * Z)) :
  (forall u v, In (u, v) es -> exists w, nx.edge_weight g u v = Ok w) ->
  exists ws,
    weigh_edges g es = Ok ws
    /\ map key_of ws = map swap es
    /\ forall e, In e ws ->
                 nx.edge_weight g (snd e) (snd (fst e)) = Ok (fst (fst e)).
Proof.
  induction es as [|[u v] es IH]; intros H.
  - exists []. simpl. split; [reflexivity|]. split; [reflexivity | intros e []].
  - destruct (H u v (or_introl eq_refl)) as [w Hw].
    destruct IH as [ws [E [Hk Hall]]].
    { intros u' v' Hin. apply H. right. exact Hin. }
    exists ((w, v, u) :: ws). simpl. rewrite Hw. simpl. rewrite E. simpl.
    split; [reflexivity|]. split.
    + unfold key_of at 1, swap at 1. simpl. rewrite Hk. reflexivity.
    + intros e [<- | He]; [exact Hw | apply Hall, He].
Qed.

Lemma with_keys_ok (po : list (Z * Z)) (es : list wedge) :
  (forall e, In e es -> In (snd (fst e)) (map fst po) /\ In (snd e) (map fst po)) ->
  exists ks, with_keys po es = Ok ks /\ map snd ks = es.
Proof.
  induction es as [|[[w a] b] es IH]; intros H.
  - exists []. split; reflexivity.
  - destruct (H (w, a, b) (or_introl eq_refl)) as [Ha Hb]. simpl in Ha, Hb.
    destruct IH as [ks [E Hs]].
    { intros e He. apply H. right. exact He. }
    simpl. rewrite (dict_item_rank_of po a Ha). simpl.
    rewrite (dict_item_rank_of po b Hb). simpl. rewrite E. simpl.
    eexists. split; [reflexivity|]. simpl. rewrite Hs. reflexivity.
Qed.

Lemma insert_by_key_perm {A} (k : Z * Z) (x : A) (l : list ((Z * Z) * A)) :
  Permutation (insert_by_key k x l) ((k, x) :: l).
Proof.
  induction l as [|[k' y] l IH]; simpl; [apply Permutation_refl|].
  destruct (key_leb k k'); [apply Permutation_refl|].
  apply Permutation_trans with ((k', y) :: (k, x) :: l);
    [apply perm_skip, IH | apply perm_swap].
Qed.

Lemma sort_by_key_perm {A} (l : list ((Z * Z) * A)) :
  Permutation (sort_by_key l) (map snd l).
Proof.
  unfold sort_by_key. apply Permutation_map.
  induction l as [|[k x] l IH]; simpl; [apply perm_nil|].
  apply Permutation_trans with ((k, x) :: fold_right
      (fun kx acc => insert_by_key (fst kx) (snd kx) acc) [] l).
  - apply insert_by_key_perm.
  - apply perm_skip, IH.
Qed.

(** ** The mapping as a dictionary *)

Lemma pair_eqb_eq (p q : Z * Z) : pair_eqb p q = true <-> p = q.
Proof.
  destruct p as [a b], q as [c e]. unfold pair_eqb. simpl.
  rewrite andb_true_iff, !Z.eqb_eq. split.
  - intros [-> ->]. reflexivity.
  - intros H. inversion H. auto.
Qed.

Lemma pair_eqb_refl (p : Z * Z) : pair_eqb p p = true.
Proof. apply pair_eqb_eq. reflexivity. Qed.

Lemma pair_eqb_neq (p q : Z * Z) : pair_eqb p q = false <-> p <> q.
Proof.
  rewrite <- pair_eqb_eq. destruct (pair_eqb p q); split; intros; congruence.
Qed.

Lemma sd_set_fresh (k : Z * Z) (v : list (Z * Z)) (d : subst_dict) :
  ~ In k (map fst d) -> sd_set k v d = d ++ [(k, v)].
Proof.
  induction d as [|[k' v'] d IH]; simpl; intros H; [reflexivity|].
  destruct (pair_eqb k k') eqn:E.
  - apply pair_eqb_eq in E. subst. exfalso. apply H. left. reflexivity.
  - rewrite IH; [reflexivity|]. intros Hin. apply H. right. exact Hin.
Qed.

Lemma sd_set_keys (k : Z * Z) (v : list (Z * Z)) (d : subst_dict) :
  In k (map fst d) -> map fst (sd_set k v d) = map fst d.
Proof.
  induction d as [|[k' v'] d IH]; simpl; intros H; [destruct H|].
  destruct (pair_eqb k k') eqn:E.
  - apply pair_eqb_eq in E. subst. reflexivity.
  - simpl. f_equal. apply IH. destruct H as [H | H]; [|exact H].
    subst. rewrite pair_eqb_refl in E. discriminate.
Qed.

Lemma sd_get_set (k k' : Z * Z) (v : list (Z * Z)) (d : subst_dict) :
  sd_get k (sd_set k' v d) = if pair_eqb k k' then Some v else sd_get k d.
Proof.
  induction d as [|[k0 v0] d IH]; simpl.
  - destruct (pair_eqb k k'); reflexivity.
  - destruct (pair_eqb k' k0) eqn:E0; simpl.
    + apply pair_eqb_eq in E0. subst. destruct (pair_eqb k k0); reflexivity.
    + destruct (pair_eqb k k0) eqn:E1.
      * apply pair_eqb_eq in E1. subst.
        destruct (pair_eqb k0 k') eqn:E2; [|reflexivity].
        apply pair_eqb_eq in E2. subst. rewrite pair_eqb_refl in E0.
        discriminate.
      * exact IH.
Qed.

Lemma sd_get_Some_In (k : Z * Z) (d : subst_dict) :
  In k (map fst d) <-> exists v, sd_get k d = Some v.
Proof.
  induction d as [|[k0 v0] d IH]; simpl.
  - split; [intros [] | intros [v H]; discriminate].
  - destruct (pair_eqb k k0) eqn:E.
    + apply pair_eqb_eq in E. subst. split; [intros _; eauto | auto].
    + rewrite <- IH. apply pair_eqb_neq in E. split.
      * intros [H | H]; [congruence | exact H].
      * auto.
Qed.

Lemma sd_get_In (k : Z * Z) (v : list (Z * Z)) (d : subst_dict) :
  NoDup (map fst d) -> In (k, v) d -> sd_get k d = Some v.
Proof.
  induction d as [|[k0 v0] d IH]; simpl; intros Hnd H; [destruct H|].
  inversion Hnd as [|? ? Hn Hnd']. subst.
  destruct H as [H | H].
  - inversion H. subst. rewrite pair_eqb_refl. reflexivity.
  - destruct (pair_eqb k k0) eqn:E.
    + apply pair_eqb_eq in E. subst. exfalso. apply Hn.
      apply in_map_iff. exists (k0, v). auto.
    + apply IH; assumption.
Qed.

(** The mapping that [substitute] starts from: every key to the empty
    list. *)
Lemma initial_dict (es : list wedge) :
  forall acc,
    NoDup (map fst acc ++ map key_of es) ->
    fold_left (fun d e => let '(_, a, b) := e in sd_set (a, b) [] d) es acc
    = acc ++ map (fun e => (key_of e, [])) es.
Proof.
  induction es as [|[[w a] b] es IH]; intros acc Hnd; simpl.
  - rewrite app_nil_r. reflexivity.
  - simpl in Hnd. rewrite sd_set_fresh.
    + rewrite IH.
      * rewrite <- app_assoc. reflexivity.
      * rewrite map_app. simpl. rewrite <- app_assoc. exact Hnd.
    + apply NoDup_remove_2 in Hnd. intros H. apply Hnd.
      apply in_or_app. left. exact H.
Qed.

(** ** The rounds of step 2 never fail on a valid input *)

Lemma cuts_only_refl (s : Substitute) : cuts_only s s.
Proof. repeat split. Qed.

Lemma cuts_only_trans (s1 s2 s3 : Substitute) :
  cuts_only s1 s2 -> cuts_only s2 s3 -> cuts_only s1 s3.
Proof.
  unfold cuts_only. intros H1 H2.
  destruct H1 as [A1 [A2 [A3 [A4 [A5 [A6 [A7 A8]]]]]]].
  destruct H2 as [B1 [B2 [B3 [B4 [B5 [B6 [B7 B8]]]]]]].
  repeat split; congruence.
Qed.

Lemma cuts_only_set (q : list wedge) (s : Substitute) :
  cuts_only s (set_quasi_cuts q s).
Proof. repeat split. Qed.

Lemma bind_intro {A B} (m : M A) (k : A -> M B) (s s' : Substitute) (a : A)
      (r : result (B * Substitute)) :
  m s = Ok (a, s') -> k a s' = r -> bind m k s = r.
Proof. intros H1 H2. unfold bind. rewrite H1. exact H2. Qed.

Section Rounds.

Variable g t : nx.Graph.
Variable l : list Z.
Variable s1 : Substitute.

Hypothesis Hwfg : wf_graph g.
Hypothesis Hweighted : is_weighted g = Ok true.
Hypothesis Hspan : forall x, In x (nx.nodes g) -> In x l.
Hypothesis Hinst : instantiated t l s1.
Hypothesis Hgraph : graph s1 = g.

Lemma rank_known (s : Substitute) (x : Z) :
  cuts_only s1 s -> In x l ->
  dict_item x (postorder_nodes s) = Ok (rank_of (postorder_nodes s) x).
Proof.
  intros Hc Hx. apply dict_item_rank_of.
  destruct Hc as [_ [_ [_ [_ [_ [_ [Hpo _]]]]]]].
  rewrite Hpo, (inst_po t l s1 Hinst), map_fst_ranks_from. exact Hx.
Qed.

Lemma descendants_known (s : Substitute) (x : Z) :
  cuts_only s1 s -> In x l ->
  exists r dn,
    dict_item x (descendants s) = Ok dn /\ contiguous_up_to r dn.
Proof.
  intros Hc Hx.
  destruct (instantiated_node t l s1 x Hinst Hx)
    as [pre [blk0 [post [_ [_ [Hd _]]]]]].
  destruct Hc as [_ [_ [_ [_ [_ [_ [_ Hds]]]]]]].
  exists (1 + Z.of_nat (length pre) + Z.of_nat (length blk0)),
         (range (1 + Z.of_nat (length pre)) (S (length blk0))).
  split.
  - unfold dict_item. rewrite Hds, Hd. reflexivity.
  - exists (length blk0). f_equal. lia.
Qed.

(** *** Step 2.1 *)

Lemma incident_loop_ok (self : Substitute) (node : Z) (nbrs : list Z) :
  graph self = g ->
  (forall nb, In nb nbrs -> nx.has_edge g node nb = true) ->
  exists inc,
    incident_loop self node nbrs = Ok inc
    /\ forall e, In e inc -> snd (fst e) = node /\ In (snd e) nbrs.
Proof.
  intros Hg. induction nbrs as [|nb nbrs IH]; intros H.
  - exists []. split; [reflexivity | intros e []].
  - destruct IH as [inc [E Hinc]].
    { intros nb' Hin. apply H. right. exact Hin. }
    simpl.
    destruct (negb (tuple_in [node; nb] (restricted_edges self))
              && negb (nx.has_edge (tree self) node nb)).
    + destruct (weighted_edge_weight g node nb Hwfg Hweighted
                                      (H nb (or_introl eq_refl))) as [w Hw].
      rewrite Hg, Hw. simpl. rewrite E. simpl.
      exists ((w, node, nb) :: inc). split; [reflexivity|].
      intros e [<- | He]; simpl.
      * split; [reflexivity | left; reflexivity].
      * destruct (Hinc e He) as [H1 H2]. split; [exact H1 | right; exact H2].
    + exists inc. split; [exact E|].
      intros e He. destruct (Hinc e He) as [H1 H2].
      split; [exact H1 | right; exact H2].
Qed.

Lemma find_incident_edges_ok (self : Substitute) (node : Z) :
  graph self = g -> In node (nx.nodes g) ->
  exists inc,
    find_incident_edges node self = Ok (inc, self)
    /\ forall e, In e inc -> snd (fst e) = node /\ In (snd e) (nx.nodes g).
Proof.
  intros Hg Hn. unfold find_incident_edges, nx.neighbors. rewrite Hg.
  apply In_keys_dict_get in Hn. destruct Hn as [nbrs Hn]. rewrite Hn. simpl.
  destruct (incident_loop_ok self node (map fst nbrs) Hg) as [inc [E Hinc]].
  - intros nb Hnb. apply has_edge_In. exists nbrs. split; assumption.
  - rewrite E. simpl. exists inc. split; [reflexivity|].
    intros e He. destruct (Hinc e He) as [H1 H2]. split; [exact H1|].
    assert (He' : edge (nx.to_directed g) node (snd e)).
    { apply edge_has_edge. apply has_edge_In. exists nbrs. split; assumption. }
    rewrite <- to_directed_keys. apply (wf_closed g Hwfg node (snd e) He').
Qed.

Lemma update_cuts_ok (s : Substitute) (w a b : Z) :
  cuts_only s1 s -> In a l -> In b l ->
  exists s',
    update_cuts (w, a, b) s = Ok (tt, s')
    /\ cuts_only s s'
    /\ forall e, In e (quasi_cuts s') -> e = (w, a, b) \/ In e (quasi_cuts s).
Proof.
  intros Hc Ha Hb.
  pose proof (rank_known s b Hc Hb) as Hr.
  destruct (descendants_known s a Hc Ha) as [ra [dn [Hdn Hrange]]].
  set (r := rank_of (postorder_nodes s) b) in *.
  unfold update_cuts, bind, gets. rewrite Hr. unfold lift at 1.
  rewrite Hdn. unfold lift at 1.
  destruct (steps_on_range r ra dn Hrange) as [[A [B C]] | [[A [B C]] | [A [B C]]]];
    rewrite A, B, C; unfold lift, gets, modify, ret; cbv beta iota;
    cbn [quasi_cuts set_quasi_cuts];
    repeat match goal with
           | |- context [SortedSet.contains ?x ?q] =>
               destruct (SortedSet.contains x q)
           end;
    (eexists; split; [reflexivity|]; split; [repeat split|];
     cbn [quasi_cuts set_quasi_cuts]; intros e He;
     rewrite ?add_In, ?remove_In in He; tauto).
Qed.

Lemma update_cuts_loop_ok (inc : list wedge) :
  forall s,
    cuts_only s1 s -> cuts_within l (quasi_cuts s) -> cuts_within l inc ->
    exists s',
      update_cuts_loop inc s = Ok (tt, s')
      /\ cuts_only s s' /\ cuts_within l (quasi_cuts s').
Proof.
  induction inc as [|[[w a] b] inc IH]; intros s Hc Hq Hinc.
  - exists s. split; [reflexivity|]. split; [apply cuts_only_refl | exact Hq].
  - destruct (Hinc (w, a, b) (or_introl eq_refl)) as [Ha Hb]. simpl in Ha, Hb.
    destruct (update_cuts_ok s w a b Hc Ha Hb) as [s2 [E [Hc2 Hq2]]].
    destruct (IH s2) as [s' [E' [Hc' Hq']]].
    + apply cuts_only_trans with s; assumption.
    + intros e He. destruct (Hq2 e He) as [-> | He']; [|apply Hq, He'].
      simpl. split; assumption.
    + intros e He. apply Hinc. right. exact He.
    + exists s'. split.
      * simpl. apply (bind_intro _ _ s s2 tt); [exact E | exact E'].
      * split; [apply cuts_only_trans with s2; assumption | exact Hq'].
Qed.

(** *** Step 2.2 *)

Lemma search_loop_ok (w node p : Z) (fuel : nat) :
  forall s,
    cuts_only s1 s -> cuts_within l (quasi_cuts s) -> In node l ->
    (length (quasi_cuts s) < fuel)%nat ->
    exists r s',
      search_loop fuel (w, node, p) s = Ok (r, s')
      /\ cuts_only s s'
      /\ incl (quasi_cuts s') (quasi_cuts s).
Proof.
  induction fuel as [|fuel IH]; intros s Hc Hq Hn Hf; [lia|].
  destruct (descendants_known s node Hc Hn) as [rn [dn [Hdn Hrange]]].
  assert (Hscan : equal_weight_descendant (w, node, p) s
                  = Ok (find (source_match s w node) (quasi_cuts s), s)).
  { unfold equal_weight_descendant. rewrite scan_cuts_find; [reflexivity| |].
    - unfold dict_has. unfold dict_item in Hdn.
      destruct (dict_get node (descendants s)); [reflexivity | discriminate].
    - intros e He. destruct (Hq e He) as [Hs _].
      pose proof (rank_known s _ Hc Hs) as Hr. unfold dict_has.
      unfold dict_item in Hr.
      destruct (dict_get (snd (fst e)) (postorder_nodes s));
        [reflexivity | discriminate]. }
  cbn [search_loop].
  destruct (find (source_match s w node) (quasi_cuts s)) as [[[x y] z]|] eqn:Ef.
  - apply find_some in Ef. destruct Ef as [Hin _].
    destruct (Hq _ Hin) as [_ Hz]. simpl in Hz.
    pose proof (rank_known s z Hc Hz) as Hrz.
    destruct (memZ (rank_of (postorder_nodes s) z) dn) eqn:Em.
    + destruct (IH (set_quasi_cuts (SortedSet.remove (x, y, z) (quasi_cuts s)) s))
        as [r [s' [E [Hc' Hincl]]]].
      * apply cuts_only_trans with s; [exact Hc | apply cuts_only_set].
      * intros e He. simpl in He. apply remove_In in He. apply Hq, He.
      * exact Hn.
      * simpl. pose proof (remove_length (x, y, z) (quasi_cuts s) Hin). lia.
      * exists r, s'. split.
        { apply (bind_intro _ _ s s (Some (x, y, z))); [exact Hscan|].
          unfold bind, gets. rewrite Hrz. unfold lift at 1. rewrite Hdn.
          unfold lift at 1. rewrite Em. unfold modify. exact E. }
        split.
        { apply cuts_only_trans with
            (set_quasi_cuts (SortedSet.remove (x, y, z) (quasi_cuts s)) s);
            [apply cuts_only_set | exact Hc']. }
        { intros e He. apply Hincl in He. simpl in He.
          apply remove_In in He. apply He. }
    + exists (Some (x, y, z)), s. split.
      { apply (bind_intro _ _ s s (Some (x, y, z))); [exact Hscan|].
        unfold bind, gets. rewrite Hrz. unfold lift at 1. rewrite Hdn.
        unfold lift at 1. rewrite Em. reflexivity. }
      split; [apply cuts_only_refl | apply incl_refl].
  - exists None, s. split.
    + apply (bind_intro _ _ s s None); [exact Hscan | reflexivity].
    + split; [apply cuts_only_refl | apply incl_refl].
Qed.

(** *** One round, and all of them *)

Lemma substitute_step_ok (s : Substitute) (w node parent : Z) (sd : subst_dict) :
  cuts_only s1 s -> cuts_within l (quasi_cuts s) ->
  In node l -> In node (nx.nodes g) ->
  In (node, parent) (map fst sd) ->
  exists sd' s',
    substitute_step (w, node, parent) sd s = Ok (sd', s')
    /\ cuts_only s s' /\ cuts_within l (quasi_cuts s')
    /\ map fst sd' = map fst sd
    /\ (forall k, k <> (node, parent) -> sd_get k sd' = sd_get k sd)
    /\ (forall v, sd_get (node, parent) sd = Some v ->
                  exists v', sd_get (node, parent) sd' = Some v'
                             /\ (length v' <= length v + 1)%nat).
Proof.
  intros Hc Hq Hnl Hng Hkey.
  assert (Hgs : graph s = g).
  { destruct Hc as [Hg' _]. rewrite Hg'. exact Hgraph. }
  destruct (find_incident_edges_ok s node Hgs Hng) as [inc [Einc Hinc]].
  destruct (update_cuts_loop_ok inc s Hc Hq) as [s2 [Eup [Hc2 Hq2]]].
  { intros e He. destruct (Hinc e He) as [H1 H2]. rewrite H1.
    split; [exact Hnl | apply Hspan, H2]. }
  assert (Hc12 : cuts_only s1 s2) by (apply cuts_only_trans with s; assumption).
  unfold substitute_step.
  destruct (negb (tuple_in (tuple_of_wedge (w, node, parent)) (fixed_edges s2)))
    eqn:Efix.
  - destruct (search_loop_ok w node parent (S (length (quasi_cuts s2))) s2
                             Hc12 Hq2 Hnl (Nat.lt_succ_diag_r _))
      as [r [s3 [Es [Hc3 Hincl]]]].
    assert (Hq3 : cuts_within l (quasi_cuts s3)).
    { intros e He. apply Hq2, Hincl, He. }
    assert (Hc03 : cuts_only s s3) by (apply cuts_only_trans with s2; assumption).
    destruct r as [[[x y] z]|].
    + apply sd_get_Some_In in Hkey. destruct Hkey as [v Hv].
      exists (sd_set (node, parent) (v ++ [(y, z)]) sd), s3. split.
      { apply (bind_intro _ _ s s inc); [exact Einc|].
        apply (bind_intro _ _ s s2 tt); [exact Eup|].
        unfold bind at 1. unfold gets at 1. rewrite Efix.
        unfold bind at 1. unfold gets at 1.
        apply (bind_intro _ _ s2 s3 (Some (x, y, z))); [exact Es|].
        unfold lift, sd_append. rewrite Hv. reflexivity. }
      split; [exact Hc03|]. split; [exact Hq3|]. split.
      { apply sd_set_keys. apply sd_get_Some_In. exists v. exact Hv. }
      split.
      { intros k Hk. rewrite sd_get_set.
        destruct (pair_eqb k (node, parent)) eqn:E; [|reflexivity].
        apply pair_eqb_eq in E. contradiction. }
      { intros v0 Hv0. rewrite Hv in Hv0. inversion Hv0. subst v0.
        exists (v ++ [(y, z)]). rewrite sd_get_set, pair_eqb_refl.
        split; [reflexivity|]. rewrite length_app. simpl. lia. }
    + exists sd, s3. split.
      { apply (bind_intro _ _ s s inc); [exact Einc|].
        apply (bind_intro _ _ s s2 tt); [exact Eup|].
        unfold bind at 1. unfold gets at 1. rewrite Efix.
        unfold bind at 1. unfold gets at 1.
        apply (bind_intro _ _ s2 s3 None); [exact Es|]. reflexivity. }
      split; [exact Hc03|]. split; [exact Hq3|]. split; [reflexivity|].
      split; [reflexivity|].
      intros v Hv. exists v. split; [exact Hv | lia].
  - exists sd, s2. split.
    { apply (bind_intro _ _ s s inc); [exact Einc|].
      apply (bind_intro _ _ s s2 tt); [exact Eup|].
      unfold bind at 1. unfold gets at 1. rewrite Efix. reflexivity. }
    split; [exact Hc2|]. split; [exact Hq2|]. split; [reflexivity|].
    split; [reflexivity|].
    intros v Hv. exists v. split; [exact Hv | lia].
Qed.

Lemma substitute_loop_ok (es : list wedge) :
  forall s sd,
    cuts_only s1 s -> cuts_within l (quasi_cuts s) ->
    NoDup (map key_of es) ->
    (forall e, In e es ->
               In (snd (fst e)) l /\ In (snd (fst e)) (nx.nodes g)
               /\ In (key_of e) (map fst sd)) ->
    exists sd' s',
      substitute_loop es sd s = Ok (sd', s')
      /\ cuts_only s s'
      /\ map fst sd' = map fst sd
      /\ (forall k, ~ In k (map key_of es) -> sd_get k sd' = sd_get k sd)
      /\ (forall k v, In k (map key_of es) -> sd_get k sd = Some v ->
                      exists v', sd_get k sd' = Some v'
                                 /\ (length v' <= length v + 1)%nat).
Proof.
  induction es as [|[[w node] parent] es IH]; intros s sd Hc Hq Hnd Hes.
  - exists sd, s. split; [reflexivity|]. split; [apply cuts_only_refl|].
    split; [reflexivity|]. split; [reflexivity|]. intros k v [].
  - simpl in Hnd. apply NoDup_cons_iff in Hnd. destruct Hnd as [Hfresh Hnd'].
    destruct (Hes (w, node, parent) (or_introl eq_refl)) as [Hnl [Hng Hkey]].
    simpl in Hnl, Hng. unfold key_of in Hkey. simpl in Hkey.
    destruct (substitute_step_ok s w node parent sd Hc Hq Hnl Hng Hkey)
      as [sd2 [s2 [E [Hc2 [Hq2 [Hk2 [Hother Hthis]]]]]]].
    destruct (IH s2 sd2) as [sd' [s' [E' [Hc' [Hk' [Hout Hin]]]]]].
    + apply cuts_only_trans with s; assumption.
    + exact Hq2.
    + exact Hnd'.
    + intros e He. destruct (Hes e (or_intror He)) as [H1 [H2 H3]].
      split; [exact H1|]. split; [exact H2|]. rewrite Hk2. exact H3.
    + exists sd', s'. split.
      { simpl. apply (bind_intro _ _ s s2 sd2); [exact E | exact E']. }
      split; [apply cuts_only_trans with s2; assumption|].
      split; [rewrite Hk', Hk2; reflexivity|].
      split.
      { intros k Hk. simpl in Hk. rewrite Hout.
        - apply Hother. intros ->. apply Hk. left. reflexivity.
        - intros H. apply Hk. right. exact H. }
      { intros k v Hk Hv. simpl in Hk.
        destruct (in_dec pair_eq_dec k (map key_of es))
          as [Hkin | Hkout].
        - assert (Hne : k <> (node, parent)).
          { intros ->. apply Hfresh. exact Hkin. }
          apply (Hin k v Hkin). rewrite (Hother k Hne). exact Hv.
        - destruct Hk as [Hk | Hk]; [|contradiction].
          unfold key_of in Hk. simpl in Hk. subst k.
          rewrite (Hout _ Hkout). apply Hthis, Hv. }
Qed.

End Rounds.

(** ** The root side of a tree edge *)

Lemma dfs_postorder_down (d : nx.DiGraph) (root : Z) (l : list Z) :
  succ_closed d ->
  nx.dfs_postorder_nodes d root = Ok l ->
  forall y, In y l -> down d l root y.
Proof.
  intros Hsc H. unfold nx.dfs_postorder_nodes in H.
  destruct (dict_get root d) as [sx|] eqn:Er; [|discriminate].
  assert (Hk : In root (map fst d)) by (apply (dict_get_In_keys root d sx Er)).
  destruct (dfs_visit_spec d Hsc (length d) root [] []) as
      [vis' [new0 [E [_ [_ [_ [_ [Hdn _]]]]]]]].
  - exact Hk.
  - intros [].
  - intros y z [].
  - pose proof (unvisited_cons d [] root Hk (fun H => H)) as Hlt.
    assert (length (unvisited d []) <= length d)%nat.
    { unfold unvisited. rewrite <- (length_map fst d). apply filter_length_le. }
    lia.
  - simpl in E. rewrite E in H. simpl in H. inversion H. subst l.
    intros y Hy. apply in_app_or in Hy. destruct Hy as [Hy | [<- | []]].
    + apply Hdn, Hy.
    + apply down_refl.
Qed.

Lemma down_rank (d : nx.DiGraph) (l : list Z) (x y : Z) :
  NoDup l -> down d l x y ->
  rank_of (ranks_from 1 l) y <= rank_of (ranks_from 1 l) x.
Proof.
  intros Hnd. induction 1 as [x | x z y _ Hb _ IH]; [lia|].
  pose proof (before_rank l 1 z x Hnd Hb). lia.
Qed.

(** A downward path to [p] stays clear of every node ranked below [p]. *)
Lemma down_avoiding (d : nx.DiGraph) (l : list Z) (c x p : Z) :
  NoDup l -> down d l x p ->
  rank_of (ranks_from 1 l) c < rank_of (ranks_from 1 l) p ->
  reach_avoiding d c x p.
Proof.
  intros Hnd H Hc. induction H as [x | x z y He Hb Hd IH].
  - apply avoid_refl. intros ->. lia.
  - apply avoid_step with z.
    + pose proof (down_rank d l z y Hnd Hd).
      pose proof (before_rank l 1 z x Hnd Hb). intros ->. lia.
    + exact He.
    + apply IH, Hc.
Qed.

(** ** [substitute] on a valid input *)

Lemma substitute_valid (g t : nx.Graph) (fixed restricted : list tuple)
      (r_idx : nat) (self0 : Substitute) :
  wf_graphb g = true ->
  wf_graphb t = true ->
  spans t g = true ->
  Substitute_init g t fixed restricted false = Ok self0 ->
  (r_idx < nx.number_of_nodes g)%nat ->
  exists root l sd self',
    nth_error (nx.nodes g) r_idx = Some root
    /\ nx.dfs_postorder_nodes (nx.to_directed t) root = Ok l
    /\ NoDup l
    /\ (forall x, In x l <-> In x (nx.nodes t))
    /\ substitute r_idx self0 = Ok (sd, self')
    /\ NoDup (map fst sd)
    /\ length sd = (nx.number_of_nodes t - 1)%nat
    /\ (forall c p,
           In (c, p) (map fst sd) <->
           edge (nx.to_directed t) p c
           /\ rank_of (ranks_from 1 l) c < rank_of (ranks_from 1 l) p)
    /\ (forall k v, In (k, v) sd -> (length v <= 1)%nat).
Proof.
  intros Hwg Hwt Hsp Hinit Hr.
  destruct (valid_instantiate g t fixed restricted r_idx self0 Hwt Hsp Hinit Hr)
    as [root [l [s1 [Hnth [Einst [Hsame [Hdfs Hinst]]]]]]].
  apply wf_graphb_wf in Hwg. apply wf_graphb_wf in Hwt.
  apply Substitute_init_Ok in Hinit. destruct Hinit as [Hself [Hcg Hct]].
  apply check_input_graph_Ok in Hcg. destruct Hcg as [_ [_ Hweighted]].
  apply check_input_tree_Ok in Hct. destruct Hct as [Hct [Hsub Htree]].
  apply check_input_graph_Ok in Hct. destruct Hct as [_ [Hloops _]].
  assert (Hgraph : graph s1 = g).
  { destruct Hsame as [Hg' _]. rewrite <- Hg', Hself. reflexivity. }
  pose proof (inst_nodup t l s1 Hinst) as Hnd.
  pose proof (inst_nodes t l s1 Hinst) as Hnodes.
  pose proof (inst_keys t l s1 Hinst) as Hkeys.
  pose proof (inst_succ t l s1 Hinst) as Hpruned.
  set (d' := directed s1) in *.
  set (d0 := nx.to_directed t).
  set (rk := rank_of (ranks_from 1 l)).
  assert (HK : forall a b, In (a, b) (nx.di_edges d') <->
                           edge d0 a b /\ rk b < rk a).
  { apply (kept_In t l d' Hwt Hloops Hnd Hnodes Hkeys Hpruned). }
  assert (Hend : forall a b, edge d0 a b -> In a l /\ In b l).
  { intros a b He. split; apply Hnodes; rewrite <- to_directed_keys.
    - apply (succ_of_In_keys d0 a b He).
    - apply (wf_closed t Hwt a b He). }
  assert (Hg_edge : forall a b, edge d0 a b -> nx.has_edge g a b = true).
  { intros a b He. apply (tree_edges_in_graph t g a b Hwt Hwg Hsub).
    apply edge_has_edge. exact He. }
  (* the weighted edges *)
  destruct (weigh_edges_ok g (nx.di_edges d')) as [ws [Ews [Hkw _]]].
  { intros u v Hin. apply HK in Hin. destruct Hin as [He _].
    apply (weighted_edge_weight g u v Hwg Hweighted). apply Hg_edge, He. }
  assert (Hws : forall e, In e ws -> In (swap (key_of e)) (nx.di_edges d')).
  { intros e He.
    assert (Hin : In (key_of e) (map swap (nx.di_edges d'))).
    { rewrite <- Hkw. apply in_map. exact He. }
    apply in_map_iff in Hin. destruct Hin as [[u v] [E Hin]].
    rewrite <- E. unfold swap. simpl. exact Hin. }
  destruct (with_keys_ok (postorder_nodes s1) ws) as [ks [Eks Hks]].
  { intros e He. apply Hws in He. unfold swap, key_of in He. simpl in He.
    apply HK in He. destruct He as [He _]. apply Hend in He.
    rewrite (inst_po t l s1 Hinst), map_fst_ranks_from. tauto. }
  set (oe := sort_by_key ks).
  assert (Hperm : Permutation (map key_of oe) (map swap (nx.di_edges d'))).
  { rewrite <- Hkw, <- Hks. apply Permutation_map. apply sort_by_key_perm. }
  assert (Epo : postordered_edges s1 = Ok (oe, s1)).
  { unfold postordered_edges. rewrite Hgraph. fold d'. rewrite Ews. simpl.
    rewrite Eks. reflexivity. }
  assert (Hswap_nd : NoDup (map swap (nx.di_edges d'))).
  { apply NoDup_map_inj.
    - intros [a b] [c e] E. unfold swap in E. simpl in E. inversion E.
      reflexivity.
    - apply (kept_NoDup t l d' Hwt Hnodes Hkeys Hpruned). }
  assert (Hoe_nd : NoDup (map key_of oe)).
  { apply (Permutation_NoDup (Permutation_sym Hperm)). exact Hswap_nd. }
  assert (Hoe_key : forall c p, In (c, p) (map key_of oe) <->
                                edge d0 p c /\ rk c < rk p).
  { intros c p. rewrite <- HK. split.
    - intros H. apply (Permutation_in _ Hperm) in H.
      apply in_map_iff in H. destruct H as [[u v] [E H]].
      unfold swap in E. simpl in E. inversion E. subst. exact H.
    - intros H. apply (Permutation_in _ (Permutation_sym Hperm)).
      apply in_map_iff. exists (p, c). split; [reflexivity | exact H]. }
  set (sd0 := map (fun e => (key_of e, @nil (Z * Z))) oe).
  assert (Esd0 : fold_left (fun d e => let '(_, a, b) := e in sd_set (a, b) [] d)
                           oe [] = sd0).
  { rewrite initial_dict; [reflexivity | exact Hoe_nd]. }
  assert (Hsd0_keys : map fst sd0 = map key_of oe).
  { unfold sd0. rewrite map_map. reflexivity. }
  destruct (substitute_loop_ok g t l s1 Hwg Hweighted
                               (fun x Hx => proj2 (Hnodes x) (spans_In t g x Hsp Hx))
                               Hinst Hgraph oe s1 sd0)
    as [sd [s' [Eloop [_ [Hkeys' [_ Hvals]]]]]].
  { apply cuts_only_refl. }
  { rewrite (inst_cuts t l s1 Hinst). intros e []. }
  { exact Hoe_nd. }
  { intros e He.
    assert (Hk : In (key_of e) (map key_of oe)) by (apply in_map, He).
    destruct e as [[w c] p]. unfold key_of in Hk. simpl in Hk.
    pose proof Hk as Hk'. apply Hoe_key in Hk'. destruct Hk' as [Hedge _].
    simpl. split; [apply (Hend p c Hedge)|]. split.
    - apply Hg_edge in Hedge. apply (has_edge_sym g p c Hwg) in Hedge.
      apply has_edge_In in Hedge. destruct Hedge as [nbrs [E _]].
      apply (dict_get_In_keys c g nbrs E).
    - rewrite Hsd0_keys. exact Hk. }
  exists root, l, sd, s'.
  split; [exact Hnth|]. split; [exact Hdfs|]. split; [exact Hnd|].
  split; [exact Hnodes|]. split.
  { unfold substitute.
    apply (bind_intro _ _ self0 s1 tt); [exact Einst|].
    apply (bind_intro _ _ s1 s1 oe); [exact Epo|].
    rewrite Esd0. exact Eloop. }
  assert (Hk_eq : map fst sd = map key_of oe) by (rewrite Hkeys'; exact Hsd0_keys).
  split; [rewrite Hk_eq; exact Hoe_nd|]. split.
  { rewrite <- (length_map fst sd), Hk_eq, length_map.
    unfold oe. rewrite (Permutation_length (sort_by_key_perm ks)).
    rewrite length_map.
    assert (El : length ks = length ws) by (rewrite <- Hks; apply eq_sym, length_map).
    rewrite El.
    assert (El2 : length ws = length (nx.di_edges d')).
    { rewrite <- (length_map key_of ws), Hkw, length_map. reflexivity. }
    rewrite El2.
    apply (kept_count t l d' Hwt Hloops Hnd Hnodes Hkeys Hpruned Htree). }
  split; [intros c p; rewrite Hk_eq; apply Hoe_key|].
  intros k v Hin.
  assert (Hk : In k (map key_of oe)).
  { rewrite <- Hk_eq. apply in_map_iff. exists (k, v). auto. }
  assert (H0 : sd_get k sd0 = Some []).
  { apply sd_get_In; [rewrite Hsd0_keys; exact Hoe_nd|].
    apply in_map_iff in Hk. destruct Hk as [e [E He]].
    unfold sd0. apply in_map_iff. exists e. rewrite E. auto. }
  destruct (Hvals k [] Hk H0) as [v' [Hv' Hlen]].
  assert (Hv : sd_get k sd = Some v).
  { apply sd_get_In; [rewrite Hk_eq; exact Hoe_nd | exact Hin]. }
  rewrite Hv in Hv'. inversion Hv'. subst v'. simpl in Hlen. lia.
Qed.

(** A tree that spans the graph has as many nodes as the graph. *)
Lemma spanning_same_count (g t : nx.Graph) :
  wf_graph g -> wf_graph t -> spans t g = true ->
  nx.is_connected g = Ok true -> nx.is_connected t = Ok true ->
  forallb (fun e => nx.has_edge g (fst e) (snd e)) (nx.edges t) = true ->
  nx.number_of_nodes t = nx.number_of_nodes g.
Proof.
  intros Hwg Hwt Hsp Hcg Hct Hsub.
  assert (Hgt : incl (nx.nodes g) (nx.nodes t)).
  { intros x Hx. apply (spans_In t g x Hsp Hx). }
  assert (Htg : incl (nx.nodes t) (nx.nodes g)).
  { assert (Hex : exists n0, In n0 (nx.nodes g)).
    { destruct g as [|[n0 nbrs0] g']; [discriminate|].
      exists n0. left. reflexivity. }
    destruct Hex as [n0 Hn0].
    intros v Hv.
    pose proof (is_connected_reach t Hwt Hct v n0 Hv (Hgt n0 Hn0)) as Hr.
    inversion Hr as [x E1 E2 | x z y He _ E1 E2]; subst.
    - exact Hn0.
    - apply edge_has_edge in He.
      apply (tree_edges_in_graph t g v z Hwt Hwg Hsub) in He.
      apply has_edge_In in He. destruct He as [nbrs [E _]].
      apply (dict_get_In_keys v g nbrs E). }
  unfold nx.number_of_nodes.
  rewrite <- (length_map fst t), <- (length_map fst g).
  apply Nat.le_antisymm.
  - apply NoDup_incl_length; [apply (wf_nodes t Hwt) | exact Htg].
  - apply NoDup_incl_length; [apply (wf_nodes g Hwg) | exact Hgt].
Qed.

(** The shape of the mapping returned on a valid input. *)
Lemma run_substitute_keys (g t : nx.Graph) (fixed restricted : list tuple)
      (r_idx : nat) (self0 : Substitute) :
  wf_graphb g = true ->
  wf_graphb t = true ->
  spans t g = true ->
  Substitute_init g t fixed restricted false = Ok self0 ->
  (r_idx < nx.number_of_nodes g)%nat ->
  exists root sd,
    nth_error (nx.nodes g) r_idx = Some root
    /\ run_substitute g t fixed restricted false r_idx = Ok sd
    /\ length sd = (nx.number_of_nodes g - 1)%nat
    /\ NoDup (map fst sd)
    /\ (forall c p, In (c, p) (map fst sd) -> child_parent t root c p)
    /\ (forall u v, nx.has_edge t u v = true ->
                    (In (u, v) (map fst sd) /\ ~ In (v, u) (map fst sd))
                    \/ (In (v, u) (map fst sd) /\ ~ In (u, v) (map fst sd)))
    /\ (forall k v, In (k, v) sd -> (length v <= 1)%nat).
Proof.
  intros Hwg Hwt Hsp Hinit Hr.
  destruct (substitute_valid g t fixed restricted r_idx self0 Hwg Hwt Hsp Hinit Hr)
    as [root [l [sd [s' [Hnth [Hdfs [Hnd [Hnodes [E [Hknd [Hlen [Hkey Hval]]]]]]]]]]]].
  pose proof Hinit as Hinit'.
  apply wf_graphb_wf in Hwg. apply wf_graphb_wf in Hwt.
  apply Substitute_init_Ok in Hinit. destruct Hinit as [_ [Hcg Hct]].
  apply check_input_graph_Ok in Hcg. destruct Hcg as [Hconn_g _].
  apply check_input_tree_Ok in Hct. destruct Hct as [Hct [Hsub _]].
  apply check_input_graph_Ok in Hct. destruct Hct as [Hconn_t [Hloops _]].
  exists root, sd. split; [exact Hnth|]. split.
  { unfold run_substitute. rewrite Hinit'. simpl. rewrite E. reflexivity. }
  split.
  { rewrite Hlen.
    rewrite (spanning_same_count g t Hwg Hwt Hsp Hconn_g Hconn_t Hsub).
    reflexivity. }
  split; [exact Hknd|]. split.
  { intros c p Hin. apply Hkey in Hin. destruct Hin as [He Hrk]. split.
    - apply edge_has_edge. apply (wf_symmetric t Hwt), He.
    - apply down_avoiding with l; [exact Hnd | | exact Hrk].
      apply (dfs_postorder_down _ root l (wf_closed t Hwt) Hdfs).
      apply Hnodes. rewrite <- to_directed_keys.
      apply (succ_of_In_keys _ p c He). }
  split; [|exact Hval].
  intros u v Huv. apply edge_has_edge in Huv.
  pose proof (wf_symmetric t Hwt u v Huv) as Hvu.
  assert (Hu : In u l).
  { apply Hnodes. rewrite <- to_directed_keys. apply (succ_of_In_keys _ u v Huv). }
  assert (Hv : In v l).
  { apply Hnodes. rewrite <- to_directed_keys. apply (succ_of_In_keys _ v u Hvu). }
  assert (Hne : rank_of (ranks_from 1 l) u <> rank_of (ranks_from 1 l) v).
  { intros Eq. apply (rank_of_inj l 1 u v Hnd Hu Hv) in Eq. subst v.
    apply edge_has_edge in Huv. rewrite (no_self_cycles t u Hloops) in Huv.
    discriminate. }
  rewrite !Hkey.
  destruct (Z.lt_ge_cases (rank_of (ranks_from 1 l) u) (rank_of (ranks_from 1 l) v))
    as [Hlt | Hge].
  - left. split; [split; assumption|]. intros [_ H]. lia.
  - right. split; [split; [exact Huv | lia]|]. intros [_ H]. lia.
Qed.

(** ** What a run that returns has done *)

Lemma cuts_step_refl (i : wedge) (q : list wedge) : cuts_step i q q.
Proof. split; [intros e He; right; exact He | auto]. Qed.

Lemma cuts_step_trans (i : wedge) (q1 q2 q3 : list wedge) :
  cuts_step i q1 q2 -> cuts_step i q2 q3 -> cuts_step i q1 q3.
Proof.
  intros [A1 A2] [B1 B2]. split.
  - intros e He. destruct (B1 e He) as [-> | H]; [left; reflexivity|].
    apply A1, H.
  - auto.
Qed.

Lemma cuts_step_add (i : wedge) (q : list wedge) :
  cuts_step i q (SortedSet.add i q).
Proof.
  split.
  - intros e He. apply add_In in He. exact He.
  - apply add_sorted.
Qed.

Lemma cuts_step_remove (i x : wedge) (q : list wedge) :
  cuts_step i q (SortedSet.remove x q).
Proof.
  split.
  - intros e He. apply remove_In in He. right. apply He.
  - apply remove_sorted.
Qed.

Lemma cuts_step_remove_if (i x : wedge) (q : list wedge) :
  cuts_step i q (if SortedSet.contains x q then SortedSet.remove x q else q).
Proof.
  destruct (SortedSet.contains x q);
    [apply cuts_step_remove | apply cuts_step_refl].
Qed.

(** *** Step 2.1 *)

Lemma incident_loop_candidates (self : Substitute) (node : Z) (nbrs : list Z) :
  forall inc,
    incident_loop self node nbrs = Ok inc ->
    (forall nb, In nb nbrs -> nx.has_edge (graph self) node nb = true) ->
    forall e, In e inc -> candidate self e /\ snd (fst e) = node.
Proof.
  induction nbrs as [|nb nbrs IH]; intros inc H Hn e He.
  - simpl in H. inversion H. subst. destruct He.
  - simpl in H.
    destruct (negb (tuple_in [node; nb] (restricted_edges self))) eqn:Er;
      destruct (negb (nx.has_edge (tree self) node nb)) eqn:Et; simpl in H;
      try (apply (IH inc H (fun x Hx => Hn x (or_intror Hx)) e He)).
    apply rbind_Ok in H. destruct H as [w [Hw H]].
    apply rbind_Ok in H. destruct H as [rest [Hrest H]].
    inversion H. subst inc. destruct He as [<- | He].
    + split; [|reflexivity]. unfold candidate. simpl.
      apply negb_true_iff in Er. apply negb_true_iff in Et.
      split; [apply Hn; left; reflexivity|]. split; [exact Er|].
      split; [exact Et | exact Hw].
    + apply (IH rest Hrest (fun x Hx => Hn x (or_intror Hx)) e He).
Qed.

Lemma find_incident_edges_candidates (node : Z) (self s' : Substitute)
      (inc : list wedge) :
  find_incident_edges node self = Ok (inc, s') ->
  s' = self /\ forall e, In e inc -> candidate self e /\ snd (fst e) = node.
Proof.
  unfold find_incident_edges. intros H.
  apply rbind_Ok in H. destruct H as [nbrs [Hn H]].
  apply rbind_Ok in H. destruct H as [inc' [Hi H]].
  inversion H. subst. split; [reflexivity|].
  apply (incident_loop_candidates s' node nbrs inc Hi).
  intros nb Hnb. unfold nx.neighbors in Hn.
  destruct (dict_get node (graph s')) as [ns|] eqn:E; [|discriminate].
  inversion Hn. subst. apply has_edge_In. exists ns. split; assumption.
Qed.

Lemma update_cuts_step (i_edge : wedge) (s s' : Substitute) (u : unit) :
  update_cuts i_edge s = Ok (u, s') ->
  cuts_only s s' /\ cuts_step i_edge (quasi_cuts s) (quasi_cuts s').
Proof.
  destruct i_edge as [[w a] b]. unfold update_cuts. intros H.
  do 5 bind_inv H.
  apply bind_Ok in H. destruct H as [ua [sa [Ga H]]].
  apply bind_Ok in H. destruct H as [ub [sb [Gb H]]].
  apply bind_Ok in H. destruct H as [cc [sc [Gc H]]].
  apply lift_Ok in Gc. destruct Gc as [Gc ->].
  (* step 2.1.a *)
  assert (Ha : cuts_only s sa
               /\ cuts_step (w, a, b) (quasi_cuts s) (quasi_cuts sa)).
  { destruct a2.
    - bind_inv Ga. apply modify_Ok in Ga. subst sa.
      split; [apply cuts_only_set|]. cbn [quasi_cuts set_quasi_cuts].
      apply cuts_step_trans with
        (if SortedSet.contains (w, b, a) (quasi_cuts s)
         then SortedSet.remove (w, b, a) (quasi_cuts s) else quasi_cuts s);
        [apply cuts_step_remove_if | apply cuts_step_add].
    - apply ret_Ok in Ga. destruct Ga as [_ ->].
      split; [apply cuts_only_refl | apply cuts_step_refl]. }
  destruct Ha as [Hc0 Hs0].
  (* step 2.1.b *)
  assert (Hb : cuts_only sa sb
               /\ cuts_step (w, a, b) (quasi_cuts sa) (quasi_cuts sb)).
  { destruct (step_b a0 a1).
    - bind_inv Gb. destruct (SortedSet.contains (w, b, a) (quasi_cuts sa)).
      + apply modify_Ok in Gb. subst sb.
        split; [apply cuts_only_set | apply cuts_step_remove].
      + apply ret_Ok in Gb. destruct Gb as [_ ->].
        split; [apply cuts_only_refl | apply cuts_step_refl].
    - apply ret_Ok in Gb. destruct Gb as [_ ->].
      split; [apply cuts_only_refl | apply cuts_step_refl]. }
  destruct Hb as [Hc1 Hs1].
  (* step 2.1.c *)
  assert (Hc : cuts_only sb s'
               /\ cuts_step (w, a, b) (quasi_cuts sb) (quasi_cuts s')).
  { destruct cc.
    - bind_inv H. apply modify_Ok in H. subst s'.
      split; [apply cuts_only_set | apply cuts_step_add].
    - apply ret_Ok in H. destruct H as [_ ->].
      split; [apply cuts_only_refl | apply cuts_step_refl]. }
  destruct Hc as [Hc2 Hs2].
  split.
  - apply cuts_only_trans with sa; [exact Hc0|].
    apply cuts_only_trans with sb; assumption.
  - apply cuts_step_trans with (quasi_cuts sa); [exact Hs0|].
    apply cuts_step_trans with (quasi_cuts sb); assumption.
Qed.

Lemma candidate_cuts_only (s s' : Substitute) (e : wedge) :
  cuts_only s s' -> (candidate s' e <-> candidate s e).
Proof.
  intros [Hg [Ht [_ [Hr _]]]]. unfold candidate. rewrite Hg, Ht, Hr. tauto.
Qed.

Lemma source_match_cuts_only (s s' : Substitute) (w node : Z) (e : wedge) :
  cuts_only s s' -> source_match s' w node e = source_match s w node e.
Proof.
  intros [_ [_ [_ [_ [_ [_ [Hpo Hds]]]]]]]. unfold source_match.
  rewrite Hpo, Hds. reflexivity.
Qed.

Lemma ranked_within_cuts_only (s s' : Substitute) (node x : Z) :
  cuts_only s s' -> (ranked_within s' node x <-> ranked_within s node x).
Proof.
  intros [_ [_ [_ [_ [_ [_ [Hpo Hds]]]]]]]. unfold ranked_within.
  rewrite Hpo, Hds. tauto.
Qed.

Lemma ranked_outside_cuts_only (s s' : Substitute) (node x : Z) :
  cuts_only s s' -> (ranked_outside s' node x <-> ranked_outside s node x).
Proof.
  intros [_ [_ [_ [_ [_ [_ [Hpo Hds]]]]]]]. unfold ranked_outside.
  rewrite Hpo, Hds. tauto.
Qed.

Lemma good_substitute_cuts_only (s s' : Substitute) (w c : Z) (sub : Z * Z) :
  cuts_only s s' -> (good_substitute s' w c sub <-> good_substitute s w c sub).
Proof.
  intros H. unfold good_substitute.
  rewrite (candidate_cuts_only s s' _ H), (ranked_within_cuts_only s s' _ _ H),
    (ranked_outside_cuts_only s s' _ _ H). tauto.
Qed.

Lemma cuts_only_sym (s s' : Substitute) : cuts_only s s' -> cuts_only s' s.
Proof.
  unfold cuts_only. intros [A1 [A2 [A3 [A4 [A5 [A6 [A7 A8]]]]]]].
  repeat split; congruence.
Qed.

Lemma update_cuts_loop_step (inc : list wedge) :
  forall s s' u,
    update_cuts_loop inc s = Ok (u, s') ->
    cuts_only s s'
    /\ (sorted_cuts (quasi_cuts s) -> sorted_cuts (quasi_cuts s'))
    /\ (forall e, In e (quasi_cuts s') -> In e inc \/ In e (quasi_cuts s)).
Proof.
  induction inc as [|i inc IH]; intros s s' u H; simpl in H.
  - apply ret_Ok in H. destruct H as [_ ->].
    split; [apply cuts_only_refl|]. split; [auto|]. intros e He. right. exact He.
  - apply bind_Ok in H. destruct H as [u1 [s1 [G H]]].
    apply update_cuts_step in G. destruct G as [Hc [Hin Hso]].
    apply IH in H. destruct H as [Hc' [Hso' Hin']].
    split; [apply cuts_only_trans with s1; assumption|].
    split; [auto|].
    intros e He. destruct (Hin' e He) as [H1 | H1].
    + left. right. exact H1.
    + destruct (Hin e H1) as [-> | H2]; [left; left; reflexivity|].
      right. exact H2.
Qed.

(** *** Step 2.2 *)

Lemma scan_cuts_Some (s : Substitute) (w node : Z) (cuts : list wedge)
      (e : wedge) :
  scan_cuts (postorder_nodes s) (descendants s) w node cuts = Ok (Some e) ->
  In e cuts /\ source_match s w node e = true.
Proof.
  induction cuts as [|[[x y] z] cuts IH]; simpl; [discriminate|].
  unfold dict_item.
  destruct (dict_get y (postorder_nodes s)) as [r|] eqn:Er; simpl;
    [|discriminate].
  destruct (dict_get node (descendants s)) as [dn|] eqn:Ed; simpl;
    [|discriminate].
  destruct (memZ r dn && (x =? w)) eqn:Em.
  - intros H. inversion H. subst. split; [left; reflexivity|].
    unfold source_match. rewrite Er, Ed. exact Em.
  - intros H. destruct (IH H) as [H1 H2]. split; [right; exact H1 | exact H2].
Qed.

Lemma scan_cuts_None (s : Substitute) (w node : Z) (cuts : list wedge) :
  scan_cuts (postorder_nodes s) (descendants s) w node cuts = Ok None ->
  forall e, In e cuts -> source_match s w node e = false.
Proof.
  induction cuts as [|[[x y] z] cuts IH]; simpl; [intros _ e []|].
  unfold dict_item.
  destruct (dict_get y (postorder_nodes s)) as [r|] eqn:Er; simpl;
    [|discriminate].
  destruct (dict_get node (descendants s)) as [dn|] eqn:Ed; simpl;
    [|discriminate].
  destruct (memZ r dn && (x =? w)) eqn:Em; [discriminate|].
  intros H e [<- | He]; [|apply (IH H e He)].
  unfold source_match. rewrite Er, Ed. exact Em.
Qed.

Lemma search_loop_result (w node p : Z) (fuel : nat) :
  forall s r s',
    search_loop fuel (w, node, p) s = Ok (r, s') ->
    cuts_only s s'
    /\ incl (quasi_cuts s') (quasi_cuts s)
    /\ (sorted_cuts (quasi_cuts s) -> sorted_cuts (quasi_cuts s'))
    /\ (forall e, In e (quasi_cuts s) -> ~ In e (quasi_cuts s') ->
                  source_match s w node e = true
                  /\ ranked_within s node (snd e))
    /\ match r with
       | Some ce =>
           In ce (quasi_cuts s')
           /\ source_match s w node ce = true
           /\ ranked_outside s node (snd ce)
       | None =>
           forall e, In e (quasi_cuts s') -> source_match s w node e = false
       end.
Proof.
  induction fuel as [|fuel IH]; intros s r s' H; simpl in H.
  - unfold lift in H. discriminate.
  - apply bind_Ok in H. destruct H as [cut [s0 [G H]]].
    assert (Es0 : s0 = s) by (apply (equal_weight_descendant_state _ _ _ _ G)).
    subst s0. unfold equal_weight_descendant in G.
    destruct (scan_cuts _ _ w node (quasi_cuts s)) as [found|] eqn:Escan;
      simpl in G; [|discriminate].
    inversion G. subst found. clear G.
    destruct cut as [[[x y] z]|].
    + destruct (scan_cuts_Some s w node _ _ Escan) as [Hin Hmatch].
      do 4 bind_inv H.
      apply dict_item_Ok in G. apply dict_item_Ok in G0.
      destruct (memZ a a0) eqn:Em.
      * do 2 bind_inv H. apply IH in H.
        destruct H as [Hc [Hincl [Hso [Hrem Hres]]]].
        set (s2 := set_quasi_cuts (SortedSet.remove (x, y, z) (quasi_cuts s)) s) in *.
        assert (Hc2 : cuts_only s s2) by apply cuts_only_set.
        split; [apply cuts_only_trans with s2; assumption|]. split.
        { intros e He. apply Hincl in He. simpl in He. apply remove_In in He.
          apply He. }
        split.
        { intros Hs. apply Hso. simpl. apply remove_sorted, Hs. }
        split.
        { intros e He Hne.
          destruct (wedge_eqb (x, y, z) e) eqn:Ee.
          - apply wedge_eqb_eq in Ee. subst e. split; [exact Hmatch|].
            exists a, a0. simpl. auto.
          - assert (He2 : In e (quasi_cuts s2)).
            { simpl. apply remove_In. split; [exact He|]. intros ->.
              rewrite wedge_eqb_refl in Ee. discriminate. }
            destruct (Hrem e He2 Hne) as [H1 H2].
            rewrite (source_match_cuts_only s s2 _ _ _ Hc2) in H1.
            apply (ranked_within_cuts_only s s2 _ _ Hc2) in H2. auto. }
        { destruct r as [ce|].
          - destruct Hres as [H1 [H2 H3]]. split; [exact H1|].
            rewrite (source_match_cuts_only s s2 _ _ _ Hc2) in H2.
            apply (ranked_outside_cuts_only s s2 _ _ Hc2) in H3. auto.
          - intros e He.
            rewrite <- (source_match_cuts_only s s2 _ _ _ Hc2). apply Hres, He. }
      * apply ret_Ok in H. destruct H as [Hr ->]. inversion Hr. subst r.
        split; [apply cuts_only_refl|]. split; [apply incl_refl|].
        split; [auto|]. split; [intros e He Hne; contradiction|].
        split; [exact Hin|]. split; [exact Hmatch|].
        exists a, a0. simpl. auto.
    + apply ret_Ok in H. destruct H as [Hr ->]. subst r.
      split; [apply cuts_only_refl|]. split; [apply incl_refl|].
      split; [auto|]. split; [intros e He Hne; contradiction|].
      apply (scan_cuts_None s w node _ Escan).
Qed.

(** *** One round, the loop, the run *)

Lemma source_match_weight (s : Substitute) (w node : Z) (e : wedge) :
  source_match s w node e = true ->
  fst (fst e) = w /\ ranked_within s node (snd (fst e)).
Proof.
  destruct e as [[x y] z]. unfold source_match. simpl.
  destruct (dict_get y (postorder_nodes s)) as [r|] eqn:Er; [|discriminate].
  destruct (dict_get node (descendants s)) as [dn|] eqn:Ed; [|discriminate].
  intros H. apply andb_true_iff in H. destruct H as [H1 H2].
  apply Z.eqb_eq in H2. split; [exact H2|]. exists r, dn. auto.
Qed.

Lemma substitute_step_result (s s' : Substitute) (w c p : Z)
      (sd sd' : subst_dict) :
  substitute_step (w, c, p) sd s = Ok (sd', s') ->
  cuts_inv s ->
  cuts_only s s' /\ cuts_inv s'
  /\ (sd' = sd
      \/ exists v sub,
          sd_get (c, p) sd = Some v
          /\ sd' = sd_set (c, p) (v ++ [sub]) sd
          /\ good_substitute s w c sub
          /\ tuple_in [w; c; p] (fixed_edges s) = false).
Proof.
  unfold substitute_step. intros H [Hsorted Hcand].
  apply bind_Ok in H. destruct H as [inc [s0 [Ginc H]]].
  apply find_incident_edges_candidates in Ginc. destruct Ginc as [-> Hinc].
  apply bind_Ok in H. destruct H as [u [s2 [Gup H]]].
  apply update_cuts_loop_step in Gup. destruct Gup as [Hc2 [Hso2 Hin2]].
  assert (Hinv2 : cuts_inv s2).
  { split; [apply Hso2, Hsorted|]. intros e He.
    apply (candidate_cuts_only s s2 e Hc2).
    destruct (Hin2 e He) as [H1 | H1]; [apply Hinc, H1 | apply Hcand, H1]. }
  bind_inv H.
  assert (Efix : fixed_edges s2 = fixed_edges s) by apply Hc2.
  destruct (negb (tuple_in (tuple_of_wedge (w, c, p)) (fixed_edges s2))) eqn:Ef.
  - bind_inv H.
    apply bind_Ok in H. destruct H as [found [s3 [Gs H]]].
    apply search_loop_result in Gs.
    destruct Gs as [Hc3 [Hincl [Hso3 [_ Hres]]]].
    assert (Hc03 : cuts_only s s3) by (apply cuts_only_trans with s2; assumption).
    assert (Hinv3 : cuts_inv s3).
    { split; [apply Hso3, Hinv2|]. intros e He.
      apply (candidate_cuts_only s2 s3 e Hc3). apply Hinv2, Hincl, He. }
    destruct found as [[[x y] z]|].
    + apply lift_Ok in H. destruct H as [H ->].
      split; [exact Hc03|]. split; [exact Hinv3|]. right.
      unfold sd_append in H.
      destruct (sd_get (c, p) sd) as [v|] eqn:Ev; [|discriminate].
      inversion H. subst sd'. exists v, (y, z).
      split; [reflexivity|]. split; [reflexivity|].
      destruct Hres as [Hin [Hm Hout]].
      destruct (source_match_weight s2 w c _ Hm) as [Hw Hwithin].
      simpl in Hw, Hwithin, Hout. subst x.
      split.
      * apply (good_substitute_cuts_only s s2 w c (y, z) Hc2).
        split; [|split; assumption].
        apply (candidate_cuts_only s2 s3 _ Hc3). apply Hinv3, Hin.
      * apply negb_true_iff in Ef. rewrite Efix in Ef. exact Ef.
    + apply ret_Ok in H. destruct H as [-> ->].
      split; [exact Hc03|]. split; [exact Hinv3|]. left. reflexivity.
  - apply ret_Ok in H. destruct H as [-> ->].
    split; [exact Hc2|]. split; [exact Hinv2|]. left. reflexivity.
Qed.

Lemma sd_set_In (k key : Z * Z) (v val : list (Z * Z)) (d : subst_dict) :
  In (k, v) (sd_set key val d) -> (k, v) = (key, val) \/ In (k, v) d.
Proof.
  induction d as [|[k0 v0] d IH]; simpl.
  - intros [H | []]. left. symmetry. exact H.
  - destruct (pair_eqb key k0).
    + intros [H | H]; [left; symmetry; exact H | right; right; exact H].
    + intros [H | H]; [right; left; exact H|].
      destruct (IH H) as [H1 | H1]; [left; exact H1 | right; right; exact H1].
Qed.

Lemma sd_get_Some_entry (k : Z * Z) (v : list (Z * Z)) (d : subst_dict) :
  sd_get k d = Some v -> In (k, v) d.
Proof.
  induction d as [|[k0 v0] d IH]; simpl; [discriminate|].
  destruct (pair_eqb k k0) eqn:E.
  - apply pair_eqb_eq in E. subst. intros H. inversion H. left. reflexivity.
  - intros H. right. apply IH, H.
Qed.

(** Whatever the loop adds to the mapping was recorded by step 2.2.c for
    the tree edge of the key, which is not in the fixed container. *)
Lemma substitute_loop_result (es : list wedge) :
  forall s s' sd sd',
    substitute_loop es sd s = Ok (sd', s') ->
    cuts_inv s ->
    cuts_only s s' /\ cuts_inv s'
    /\ forall k v', In (k, v') sd' ->
         exists v extra,
           In (k, v) sd /\ v' = v ++ extra
           /\ forall sub, In sub extra ->
                exists w, In (w, fst k, snd k) es
                          /\ good_substitute s w (fst k) sub
                          /\ tuple_in [w; fst k; snd k] (fixed_edges s) = false.
Proof.
  induction es as [|[[w c] p] es IH]; intros s s' sd sd' H Hinv; simpl in H.
  - apply ret_Ok in H. destruct H as [-> ->].
    split; [apply cuts_only_refl|]. split; [exact Hinv|].
    intros k v' Hin. exists v', []. rewrite app_nil_r.
    split; [exact Hin|]. split; [reflexivity | intros sub []].
  - apply bind_Ok in H. destruct H as [sd2 [s2 [G H]]].
    apply substitute_step_result in G; [|exact Hinv].
    destruct G as [Hc2 [Hinv2 Hsd2]].
    apply IH in H; [|exact Hinv2]. destruct H as [Hc' [Hinv' Hall]].
    split; [apply cuts_only_trans with s2; assumption|].
    split; [exact Hinv'|].
    intros k v' Hin. destruct (Hall k v' Hin) as [v2 [extra [Hin2 [Ev' Hextra]]]].
    assert (Hextra' : forall sub, In sub extra ->
              exists w0, In (w0, fst k, snd k) ((w, c, p) :: es)
                         /\ good_substitute s w0 (fst k) sub
                         /\ tuple_in [w0; fst k; snd k] (fixed_edges s) = false).
    { intros sub Hsub. destruct (Hextra sub Hsub) as [w0 [H1 [H2 H3]]].
      exists w0. split; [right; exact H1|]. split.
      - apply (good_substitute_cuts_only s s2 w0 (fst k) sub Hc2). exact H2.
      - destruct Hc2 as [_ [_ [Hf _]]]. rewrite <- Hf. exact H3. }
    destruct Hsd2 as [-> | [v [sub [Hv [-> [Hgood Hfix]]]]]].
    + exists v2, extra. split; [exact Hin2|]. split; [exact Ev' | exact Hextra'].
    + apply sd_set_In in Hin2. destruct Hin2 as [E | Hin2].
      * inversion E. subst k v2. exists v, ([sub] ++ extra).
        split; [apply sd_get_Some_entry, Hv|].
        split; [rewrite Ev', <- app_assoc; reflexivity|].
        intros sub0 Hsub0. apply in_app_or in Hsub0.
        destruct Hsub0 as [[<- | []] | Hsub0]; [|apply Hextra', Hsub0].
        exists w. simpl. split; [left; reflexivity|]. split; assumption.
      * exists v2, extra. split; [exact Hin2|].
        split; [exact Ev' | exact Hextra'].
Qed.

Lemma initial_dict_values (es : list wedge) :
  forall acc k v,
    In (k, v) (fold_left (fun d e => let '(_, a, b) := e in sd_set (a, b) [] d)
                         es acc) ->
    v = [] \/ In (k, v) acc.
Proof.
  induction es as [|[[w a] b] es IH]; intros acc k v H; simpl in H.
  - right. exact H.
  - apply IH in H. destruct H as [H | H]; [left; exact H|].
    apply sd_set_In in H. destruct H as [H | H].
    + inversion H. left. reflexivity.
    + right. exact H.
Qed.

Lemma weigh_edges_result (g : nx.Graph) (es : list (Z * Z)) :
  forall ws,
    weigh_edges g es = Ok ws ->
    forall e, In e ws ->
              nx.edge_weight g (snd e) (snd (fst e)) = Ok (fst (fst e))
              /\ In (snd e, snd (fst e)) es.
Proof.
  induction es as [|[u v] es IH]; intros ws H e He; simpl in H.
  - inversion H. subst. destruct He.
  - apply rbind_Ok in H. destruct H as [w [Hw H]].
    apply rbind_Ok in H. destruct H as [rest [Hrest H]].
    inversion H. subst ws. destruct He as [<- | He].
    + simpl. split; [exact Hw | left; reflexivity].
    + destruct (IH rest Hrest e He) as [H1 H2].
      split; [exact H1 | right; exact H2].
Qed.

Lemma with_keys_result (po : list (Z * Z)) (es : list wedge) :
  forall ks, with_keys po es = Ok ks -> map snd ks = es.
Proof.
  induction es as [|[[w a] b] es IH]; intros ks H; simpl in H.
  - inversion H. reflexivity.
  - apply rbind_Ok in H. destruct H as [ra [_ H]].
    apply rbind_Ok in H. destruct H as [rb [_ H]].
    apply rbind_Ok in H. destruct H as [rest [Hrest H]].
    inversion H. simpl. rewrite (IH rest Hrest). reflexivity.
Qed.

Lemma postordered_edges_result (s s' : Substitute) (oe : list wedge) :
  postordered_edges s = Ok (oe, s') ->
  s' = s
  /\ forall e, In e oe ->
       nx.edge_weight (graph s) (snd e) (snd (fst e)) = Ok (fst (fst e))
       /\ In (snd e, snd (fst e)) (nx.di_edges (directed s)).
Proof.
  unfold postordered_edges. intros H.
  apply rbind_Ok in H. destruct H as [ws [Hws H]].
  apply rbind_Ok in H. destruct H as [ks [Hks H]].
  inversion H. subst. split; [reflexivity|].
  intros e He. apply (weigh_edges_result _ _ ws Hws).
  rewrite <- (with_keys_result _ _ ks Hks).
  apply (Permutation_in e (sort_by_key_perm ks)). exact He.
Qed.

Lemma instantiate_result (r_idx : nat) (s s' : Substitute) (u : unit) :
  instantiate_substitute_variables r_idx s = Ok (u, s') ->
  quasi_cuts s' = [] /\ same_inputs s s'.
Proof.
  intros H. split.
  - unfold instantiate_substitute_variables in H.
    bind_inv H. bind_inv H.
    apply bind_Ok in H. destruct H as [pd [s1 [_ H]]].
    bind_inv H. apply modify_Ok in H. subst s'. reflexivity.
  - apply (keeps_instantiate r_idx s u s' H).
Qed.

(** A run of [substitute], taken apart. *)
Lemma substitute_parts (r_idx : nat) (s s' : Substitute) (sd : subst_dict) :
  substitute r_idx s = Ok (sd, s') ->
  exists s1 oe,
    instantiate_substitute_variables r_idx s = Ok (tt, s1)
    /\ postordered_edges s1 = Ok (oe, s1)
    /\ substitute_loop
         oe (fold_left (fun d e => let '(_, a, b) := e in sd_set (a, b) [] d) oe [])
         s1 = Ok (sd, s').
Proof.
  unfold substitute. intros H.
  apply bind_Ok in H. destruct H as [[] [s1 [G1 H]]].
  apply bind_Ok in H. destruct H as [oe [s1' [G2 H]]].
  pose proof (postordered_edges_result _ _ _ G2) as [-> _].
  exists s1, oe. auto.
Qed.

(** ** The subtree of a node and the exchange of a tree edge *)

Lemma joined_trans (R : Z -> Z -> Prop) (a b c : Z) :
  joined R a b -> joined R b c -> joined R a c.
Proof.
  induction 1 as [a | a x b Hr _ IH]; intros H; [exact H|].
  apply joined_step with x; [exact Hr | apply IH, H].
Qed.

Lemma joined_sym (R : Z -> Z -> Prop) (a b : Z) :
  (forall u v, R u v -> R v u) -> joined R a b -> joined R b a.
Proof.
  intros Hs. induction 1 as [a | a x b Hr _ IH]; [apply joined_refl|].
  apply joined_trans with x; [exact IH|].
  apply joined_step with a; [apply Hs, Hr | apply joined_refl].
Qed.

Section Subtree.

Variable t : nx.Graph.
Variable l : list Z.
Variable s : Substitute.

Hypothesis Hwf : wf_graph t.
Hypothesis Hinst : instantiated t l s.

Let d0 := nx.to_directed t.
Let rk := rank_of (ranks_from 1 l).

Lemma down_pruned (a x : Z) :
  down d0 l a x -> reach (directed s) a x.
Proof.
  induction 1 as [a | a b x He Hb _ IH]; [apply reach_refl|].
  apply reach_step with b; [|exact IH].
  assert (Ha : In a l).
  { destruct Hb as [l1 [l2 [l3 E]]]. rewrite E. apply in_or_app. right.
    right. apply in_or_app. right. left. reflexivity. }
  apply (pruned_edge d0 l (directed s) (inst_succ t l s Hinst) a b Ha).
  split; [exact He|].
  apply before_upto; [apply (inst_nodup t l s Hinst) | exact Hb].
Qed.

Variable c : Z.
Variables pre blk0 post : list Z.

Hypothesis El : l = pre ++ blk0 ++ c :: post.
Hypothesis Hdown : forall y, In y blk0 -> down d0 (blk0 ++ [c]) c y.
Hypothesis Hno :
  forall z y, In z (blk0 ++ [c]) -> In y pre -> ~ edge d0 y z.

Lemma block_is_reach (x : Z) :
  reach (directed s) c x <-> In x (blk0 ++ [c]).
Proof.
  apply (block_reach d0 l (directed s) (wf_symmetric t Hwf)
                     (inst_nodup t l s Hinst) (inst_succ t l s Hinst)
                     c pre blk0 post El Hdown).
  intros z y Hz Hy. apply Hno; assumption.
Qed.

Lemma block_In (x : Z) : In x (blk0 ++ [c]) -> In x l.
Proof.
  intros Hx. rewrite El. apply in_or_app. right.
  apply in_app_or in Hx. destruct Hx as [Hx | [<- | []]].
  - apply in_or_app. left. exact Hx.
  - apply in_or_app. right. left. reflexivity.
Qed.

Lemma block_ranks :
  map rk (blk0 ++ [c])
  = range (1 + Z.of_nat (length pre)) (S (length blk0)).
Proof.
  assert (El' : l = pre ++ (blk0 ++ [c]) ++ post).
  { rewrite El. rewrite <- app_assoc. reflexivity. }
  unfold rk. rewrite El' at 1. rewrite ranks_consecutive.
  - rewrite length_app. simpl. rewrite Nat.add_1_r. reflexivity.
  - rewrite <- El'. apply (inst_nodup t l s Hinst).
Qed.

Lemma rank_in_block (x : Z) :
  In x l ->
  (memZ (rk x) (range (1 + Z.of_nat (length pre)) (S (length blk0))) = true
   <-> In x (blk0 ++ [c])).
Proof.
  intros Hx. rewrite <- block_ranks, memZ_In, in_map_iff. split.
  - intros [b [E Hb]].
    apply (rank_of_inj l 1 b x (inst_nodup t l s Hinst) (block_In b Hb) Hx) in E.
    subst. exact Hb.
  - intros H. exists x. auto.
Qed.

Lemma descendants_at_c :
  dict_get c (descendants s)
  = Some (range (1 + Z.of_nat (length pre)) (S (length blk0))).
Proof.
  apply (inst_desc t l s Hinst c pre blk0 post El Hdown).
  intros z y Hz Hy. apply Hno; assumption.
Qed.

Lemma rank_lookup (x : Z) (r : Z) :
  dict_get x (postorder_nodes s) = Some r -> In x l /\ r = rk x.
Proof.
  rewrite (inst_po t l s Hinst). intros H. split.
  - apply dict_get_In_keys in H. rewrite map_fst_ranks_from in H. exact H.
  - unfold rk, rank_of. rewrite H. reflexivity.
Qed.

(** The descendant ranks of [c] are the ranks of the nodes below [c] in the
    pruned graph. *)
Lemma ranked_within_reach (x : Z) :
  ranked_within s c x <-> In x l /\ reach (directed s) c x.
Proof.
  unfold ranked_within. rewrite descendants_at_c. split.
  - intros [r [dn [Hr [Hd Hm]]]]. inversion Hd. subst dn.
    destruct (rank_lookup x r Hr) as [Hx ->]. split; [exact Hx|].
    apply block_is_reach. apply (rank_in_block x Hx). exact Hm.
  - intros [Hx Hreach]. exists (rk x), (range (1 + Z.of_nat (length pre)) (S (length blk0))).
    split.
    + rewrite (inst_po t l s Hinst). unfold rk, rank_of.
      assert (Hk : In x (map fst (ranks_from 1 l))).
      { rewrite map_fst_ranks_from. exact Hx. }
      apply In_keys_dict_get in Hk. destruct Hk as [r Hr]. rewrite Hr.
      reflexivity.
    + split; [reflexivity|]. apply (rank_in_block x Hx).
      apply block_is_reach. exact Hreach.
Qed.

Lemma ranked_outside_reach (x : Z) :
  ranked_outside s c x <-> In x l /\ ~ reach (directed s) c x.
Proof.
  unfold ranked_outside. rewrite descendants_at_c. split.
  - intros [r [dn [Hr [Hd Hm]]]]. inversion Hd. subst dn.
    destruct (rank_lookup x r Hr) as [Hx ->]. split; [exact Hx|].
    intros Hreach. apply block_is_reach in Hreach.
    apply (rank_in_block x Hx) in Hreach. congruence.
  - intros [Hx Hn]. exists (rk x), (range (1 + Z.of_nat (length pre)) (S (length blk0))).
    split.
    + rewrite (inst_po t l s Hinst). unfold rk, rank_of.
      assert (Hk : In x (map fst (ranks_from 1 l))).
      { rewrite map_fst_ranks_from. exact Hx. }
      apply In_keys_dict_get in Hk. destruct Hk as [r Hr]. rewrite Hr.
      reflexivity.
    + split; [reflexivity|].
      destruct (memZ (rk x) _) eqn:Em; [|reflexivity].
      exfalso. apply Hn. apply block_is_reach.
      apply (rank_in_block x Hx). exact Em.
Qed.

End Subtree.

Lemma edge_source_key (d : nx.DiGraph) (a b : Z) :
  edge d a b -> In a (map fst d).
Proof.
  unfold edge, nx.succ_of. destruct (dict_get a d) as [sc|] eqn:E; [|intros []].
  intros _. apply dict_get_In_keys in E. exact E.
Qed.

Section Exchange.

Variable t : nx.Graph.
Variable l : list Z.
Variable s : Substitute.

Hypothesis Hwf : wf_graph t.
Hypothesis Hinst : instantiated t l s.

Let d0 := nx.to_directed t.
Let rk := rank_of (ranks_from 1 l).

Variables root c p y z : Z.

Hypothesis Hloop : forall x, nx.has_edge t x x = false.
Hypothesis Hroot : forall x, In x l -> down d0 l root x.
Hypothesis Hedge : edge (directed s) p c.
Hypothesis Hy : ranked_within s c y.
Hypothesis Hz : ranked_outside s c z.

Let R := exchanged t c p y z.

Lemma exchanged_sym (u v : Z) : R u v -> R v u.
Proof.
  unfold R, exchanged. intros [[He [H1 H2]] | [H | H]].
  - left. split; [apply has_edge_sym; assumption|].
    split; intros E; inversion E; subst; [apply H2 | apply H1]; reflexivity.
  - right. right. inversion H. reflexivity.
  - right. left. inversion H. reflexivity.
Qed.

Lemma exchange_parent : In p l /\ edge d0 p c /\ before l c p.
Proof.
  assert (Hp : In p l).
  { apply (inst_nodes t l s Hinst). rewrite <- (inst_keys t l s Hinst).
    apply edge_source_key with c. exact Hedge. }
  split; [exact Hp|].
  destruct (proj1 (pruned_edge d0 l (directed s) (inst_succ t l s Hinst)
                               p c Hp) Hedge) as [He Hu].
  split; [exact He|].
  assert (Hpc : p <> c).
  { intros E. rewrite <- E in He.
    apply edge_has_edge in He. rewrite Hloop in He. discriminate. }
  apply in_split in Hp. destruct Hp as [l1 [l2 El]].
  assert (Hnd : NoDup l) by apply (inst_nodup t l s Hinst).
  assert (Hn1 : ~ In p l1).
  { rewrite El in Hnd. apply NoDup_remove_2 in Hnd. intros H. apply Hnd.
    apply in_or_app. left. exact H. }
  rewrite El in Hu. rewrite upto_split in Hu by exact Hn1.
  apply in_app_or in Hu. destruct Hu as [Hu | [Hu | []]]; [|congruence].
  apply in_split in Hu. destruct Hu as [a1 [a2 E1]].
  exists a1, a2, l2. rewrite El, E1. rewrite <- app_assoc. reflexivity.
Qed.

Lemma exchange_decompose :
  exists pre blk0 post,
    l = pre ++ blk0 ++ c :: post
    /\ (forall x, In x blk0 -> down d0 (blk0 ++ [c]) c x)
    /\ (forall b a, In b (blk0 ++ [c]) -> In a pre -> ~ edge d0 a b).
Proof.
  destruct exchange_parent as [_ [_ [l1 [l2 [l3 E]]]]].
  assert (Hc : In c l).
  { rewrite E. apply in_or_app. right. left. reflexivity. }
  destruct (instantiated_node t l s c Hinst Hc)
    as [pre [blk0 [post [El [_ [_ [Hd Hn]]]]]]].
  exists pre, blk0, post. auto.
Qed.

Lemma parent_not_below : ~ reach (directed s) c p.
Proof.
  destruct exchange_decompose as [pre [blk0 [post [El [Hd Hn]]]]].
  destruct exchange_parent as [Hp [_ Hb]].
  assert (Hnd : NoDup l) by apply (inst_nodup t l s Hinst).
  intros Hr.
  apply (block_is_reach t l s Hwf Hinst c pre blk0 post El Hd Hn) in Hr.
  pose proof (before_rank l 1 c p Hnd Hb) as Hlt.
  apply in_app_or in Hr. destruct Hr as [Hr | [Hr | []]].
  - apply in_split in Hr. destruct Hr as [b1 [b2 Eb]].
    assert (Hb' : before l p c).
    { exists (pre ++ b1), b2, post. rewrite El, Eb.
      rewrite <- !app_assoc. reflexivity. }
    pose proof (before_rank l 1 p c Hnd Hb'). lia.
  - rewrite Hr in Hlt. lia.
Qed.

Lemma below_closed (a x : Z) :
  down d0 l a x -> reach (directed s) c a -> reach (directed s) c x.
Proof.
  intros Hd Hr. apply reach_trans with a; [exact Hr|].
  apply (down_pruned t l s Hinst). exact Hd.
Qed.

Lemma joined_below (a x : Z) :
  reach (directed s) a x -> reach (directed s) c a -> joined R a x.
Proof.
  induction 1 as [a | a b x He _ IH]; intros Hc; [apply joined_refl|].
  assert (Hcb : reach (directed s) c b).
  { apply reach_trans with a; [exact Hc|].
    apply reach_step with b; [exact He | apply reach_refl]. }
  apply joined_step with b; [|apply IH, Hcb].
  left.
  assert (Ha : In a l).
  { apply (inst_nodes t l s Hinst). rewrite <- (inst_keys t l s Hinst).
    apply edge_source_key with b. exact He. }
  apply (pruned_edge d0 l (directed s) (inst_succ t l s Hinst) a b Ha) in He.
  destruct He as [He _]. split; [apply edge_has_edge, He|].
  split; intros E; inversion E; subst; apply parent_not_below; assumption.
Qed.

Lemma joined_outside (a x : Z) :
  down d0 l a x -> ~ reach (directed s) c x -> joined R a x.
Proof.
  induction 1 as [a | a b x He Hb Hd IH]; intros Hn; [apply joined_refl|].
  apply joined_step with b; [|apply IH, Hn].
  left. split; [apply edge_has_edge, He|].
  split; intros E; inversion E; subst; apply Hn.
  - apply below_closed with c; [|apply reach_refl].
    apply down_step with p; assumption.
  - apply below_closed with c; [exact Hd | apply reach_refl].
Qed.

(** With the tree edge between [c] and [p] exchanged for the edge between
    [y] and [z], every node is still joined to every other. *)
Lemma exchange_joined (a b : Z) :
  In a l -> In b l -> joined R a b.
Proof.
  destruct exchange_decompose as [pre [blk0 [post [El [Hd Hn]]]]].
  destruct (proj1 (ranked_within_reach t l s Hwf Hinst c pre blk0 post
                                       El Hd Hn y) Hy) as [Hyl Hyr].
  destruct (proj1 (ranked_outside_reach t l s Hwf Hinst c pre blk0 post
                                        El Hd Hn z) Hz) as [Hzl Hzr].
  assert (Hall : forall x, In x l -> joined R root x).
  { intros x Hx.
    assert (Hdec : reach (directed s) c x \/ ~ reach (directed s) c x).
    { destruct (in_dec Z.eq_dec x (blk0 ++ [c])) as [Hi | Hi].
      - left. apply (block_is_reach t l s Hwf Hinst c pre blk0 post El Hd Hn).
        exact Hi.
      - right. intros Hr. apply Hi.
        apply (block_is_reach t l s Hwf Hinst c pre blk0 post El Hd Hn).
        exact Hr. }
    destruct Hdec as [Hin | Hout].
    - apply joined_trans with z.
      { apply joined_outside; [apply Hroot, Hzl | exact Hzr]. }
      apply joined_step with y.
      { right. right. reflexivity. }
      apply joined_trans with c.
      { apply joined_sym; [apply exchanged_sym|].
        apply joined_below; [exact Hyr | apply reach_refl]. }
      apply joined_below; [exact Hin | apply reach_refl].
    - apply joined_outside; [apply Hroot, Hx | exact Hout]. }
  intros Ha Hb. apply joined_trans with root.
  - apply joined_sym; [apply exchanged_sym | apply Hall, Ha].
  - apply Hall, Hb.
Qed.

End Exchange.

(** A run that gets through step 1 without the fast path drew an index
    inside the node list of the graph. *)
Lemma instantiate_drew_node (r_idx : nat) (s s' : Substitute) (u : unit) :
  ordered s = false ->
  instantiate_substitute_variables r_idx s = Ok (u, s') ->
  (r_idx < nx.number_of_nodes (graph s))%nat.
Proof.
  intros Hord H. unfold instantiate_substitute_variables in H.
  bind_inv H. bind_inv H.
  apply bind_Ok in H. destruct H as [pd [s1 [G _]]].
  unfold postorder_tree in G.
  apply bind_Ok in G. destruct G as [ord [s2 [G1 G]]].
  apply gets_Ok in G1. destruct G1 as [-> ->].
  simpl in G. rewrite Hord in G.
  apply bind_Ok in G. destruct G as [nodes [s3 [G1 _]]].
  apply bind_Ok in G1. destruct G1 as [root [s4 [G1 _]]].
  unfold random_node in G1.
  apply bind_Ok in G1. destruct G1 as [g [s5 [G0 G1]]].
  apply gets_Ok in G0. destruct G0 as [-> ->]. simpl in G1.
  destruct (nth_error (nx.nodes (graph s)) r_idx) eqn:E; [|discriminate G1].
  assert (Hn : nth_error (nx.nodes (graph s)) r_idx <> None) by congruence.
  apply nth_error_Some in Hn. unfold nx.nodes in Hn.
  rewrite length_map in Hn. exact Hn.
Qed.

(** ** The ranks *)

Lemma map_snd_ranks_from (l : list Z) :
  forall i, map snd (ranks_from i l) = range i (length l).
Proof.
  induction l as [|x l IH]; intros i; simpl; [reflexivity|].
  rewrite IH. reflexivity.
Qed.

Lemma same_members_length (l1 l2 : list Z) :
  NoDup l1 -> NoDup l2 -> (forall x, In x l1 <-> In x l2) ->
  length l1 = length l2.
Proof.
  intros H1 H2 H. apply Permutation_length.
  apply NoDup_Permutation; assumption.
Qed.

Lemma instantiated_length (t : nx.Graph) (l : list Z) (s : Substitute) :
  wf_graph t -> instantiated t l s -> length l = nx.number_of_nodes t.
Proof.
  intros Hwf Hinst. unfold nx.number_of_nodes.
  rewrite <- (length_map fst t).
  apply same_members_length.
  - apply (inst_nodup t l s Hinst).
  - apply (wf_nodes t Hwf).
  - apply (inst_nodes t l s Hinst).
Qed.

(** The source of the traversal is emitted last. *)
Lemma dfs_postorder_root_last (d : nx.DiGraph) (root : Z) (l : list Z) :
  succ_closed d ->
  nx.dfs_postorder_nodes d root = Ok l ->
  exists l0, l = l0 ++ [root].
Proof.
  intros Hsc H. unfold nx.dfs_postorder_nodes in H.
  destruct (dict_get root d) as [sc|] eqn:E; [|discriminate].
  apply dict_get_In_keys in E.
  destruct (dfs_from_source d root Hsc E) as [vis' [new0 [Hv _]]].
  rewrite Hv in H. simpl in H. inversion H. exists new0. reflexivity.
Qed.

(** ** What the validators test *)

(** [nx.is_connected] returns on every graph with a node, and says whether
    every node is reachable from every other. *)
Lemma is_connected_iff (g : nx.Graph) :
  wf_graph g -> g <> [] ->
  exists b,
    nx.is_connected g = Ok b
    /\ (b = true <->
        forall x y, In x (nx.nodes g) -> In y (nx.nodes g) ->
                    reach (nx.to_directed g) x y).
Proof.
  intros Hwf Hne.
  destruct g as [|[n0 nbrs0] g'] eqn:Eg; [congruence|]. rewrite <- Eg in *.
  assert (Hn0 : In n0 (nx.nodes g)) by (rewrite Eg; left; reflexivity).
  destruct (dfs_from_source (nx.to_directed g) n0 (wf_closed g Hwf)) as
      [vis' [new0 [E [Hnd [Hr [Hk Hb]]]]]].
  { rewrite to_directed_keys. exact Hn0. }
  assert (El : length (nx.to_directed g) = length g).
  { unfold nx.to_directed. apply length_map. }
  rewrite El in E.
  assert (Hc : nx.is_connected g
               = Ok (Nat.eqb (length (new0 ++ [n0])) (length g))).
  { unfold nx.is_connected. rewrite Eg. rewrite <- Eg. rewrite E. reflexivity. }
  exists (Nat.eqb (length (new0 ++ [n0])) (length g)).
  split; [exact Hc|]. split.
  - intros Hb'. apply (is_connected_reach g Hwf). rewrite Hc, Hb'. reflexivity.
  - intros Hall. apply Nat.eqb_eq.
    rewrite <- (length_map fst g). apply same_members_length.
    + exact Hnd.
    + apply (wf_nodes g Hwf).
    + intros x. split.
      * intros Hx. apply in_app_or in Hx. destruct Hx as [Hx | [<- | []]].
        -- rewrite <- to_directed_keys. apply Hk, Hx.
        -- exact Hn0.
      * intros Hx. apply Hr. apply Hall; assumption.
Qed.

Lemma has_self_cycles_iff (g : nx.Graph) :
  has_self_cycles g = false <-> forall x, nx.has_edge g x x = false.
Proof.
  split.
  - intros H x. apply no_self_cycles. exact H.
  - intros H. unfold has_self_cycles.
    destruct (existsb _ _) eqn:E; [|reflexivity].
    apply existsb_exists in E. destruct E as [x [_ Hx]].
    rewrite H in Hx. discriminate.
Qed.

Lemma edges_from_In (g : nx.Graph) :
  forall seen x y,
    In (x, y) (nx.edges_from seen g) ->
    exists g1 nbrs g2,
      g = g1 ++ (x, nbrs) :: g2
      /\ In y (map fst nbrs) /\ ~ In y seen /\ ~ In y (map fst g1).
Proof.
  induction g as [|[n nbrs] g IH]; intros seen x y H; simpl in H; [destruct H|].
  apply in_app_or in H. destruct H as [H | H].
  - apply in_map_iff in H. destruct H as [[y' w] [E Hin]].
    inversion E. subst. apply filter_In in Hin. destruct Hin as [Hin Hs].
    simpl in Hs. apply negb_true_iff, memZ_not_In in Hs.
    exists [], nbrs, g. split; [reflexivity|].
    split; [apply in_map_iff; exists (y, w); auto|].
    split; [exact Hs | intros []].
  - destruct (IH _ _ _ H) as [g1 [nb [g2 [Eg [Hy [Hs Hg]]]]]].
    exists ((n, nbrs) :: g1), nb, g2. split; [rewrite Eg; reflexivity|].
    split; [exact Hy|].
    split.
    + intros Hin. apply Hs. right. exact Hin.
    + simpl. intros [E | Hin]; [|exact (Hg Hin)].
      apply Hs. left. exact E.
Qed.

(** The edges that [G.edges()] lists are edges of the graph. *)
Lemma edges_has_edge (g : nx.Graph) (x y : Z) :
  NoDup (nx.nodes g) -> In (x, y) (nx.edges g) -> nx.has_edge g x y = true.
Proof.
  intros Hnd H. apply edges_from_In in H.
  destruct H as [g1 [nbrs [g2 [Eg [Hy _]]]]].
  apply has_edge_In. exists nbrs. split; [|exact Hy].
  apply In_dict_get; [exact Hnd|]. rewrite Eg. apply in_or_app. right.
  left. reflexivity.
Qed.

Lemma split_unique (l : list Z) :
  forall p q p' q' y,
    NoDup l -> l = p ++ y :: q -> l = p' ++ y :: q' -> p = p'.
Proof.
  induction l as [|a l IH]; intros p q p' q' y Hnd E E'.
  - destruct p; discriminate.
  - inversion Hnd as [|? ? Ha Hnd']. subst.
    destruct p as [|b p]; destruct p' as [|b' p']; simpl in *.
    + reflexivity.
    + inversion E. inversion E'. subst. exfalso. apply Ha.
      apply in_or_app. right. left. reflexivity.
    + inversion E. inversion E'. subst. exfalso. apply Ha.
      apply in_or_app. right. left. reflexivity.
    + inversion E. inversion E'. subst. f_equal.
      apply (IH p q p' q' y Hnd' eq_refl). congruence.
Qed.

(** [G.edges()] lists an edge between two different nodes in one
    orientation only. *)
Lemma edges_one_orientation (g : nx.Graph) (x y : Z) :
  NoDup (nx.nodes g) -> x <> y ->
  In (x, y) (nx.edges g) -> ~ In (y, x) (nx.edges g).
Proof.
  intros Hnd Hxy H1 H2.
  apply edges_from_In in H1. destruct H1 as [g1 [n1 [g2 [E1 [_ [_ Hy]]]]]].
  apply edges_from_In in H2. destruct H2 as [h1 [m1 [h2 [E2 [_ [_ Hx]]]]]].
  assert (F1 : nx.nodes g = map fst g1 ++ x :: map fst g2).
  { unfold nx.nodes. rewrite E1, map_app. reflexivity. }
  assert (F2 : nx.nodes g = map fst h1 ++ y :: map fst h2).
  { unfold nx.nodes. rewrite E2, map_app. reflexivity. }
  assert (Hin : In y (map fst g1 ++ x :: map fst g2)).
  { rewrite <- F1, F2. apply in_or_app. right. left. reflexivity. }
  apply in_app_or in Hin. destruct Hin as [Hin | [Hin | Hin]].
  - exact (Hy Hin).
  - exact (Hxy Hin).
  - apply in_split in Hin. destruct Hin as [c1 [c2 Ec]].
    assert (F3 : nx.nodes g = (map fst g1 ++ x :: c1) ++ y :: c2).
    { rewrite F1, Ec. rewrite <- app_assoc. reflexivity. }
    pose proof (split_unique _ _ _ _ _ y Hnd F3 F2) as Ep.
    apply Hx. rewrite <- Ep. apply in_or_app. right. left. reflexivity.
Qed.

Lemma is_weighted_edges_iff (g : nx.Graph) (es : list (Z * Z)) :
  (forall x y, In (x, y) es -> nx.get_edge_data g x y <> None) ->
  exists b,
    is_weighted_edges g es = Ok b
    /\ (b = true <->
        forall x y, In (x, y) es ->
                    exists w, nx.get_edge_data g x y = Some (Some w)).
Proof.
  induction es as [|[u v] es IH]; intros Hall; simpl.
  - exists true. split; [reflexivity|]. split; [intros _ x y [] | reflexivity].
  - destruct (nx.get_edge_data g u v) as [[w|]|] eqn:E.
    + destruct IH as [b [Hb Hiff]].
      { intros x y Hin. apply Hall. right. exact Hin. }
      exists b. split; [exact Hb|]. rewrite Hiff. split.
      * intros H x y [Hin | Hin]; [|apply H, Hin].
        inversion Hin. subst. exists w. exact E.
      * intros H x y Hin. apply H. right. exact Hin.
    + exists false. split; [reflexivity|]. split; [discriminate|].
      intros H. destruct (H u v (or_introl eq_refl)) as [w Hw]. congruence.
    + exfalso. apply (Hall u v); [left; reflexivity | exact E].
Qed.

(** [is_weighted] returns on every graph, and says whether every edge has
    a weight. *)
Lemma is_weighted_iff (g : nx.Graph) :
  wf_graph g ->
  exists b,
    is_weighted g = Ok b
    /\ (b = true <->
        forall x y, nx.has_edge g x y = true ->
                    exists w, nx.edge_weight g x y = Ok w).
Proof.
  intros Hwf. unfold is_weighted.
  assert (Hex : forall x y, In (x, y) (nx.edges g) ->
                            nx.get_edge_data g x y <> None).
  { intros x y Hin. apply (edges_has_edge g x y (wf_nodes g Hwf)) in Hin.
    apply edge_has_edge, edge_get_edge_data in Hin. destruct Hin as [w Hw].
    congruence. }
  destruct (is_weighted_edges_iff g (nx.edges g) Hex) as [b [Hb Hiff]].
  exists b. split; [exact Hb|]. split.
  - intros -> x y He. apply (weighted_edge_weight g x y Hwf Hb He).
  - intros H. apply Hiff. intros x y Hin.
    apply (edges_has_edge g x y (wf_nodes g Hwf)) in Hin.
    destruct (H x y Hin) as [w Hw]. exists w.
    unfold nx.edge_weight in Hw.
    destruct (nx.get_edge_data g x y) as [[w'|]|]; inversion Hw. reflexivity.
Qed.

(** ** Tuples in the caller's containers *)

Lemma tuple_eqb_eq (s t : tuple) : tuple_eqb s t = true <-> s = t.
Proof.
  revert t. induction s as [|x s IH]; intros [|y t]; simpl;
    try (split; [discriminate | discriminate]); [tauto|].
  rewrite andb_true_iff, Z.eqb_eq, IH. split.
  - intros [-> ->]. reflexivity.
  - intros E. inversion E. auto.
Qed.

Lemma tuple_in_In (t : tuple) (c : list tuple) :
  tuple_in t c = true <-> In t c.
Proof.
  unfold tuple_in. rewrite existsb_exists. split.
  - intros [x [Hx E]]. apply tuple_eqb_eq in E. subst. exact Hx.
  - intros H. exists t. split; [exact H | apply tuple_eqb_eq; reflexivity].
Qed.

Lemma tuple_in_not_In (t : tuple) (c : list tuple) :
  tuple_in t c = false <-> ~ In t c.
Proof.
  rewrite <- tuple_in_In. destruct (tuple_in t c); split; congruence.
Qed.

(** ** [is_admissible] *)

Lemma fixed_in_tree_pairs (t : nx.Graph) (fixed : list tuple) :
  (forall f, In f fixed -> exists u v, f = [u; v]) ->
  exists b,
    fixed_in_tree t fixed = Ok b
    /\ (b = true <->
        forall u v, In [u; v] fixed -> nx.has_edge t u v = true).
Proof.
  induction fixed as [|f fixed IH]; intros Hp.
  - exists true. split; [reflexivity|]. split; [intros _ u v [] | reflexivity].
  - destruct (Hp f (or_introl eq_refl)) as [u [v ->]]. simpl.
    destruct IH as [b [Hb Hiff]].
    { intros f Hf. apply Hp. right. exact Hf. }
    destruct (nx.has_edge t u v) eqn:He.
    + exists b. split; [exact Hb|]. rewrite Hiff. split.
      * intros H a c [E | Hin]; [|apply H, Hin]. inversion E. subst. exact He.
      * intros H a c Hin. apply H. right. exact Hin.
    + exists false. split; [reflexivity|]. split; [discriminate|].
      intros H. rewrite (H u v (or_introl eq_refl)) in He. discriminate.
Qed.

Lemma restricted_meets_tree (t : nx.Graph) (restricted : list tuple) :
  existsb (fun r => tuple_in r (map tuple_of_pair (nx.edges t))) restricted
  = false
  <-> forall e, In e (nx.edges t) -> ~ In [fst e; snd e] restricted.
Proof.
  split.
  - intros H e He Hin.
    assert (Ht : existsb (fun r => tuple_in r (map tuple_of_pair (nx.edges t)))
                         restricted = true).
    { apply existsb_exists. exists [fst e; snd e]. split; [exact Hin|].
      apply tuple_in_In. apply in_map_iff. exists e. auto. }
    congruence.
  - intros H. destruct (existsb _ restricted) eqn:E; [|reflexivity].
    apply existsb_exists in E. destruct E as [r [Hr Hin]].
    apply tuple_in_In in Hin. apply in_map_iff in Hin.
    destruct Hin as [e [Ee He]]. subst r. exfalso. apply (H e He Hr).
Qed.

(** ** The fast path of [postorder_tree] *)

Lemma ordered_instantiate (s : Substitute) :
  wf_graph (tree s) ->
  ordered s = true ->
  exists d' ds,
    (forall r_idx,
        instantiate_substitute_variables r_idx s
        = Ok (tt, set_quasi_cuts []
                    (set_postorder (ranks_from 1 (nx.nodes (tree s))) ds
                                   (set_directed d' s))))
    /\ map fst d' = nx.nodes (tree s)
    /\ forall a, In a (nx.nodes (tree s)) ->
         nx.succ_of d' a
         = filter (fun b => memZ b (upto (nx.nodes (tree s)) a))
                  (nx.succ_of (nx.to_directed (tree s)) a).
Proof.
  intros Hwf Hord. set (t := tree s) in *. set (d0 := nx.to_directed t).
  set (l := nx.nodes t).
  assert (Hnd : NoDup l) by apply (wf_nodes t Hwf).
  destruct (rank_loop_spec l 1 [] (set_directed d0 s) Hnd)
    as [d' [E2 [Hkeys Hsucc]]].
  { intros x _ []. }
  { intros x Hx. simpl. unfold d0. rewrite to_directed_keys. exact Hx. }
  simpl in E2, Hkeys, Hsucc. rewrite set_directed_twice in E2.
  assert (Hkeys' : map fst d' = nx.nodes t).
  { rewrite Hkeys. unfold d0. apply to_directed_keys. }
  assert (Hpruned : forall a, In a l ->
             nx.succ_of d' a
             = filter (fun b => memZ b (upto l a)) (nx.succ_of d0 a)).
  { intros a Ha. rewrite Hsucc. apply memZ_In in Ha. rewrite Ha. reflexivity. }
  assert (Hsc : succ_closed d').
  { apply (pruned_succ_closed t l d' Hwf); [tauto | exact Hkeys' | exact Hpruned]. }
  destruct (descendants_loop_spec d' (ranks_from 1 l) (fun _ _ => True) l)
    with (acc := @nil (Z * list Z)) as [ds [E3 _]].
  { intros x Hx.
    assert (Hxk : In x (map fst d')) by (rewrite Hkeys'; exact Hx).
    destruct (dfs_from_source d' x Hsc Hxk) as [vis' [new0 [E [_ [_ [Hk _]]]]]].
    exists (rank_of (ranks_from 1 l) x),
      (filter (fun c => negb (Z.eqb c x)) (new0 ++ [x])),
      (map (rank_of (ranks_from 1 l))
           (filter (fun c => negb (Z.eqb c x)) (new0 ++ [x]))).
    split.
    { apply dict_item_rank_of. rewrite map_fst_ranks_from. exact Hx. }
    split.
    { unfold nx.descendants. apply In_keys_dict_get in Hxk.
      destruct Hxk as [sx Hsx]. rewrite Hsx, E. reflexivity. }
    split; [|exact I].
    apply rank_all_ok. intros y Hy. rewrite map_fst_ranks_from.
    apply filter_In in Hy. destruct Hy as [Hy _].
    apply in_app_or in Hy. destruct Hy as [Hy | [<- | []]]; [|exact Hx].
    unfold l. rewrite <- Hkeys'. apply Hk, Hy. }
  exists d', ds. split; [|split; [exact Hkeys' | exact Hpruned]].
  intros r_idx.
  unfold instantiate_substitute_variables, postorder_tree, bind, gets, modify,
    ret, lift.
  fold t. fold d0. simpl. rewrite Hord.
  change (nx.nodes (tree (set_directed d0 s))) with l.
  rewrite E2. simpl. rewrite map_fst_ranks_from, E3. reflexivity.
Qed.

(** ** The loop of step 2.2 ends *)

Lemma scan_cuts_raises (po : list (Z * Z)) (ds : list (Z * list Z))
      (weight node : Z) (cuts : list wedge) (e : exn) :
  scan_cuts po ds weight node cuts = Raise e -> e = KeyError.
Proof.
  induction cuts as [|[[x y] z] cuts IH]; simpl; [discriminate|].
  unfold dict_item.
  destruct (dict_get y po) as [r|]; simpl; [|intros H; inversion H; reflexivity].
  destruct (dict_get node ds) as [dn|]; simpl;
    [|intros H; inversion H; reflexivity].
  destruct (memZ r dn && (x =? weight)); [discriminate | exact IH].
Qed.

(** Every round of the [while] loop that goes on removes an entry of the
    quasi-cut set, so the loop ends within as many rounds as the set has
    entries; the only exception it can raise is [KeyError]. *)
Lemma search_loop_ends (n_edge : wedge) (fuel : nat) :
  forall s e,
    (length (quasi_cuts s) < fuel)%nat ->
    search_loop fuel n_edge s = Raise e -> e = KeyError.
Proof.
  destruct n_edge as [[w node] p].
  induction fuel as [|fuel IH]; intros s e Hf H; [lia|].
  cbn [search_loop] in H. unfold bind at 1 in H.
  destruct (equal_weight_descendant (w, node, p) s) as [[cut s0]|ex] eqn:E.
  - pose proof (equal_weight_descendant_state _ _ _ _ E). subst s0.
    destruct cut as [[[x y] z]|]; [|discriminate H].
    pose proof (equal_weight_descendant_In _ _ _ _ E) as Hin.
    unfold bind, gets, lift in H. unfold dict_item in H.
    destruct (dict_get z (postorder_nodes s)) as [r|];
      [|inversion H; reflexivity].
    destruct (dict_get node (descendants s)) as [dn|];
      [|inversion H; reflexivity].
    destruct (memZ r dn).
    + unfold modify in H. apply IH in H; [exact H|]. simpl.
      pose proof (remove_length (x, y, z) (quasi_cuts s) Hin). lia.
    + discriminate H.
  - inversion H. subst ex. unfold equal_weight_descendant in E.
    destruct (scan_cuts _ _ w node (quasi_cuts s)) eqn:Es; [discriminate|].
    simpl in E. inversion E. subst. apply (scan_cuts_raises _ _ _ _ _ _ Es).
Qed.

(** ** The three cases of step 2.1 *)

Lemma remove_absent (x : wedge) (q : list wedge) :
  SortedSet.contains x q = false -> SortedSet.remove x q = q.
Proof.
  unfold SortedSet.contains, SortedSet.remove.
  induction q as [|y q IH]; simpl; [reflexivity|].
  intros H. apply orb_false_iff in H. destruct H as [H1 H2].
  rewrite H1. simpl. rewrite IH by exact H2. reflexivity.
Qed.

Lemma remove_if_present (x : wedge) (q : list wedge) :
  (if SortedSet.contains x q then SortedSet.remove x q else q)
  = SortedSet.remove x q.
Proof.
  destruct (SortedSet.contains x q) eqn:E; [reflexivity|].
  symmetry. apply remove_absent. exact E.
Qed.

(** Step 2.1 on an incident edge whose node has a contiguous range of
    descendant ranks: one of the three branches is taken. *)
Lemma update_cuts_cases (s : Substitute) (w a b r lo : Z) (n : nat) :
  dict_get b (postorder_nodes s) = Some r ->
  dict_get a (descendants s) = Some (range lo (S n)) ->
  update_cuts (w, a, b) s
  = Ok (tt, set_quasi_cuts
              (if r <? lo
               then SortedSet.add (w, a, b)
                                  (SortedSet.remove (w, b, a) (quasi_cuts s))
               else if r <=? lo + Z.of_nat n
                    then SortedSet.remove (w, b, a) (quasi_cuts s)
                    else SortedSet.add (w, a, b) (quasi_cuts s))
              s).
Proof.
  intros Hr Hd. unfold update_cuts, bind, gets, lift, modify, ret, dict_item.
  rewrite Hr, Hd. rewrite step_a_range, step_c_range. unfold step_b.
  rewrite memZ_range, Z.gtb_ltb.
  destruct (r <? lo) eqn:E1.
  - cbn [quasi_cuts set_quasi_cuts].
    assert (E2 : (lo <=? r) = false) by (apply Z.leb_gt, Z.ltb_lt; exact E1).
    rewrite E2. simpl.
    assert (E3 : (lo + Z.of_nat n <? r) = false).
    { apply Z.ltb_ge. apply Z.ltb_lt in E1. lia. }
    rewrite E3. rewrite remove_if_present. destruct s; reflexivity.
  - assert (E2 : (lo <=? r) = true) by (apply Z.leb_le, Z.ltb_ge; exact E1).
    rewrite E2. cbn [andb].
    destruct (r <=? lo + Z.of_nat n) eqn:E4.
    + assert (E5 : (r <? lo + Z.of_nat (S n)) = true).
      { apply Z.ltb_lt. apply Z.leb_le in E4. lia. }
      assert (E6 : (lo + Z.of_nat n <? r) = false).
      { apply Z.ltb_ge. apply Z.leb_le in E4. lia. }
      rewrite E5, E6.
      destruct (SortedSet.contains (w, b, a) (quasi_cuts s)) eqn:Ec.
      * reflexivity.
      * rewrite (remove_absent _ _ Ec). destruct s; reflexivity.
    + assert (E5 : (r <? lo + Z.of_nat (S n)) = false).
      { apply Z.ltb_ge. apply Z.leb_gt in E4. lia. }
      assert (E6 : (lo + Z.of_nat n <? r) = true).
      { apply Z.ltb_lt. apply Z.leb_gt in E4. lia. }
      rewrite E5, E6. reflexivity.
Qed.

(** ** The order of [postordered_edges] *)

Lemma key_leb_fst (a b : Z * Z) : key_leb a b = true -> fst a <= fst b.
Proof.
  unfold key_leb. rewrite orb_true_iff, andb_true_iff, Z.ltb_lt, Z.eqb_eq. lia.
Qed.

Lemma key_leb_trans (a b c : Z * Z) :
  key_leb a b = true -> key_leb b c = true -> key_leb a c = true.
Proof.
  unfold key_leb.
  rewrite !orb_true_iff, !andb_true_iff, !Z.ltb_lt, !Z.eqb_eq, !Z.leb_le. lia.
Qed.

Lemma key_leb_total (a b : Z * Z) :
  key_leb a b = false -> key_leb b a = true.
Proof.
  unfold key_leb.
  rewrite orb_false_iff, andb_false_iff, orb_true_iff, andb_true_iff,
    !Z.ltb_lt, !Z.ltb_ge, !Z.eqb_eq, Z.eqb_neq, Z.leb_le, Z.leb_gt. lia.
Qed.

Lemma insert_by_key_In {A} (k : Z * Z) (x : A) (l : list ((Z * Z) * A))
      (e : (Z * Z) * A) :
  In e (insert_by_key k x l) <-> e = (k, x) \/ In e l.
Proof.
  split.
  - intros H. apply (Permutation_in _ (insert_by_key_perm k x l)) in H.
    destruct H as [H | H]; auto.
  - intros H. apply (Permutation_in _ (Permutation_sym (insert_by_key_perm k x l))).
    destruct H as [H | H]; [left; auto | right; exact H].
Qed.

Lemma insert_by_key_sorted {A} (k : Z * Z) (x : A) (l : list ((Z * Z) * A)) :
  sorted_by_key l -> sorted_by_key (insert_by_key k x l).
Proof.
  induction 1 as [|k' y l Hs IH Hle]; simpl.
  - constructor; [constructor | intros k' y []].
  - destruct (key_leb k k') eqn:E.
    + constructor; [constructor; assumption|].
      intros k2 y2 [H | H].
      * inversion H. subst. exact E.
      * apply key_leb_trans with k'; [exact E | apply (Hle k2 y2 H)].
    + constructor; [exact IH|].
      intros k2 y2 H. apply insert_by_key_In in H. destruct H as [H | H].
      * inversion H. subst. apply key_leb_total. exact E.
      * apply (Hle k2 y2 H).
Qed.

Lemma sort_sorted {A} (l : list ((Z * Z) * A)) :
  sorted_by_key
    (fold_right (fun kx acc => insert_by_key (fst kx) (snd kx) acc) [] l).
Proof.
  induction l as [|[k x] l IH]; simpl; [constructor|].
  apply insert_by_key_sorted. exact IH.
Qed.

Lemma with_keys_rank (po : list (Z * Z)) (es : list wedge) :
  forall ks, with_keys po es = Ok ks ->
  forall k e, In (k, e) ks ->
              k = (rank_of po (snd (fst e)), rank_of po (snd e)).
Proof.
  induction es as [|[[w a] b] es IH]; intros ks H k e Hin; simpl in H.
  - inversion H. subst. destruct Hin.
  - apply rbind_Ok in H. destruct H as [ra [Ha H]].
    apply rbind_Ok in H. destruct H as [rb [Hb H]].
    apply rbind_Ok in H. destruct H as [rest [Hrest H]].
    inversion H. subst ks. destruct Hin as [Hin | Hin].
    + inversion Hin. subst. simpl. unfold rank_of.
      apply dict_item_Ok in Ha. apply dict_item_Ok in Hb.
      rewrite Ha, Hb. reflexivity.
    + apply (IH rest Hrest k e Hin).
Qed.

Lemma sorted_child_ranks (s : Substitute) (sl : list ((Z * Z) * wedge)) :
  sorted_by_key sl ->
  (forall k e, In (k, e) sl ->
               k = (rank_of (postorder_nodes s) (snd (fst e)),
                    rank_of (postorder_nodes s) (snd e))) ->
  ascending (map (child_rank s) (map snd sl)).
Proof.
  induction 1 as [|k x l Hs IH Hle]; intros Hk; simpl; [constructor|].
  constructor.
  - apply IH. intros k' e Hin. apply Hk. right. exact Hin.
  - intros r Hr. apply in_map_iff in Hr. destruct Hr as [e [<- He]].
    apply in_map_iff in He. destruct He as [[k' e'] [E Hin]].
    simpl in E. subst e'.
    pose proof (Hle k' e Hin) as Hkk. apply key_leb_fst in Hkk.
    rewrite (Hk k x (or_introl eq_refl)) in Hkk.
    rewrite (Hk k' e (or_intror Hin)) in Hkk. simpl in Hkk.
    unfold child_rank. exact Hkk.
Qed.

Lemma weigh_edges_keys (g : nx.Graph) (es : list (Z * Z)) :
  forall ws, weigh_edges g es = Ok ws -> map key_of ws = map swap es.
Proof.
  induction es as [|[u v] es IH]; intros ws H; simpl in H.
  - inversion H. reflexivity.
  - apply rbind_Ok in H. destruct H as [w [_ H]].
    apply rbind_Ok in H. destruct H as [rest [Hrest H]].
    inversion H. simpl. rewrite (IH rest Hrest). reflexivity.
Qed.

(** What [postordered_edges] returns: the edges of the pruned graph, each
    once, as (weight, target, source), in the order of the ranks of the
    targets. *)
Lemma postordered_edges_order (s s' : Substitute) (oe : list wedge) :
  postordered_edges s = Ok (oe, s') ->
  Permutation (map key_of oe) (map swap (nx.di_edges (directed s)))
  /\ ascending (map (child_rank s) oe).
Proof.
  unfold postordered_edges. intros H.
  apply rbind_Ok in H. destruct H as [ws [Hws H]].
  apply rbind_Ok in H. destruct H as [ks [Hks H]].
  inversion H. subst. split.
  - rewrite <- (weigh_edges_keys _ _ ws Hws).
    rewrite <- (with_keys_result _ _ ks Hks).
    apply Permutation_map. apply sort_by_key_perm.
  - unfold sort_by_key. apply sorted_child_ranks; [apply sort_sorted|].
    intros k e Hin. apply (with_keys_rank _ _ ks Hks).
    assert (Hp : Permutation
                   (fold_right (fun kx acc => insert_by_key (fst kx) (snd kx) acc)
                               [] ks) ks).
    { clear. induction ks as [|[k x] l IH]; simpl; [apply perm_nil|].
      apply Permutation_trans with ((k, x) :: fold_right
          (fun kx acc => insert_by_key (fst kx) (snd kx) acc) [] l).
      - apply insert_by_key_perm.
      - apply perm_skip, IH. }
    apply (Permutation_in _ Hp). exact Hin.
Qed.

(** ** The keys of the mapping, by rank *)

Lemma substitute_loop_keys (es : list wedge) :
  forall s s' sd sd',
    substitute_loop es sd s = Ok (sd', s') ->
    cuts_inv s ->
    map fst sd' = map fst sd.
Proof.
  induction es as [|[[w c] p] es IH]; intros s s' sd sd' H Hinv; simpl in H.
  - apply ret_Ok in H. destruct H as [-> _]. reflexivity.
  - apply bind_Ok in H. destruct H as [sd1 [s1 [G H]]].
    destruct (substitute_step_result s s1 w c p sd sd1 G Hinv)
      as [_ [Hinv1 Hsd]].
    rewrite (IH s1 s' sd1 sd' H Hinv1).
    destruct Hsd as [-> | [v [sub [Hget [-> _]]]]]; [reflexivity|].
    apply sd_set_keys. apply sd_get_Some_In. exists v. exact Hget.
Qed.

Lemma ascending_distinct_range (R : list Z) :
  forall lo m,
    ascending R -> NoDup R -> length R = m ->
    (forall r, In r R -> lo <= r < lo + Z.of_nat m) ->
    R = range lo m.
Proof.
  induction R as [|x R IH]; intros lo m Ha Hnd Hlen Hb.
  - simpl in Hlen. subst m. reflexivity.
  - destruct m as [|m]; [discriminate|]. simpl in Hlen.
    inversion Ha as [|? ? Ha' Hle]. inversion Hnd as [|? ? Hx Hnd']. subst.
    assert (E : R = range (x + 1) (length R)).
    { apply IH; [exact Ha' | exact Hnd' | reflexivity|].
      intros r Hr. pose proof (Hle r Hr) as H1.
      pose proof (Hb r (or_intror Hr)) as H2.
      assert (r <> x) by (intros ->; exact (Hx Hr)).
      rewrite Nat2Z.inj_succ in H2.
      pose proof (Hb x (or_introl eq_refl)) as H3. lia. }
    assert (Hxlo : x = lo).
    { pose proof (Hb x (or_introl eq_refl)) as H3.
      destruct (length R) as [|k] eqn:Ek.
      - simpl in H3. lia.
      - assert (Hin : In (x + 1 + Z.of_nat k) R).
        { rewrite E. apply range_In. rewrite Nat2Z.inj_succ. lia. }
        pose proof (Hb _ (or_intror Hin)) as H4.
        rewrite !Nat2Z.inj_succ in H4. lia. }
    subst x. inversion Hlen. subst m. simpl. f_equal. exact E.
Qed.

Lemma NoDup_map_inj_on {A B} (f : A -> B) (l : list A) :
  (forall x y, In x l -> In y l -> f x = f y -> x = y) ->
  NoDup l -> NoDup (map f l).
Proof.
  induction l as [|a l IH]; intros Hinj Hnd; simpl; [constructor|].
  inversion Hnd as [|? ? Ha Hnd']. subst. constructor.
  - intros Hin. apply in_map_iff in Hin. destruct Hin as [b [E Hb]].
    apply Hinj in E; [|right; exact Hb | left; reflexivity].
    subst b. exact (Ha Hb).
  - apply IH; [|exact Hnd'].
    intros x y Hx Hy. apply Hinj; right; assumption.
Qed.

Lemma down_last_edge (d : nx.DiGraph) (l : list Z) (a x : Z) :
  down d l a x -> a = x \/ exists p, edge d p x /\ before l x p.
Proof.
  induction 1 as [a | a b x He Hb _ IH]; [left; reflexivity|].
  right. destruct IH as [-> | IH]; [|exact IH].
  exists a. split; assumption.
Qed.

(** On a valid input the keys of the mapping are the tree edges from each
    node but the root to its parent, listed by the rank of the node. *)
Lemma keys_by_rank (g t : nx.Graph) (fixed restricted : list tuple)
      (r_idx : nat) (self : Substitute) :
  wf_graphb g = true ->
  wf_graphb t = true ->
  spans t g = true ->
  Substitute_init g t fixed restricted false = Ok self ->
  (r_idx < nx.number_of_nodes g)%nat ->
  exists sd self',
    substitute r_idx self = Ok (sd, self')
    /\ map (fun k => rank_of (postorder_nodes self') (fst k)) (map fst sd)
       = range 1 (nx.number_of_nodes t - 1).
Proof.
  intros Hwg Hwt Hsp Hinit Hlt.
  destruct (substitute_valid g t fixed restricted r_idx self
                             Hwg Hwt Hsp Hinit Hlt)
    as [root [l [sd [self' [Hnth [Hdfs [Hnd [Hnodes [Hsub [Hknd [Hlen
       [Hkeys _]]]]]]]]]]]].
  exists sd, self'. split; [exact Hsub|].
  destruct (valid_instantiate g t fixed restricted r_idx self Hwt Hsp Hinit Hlt)
    as [root' [l' [s1 [Hnth' [Hi [_ [Hdfs' Hinst]]]]]]].
  assert (root' = root) by congruence. subst root'.
  assert (l' = l) by congruence. subst l'.
  pose proof (wf_graphb_wf t Hwt) as Hwf.
  destruct (substitute_parts r_idx self self' sd Hsub) as [s1' [oe [Hi' [Hoe Hloop]]]].
  assert (s1' = s1) by congruence. subst s1'.
  assert (Hinv : cuts_inv s1).
  { split; rewrite (inst_cuts t l s1 Hinst); [constructor | intros e []]. }
  destruct (substitute_loop_result oe s1 self' _ sd Hloop Hinv) as [Hco _].
  pose proof (substitute_loop_keys oe s1 self' _ sd Hloop Hinv) as Hk.
  destruct (postordered_edges_order s1 s1 oe Hoe) as [Hperm Hasc].
  assert (Hoe_nd : NoDup (map key_of oe)).
  { apply (Permutation_NoDup (Permutation_sym Hperm)).
    apply NoDup_map_inj.
    - intros [a b] [c e] E. unfold swap in E. simpl in E. inversion E.
      reflexivity.
    - apply (kept_NoDup t l (directed s1) Hwf (inst_nodes t l s1 Hinst)
                        (inst_keys t l s1 Hinst) (inst_succ t l s1 Hinst)). }
  rewrite initial_dict in Hk by exact Hoe_nd.
  simpl in Hk. rewrite map_map in Hk. simpl in Hk.
  assert (Hpo : postorder_nodes self' = ranks_from 1 l).
  { destruct Hco as [_ [_ [_ [_ [_ [_ [Hpo _]]]]]]].
    rewrite Hpo. apply (inst_po t l s1 Hinst). }
  set (rk := rank_of (ranks_from 1 l)) in *.
  assert (Hranks : map (fun k => rank_of (postorder_nodes self') (fst k))
                       (map fst sd)
                   = map (child_rank s1) oe).
  { rewrite Hk, map_map. apply map_ext. intros e. unfold child_rank, key_of.
    simpl. rewrite Hpo, (inst_po t l s1 Hinst). reflexivity. }
  rewrite Hranks.
  assert (Hchildren : map (child_rank s1) oe = map rk (map fst (map fst sd))).
  { rewrite Hk, !map_map. apply map_ext. intros e. unfold child_rank, key_of.
    simpl. rewrite (inst_po t l s1 Hinst). reflexivity. }
  destruct (dfs_postorder_root_last _ root l (wf_closed t Hwf) Hdfs) as [l0 El].
  assert (Hlen_l : length l = nx.number_of_nodes t).
  { apply (instantiated_length t l s1 Hwf Hinst). }
  assert (Hlen0 : length l0 = (nx.number_of_nodes t - 1)%nat).
  { rewrite <- Hlen_l, El, length_app. simpl. lia. }
  assert (Hnd0 : NoDup l0).
  { rewrite El in Hnd. apply NoDup_app_remove_r in Hnd. exact Hnd. }
  assert (Hroot0 : ~ In root l0).
  { rewrite El in Hnd. apply NoDup_remove_2 in Hnd.
    rewrite app_nil_r in Hnd. exact Hnd. }
  assert (Hdown : forall x, In x l -> down (nx.to_directed t) l root x).
  { apply dfs_postorder_down; [apply (wf_closed t Hwf) | exact Hdfs]. }
  assert (Hincl : incl l0 (map fst (map fst sd))).
  { intros x Hx.
    assert (Hxl : In x l) by (rewrite El; apply in_or_app; left; exact Hx).
    destruct (down_last_edge _ _ _ _ (Hdown x Hxl)) as [E | [p [He Hb]]].
    - subst x. contradiction.
    - apply in_map_iff. exists (x, p). split; [reflexivity|].
      apply Hkeys. split; [exact He|].
      apply before_rank; assumption. }
  assert (Hcnd : NoDup (map fst (map fst sd))).
  { apply NoDup_incl_NoDup with (l := l0); [exact Hnd0 | | exact Hincl].
    rewrite !length_map, Hlen, Hlen0. lia. }
  assert (Hcl : forall c, In c (map fst (map fst sd)) ->
                          In c l /\ 1 <= rk c < 1 + Z.of_nat (length l0)).
  { intros c Hc. apply in_map_iff in Hc. destruct Hc as [[c' p] [E Hin]].
    simpl in E. subst c'. apply Hkeys in Hin. destruct Hin as [He Hrk].
    assert (Hp : In p l).
    { apply Hnodes. rewrite <- to_directed_keys.
      apply edge_source_key with c. exact He. }
    assert (Hcl : In c l).
    { apply Hnodes. rewrite <- to_directed_keys.
      apply (wf_closed t Hwf p c He). }
    split; [exact Hcl|].
    pose proof (rank_of_bounds l 1 c Hcl) as B1.
    pose proof (rank_of_bounds l 1 p Hp) as B2.
    fold rk in B1, B2, Hrk.
    assert (Z.of_nat (length l) = Z.of_nat (length l0) + 1).
    { rewrite El, length_app. simpl. lia. }
    lia. }
  rewrite <- Hlen0. apply ascending_distinct_range.
  - exact Hasc.
  - rewrite Hchildren. apply NoDup_map_inj_on; [|exact Hcnd].
    intros a b Ha Hb E.
    apply (rank_of_inj l 1 a b Hnd (proj1 (Hcl a Ha)) (proj1 (Hcl b Hb)) E).
  - rewrite length_map. rewrite <- (length_map (fun x => key_of x) oe), <- Hk.
    rewrite length_map, Hlen, Hlen0. reflexivity.
  - intros r Hr. rewrite Hchildren in Hr. apply in_map_iff in Hr.
    destruct Hr as [c [<- Hc]]. apply (Hcl c Hc).
Qed.

(** ** The incident edges, all of them *)

Lemma incident_loop_complete (self : Substitute) (node : Z) (nbrs : list Z) :
  forall inc,
    incident_loop self node nbrs = Ok inc ->
    forall nb w,
      In nb nbrs ->
      tuple_in [node; nb] (restricted_edges self) = false ->
      nx.has_edge (tree self) node nb = false ->
      nx.edge_weight (graph self) node nb = Ok w ->
      In (w, node, nb) inc.
Proof.
  induction nbrs as [|x nbrs IH]; intros inc H nb w Hin Hr Ht Hw;
    [destruct Hin|].
  simpl in H.
  destruct (negb (tuple_in [node; x] (restricted_edges self))
            && negb (nx.has_edge (tree self) node x)) eqn:Ec.
  - apply rbind_Ok in H. destruct H as [w' [Hw' H]].
    apply rbind_Ok in H. destruct H as [rest [Hrest H]].
    inversion H. subst inc. destruct Hin as [-> | Hin].
    + left. rewrite Hw in Hw'. inversion Hw'. reflexivity.
    + right. apply (IH rest Hrest nb w Hin Hr Ht Hw).
  - destruct Hin as [-> | Hin].
    + rewrite Hr, Ht in Ec. discriminate.
    + apply (IH inc H nb w Hin Hr Ht Hw).
Qed.

Lemma find_incident_edges_iff (node : Z) (self s' : Substitute)
      (inc : list wedge) :
  find_incident_edges node self = Ok (inc, s') ->
  s' = self
  /\ forall w a b,
       In (w, a, b) inc <->
       a = node
       /\ nx.has_edge (graph self) node b = true
       /\ ~ In [node; b] (restricted_edges self)
       /\ nx.has_edge (tree self) node b = false
       /\ nx.edge_weight (graph self) node b = Ok w.
Proof.
  intros H.
  destruct (find_incident_edges_candidates node self s' inc H) as [Es Hc].
  split; [exact Es|]. subst s'.
  intros w a b. split.
  - intros Hin. destruct (Hc _ Hin) as [[Hg [Hr [Ht Hw]]] Ea].
    simpl in Hg, Hr, Ht, Hw, Ea. subst a.
    split; [reflexivity|]. split; [exact Hg|].
    split; [apply tuple_in_not_In; exact Hr|]. split; assumption.
  - intros [-> [Hg [Hr [Ht Hw]]]].
    unfold find_incident_edges in H.
    apply rbind_Ok in H. destruct H as [nbrs [Hn H]].
    apply rbind_Ok in H. destruct H as [inc' [Hi H]].
    inversion H. subst inc'.
    apply (incident_loop_complete self node nbrs inc Hi b w).
    + unfold nx.neighbors in Hn.
      destruct (dict_get node (graph self)) as [ns|] eqn:E; [|discriminate].
      inversion Hn. subst. apply has_edge_In in Hg.
      destruct Hg as [ns' [E' Hb]]. rewrite E in E'. inversion E'. subst.
      exact Hb.
    + apply tuple_in_not_In. exact Hr.
    + exact Ht.
    + exact Hw.
Qed.

(** * The claims *)

(** ** Scenarios *)

(** C1.  Restricting the edge (1, 4) of the closed path does not keep it
    from being offered: rooted at node 1, the run meets the edge from node 4
    as (4, 1), which is not the tuple in the restricted container, and
    returns it as the substitute of every path edge. *)
Theorem restricted_edge_offered_reversed :
  is_admissible path4 [] [[1; 4]] = Ok true
  /\ run_substitute cycle4 path4 [] [[1; 4]] false 0
     = Ok [((4, 3), [(4, 1)]); ((3, 2), [(4, 1)]); ((2, 1), [(4, 1)])].
Proof. split; vm_compute; reflexivity. Qed.

(** C2.  Marking the path edge between 3 and 4 as fixed, in both
    orientations, changes nothing: the loop looks for the weighted triple
    (1, 4, 3) in the container, does not find it, searches, and maps the
    edge to the substitute (4, 1). *)
Theorem fixed_edge_still_searched :
  is_admissible path4 [[3; 4]; [4; 3]] [] = Ok true
  /\ run_substitute cycle4 path4 [[3; 4]; [4; 3]] [] false 0
     = Ok [((4, 3), [(4, 1)]); ((3, 2), [(4, 1)]); ((2, 1), [(4, 1)])].
Proof. split; vm_compute; reflexivity. Qed.

(** C3, as stated, fails: rooted at node 4 the edge (1, 2) is mapped to
    (1, 4), and so are the two other path edges. *)
Lemma scenario_as_stated_fails :
  exists sd,
    run_substitute cycle4 path4 [] [] false 3 = Ok sd
    /\ sd_get (1, 2) sd = Some [(1, 4)]
    /\ ~ scenario_as_stated sd.
Proof.
  eexists. split; [vm_compute; reflexivity|].
  split; [reflexivity|].
  intros [H _]. vm_compute in H. discriminate H.
Qed.

(** C3, amended.  Whatever root is drawn, every one of the three path edges
    is mapped to the closing edge, as (1, 4) or as (4, 1): on a cycle the
    closing edge bridges the cut of each path edge. *)
Theorem scenario_every_path_edge_bridged (r_idx : nat) :
  (r_idx < 4)%nat ->
  exists sd,
    run_substitute cycle4 path4 [] [] false r_idx = Ok sd
    /\ same_set (map unorient (map fst sd)) [(1, 2); (2, 3); (3, 4)]
    /\ length sd = 3%nat
    /\ forall k v, In (k, v) sd -> v = [(1, 4)] \/ v = [(4, 1)].
Proof.
  intros Hr.
  assert (Hc : (r_idx = 0 \/ r_idx = 1 \/ r_idx = 2 \/ r_idx = 3)%nat) by lia.
  destruct Hc as [-> | [-> | [-> | ->]]];
    (eexists; split; [vm_compute; reflexivity|];
     split; [intros [a b]; simpl; intuition congruence|];
     split; [reflexivity|];
     intros k v Hin; simpl in Hin;
     repeat (destruct Hin as [Hin | Hin]; [inversion Hin; subst; auto|]);
     contradiction).
Qed.

Lemma scenario_every_path_edge_bridged_witness :
  exists sd,
    run_substitute cycle4 path4 [] [] false 2 = Ok sd
    /\ same_set (map unorient (map fst sd)) [(1, 2); (2, 3); (3, 4)]
    /\ length sd = 3%nat
    /\ forall k v, In (k, v) sd -> v = [(1, 4)] \/ v = [(4, 1)].
Proof. apply (scenario_every_path_edge_bridged 2). lia. Defined.

(** C7.  A single edge of a triangle is accepted as the tree although it
    does not touch node 3; [substitute()] then fails on the lookup of that
    node's rank. *)
Theorem non_spanning_tree_accepted :
  nx.nodes triangle = [1; 2; 3]
  /\ nx.nodes one_edge = [1; 2]
  /\ is_ok (Substitute_init triangle one_edge [] [] false) = true
  /\ run_substitute triangle one_edge [] [] false 0 = Raise KeyError
  /\ run_substitute triangle one_edge [] [] false 2 = Raise KeyError.
Proof. repeat split; vm_compute; reflexivity. Qed.

(** C8, as stated, fails: on [fork_graph] the tree edge between 1 and 3 is
    given the substitute (3, 2) when the root is node 2 and (1, 4) when the
    root is node 3, so the sets of pairs differ even without
    orientations. *)
Lemma root_changes_substitute :
  exists sd1 sd2,
    run_substitute fork_graph fork_tree [] [] false 0 = Ok sd1
    /\ run_substitute fork_graph fork_tree [] [] false 2 = Ok sd2
    /\ ~ same_set (unorient_pairs sd1) (unorient_pairs sd2).
Proof.
  do 2 eexists. split; [vm_compute; reflexivity|].
  split; [vm_compute; reflexivity|].
  intros H. destruct (H ((1, 3), (2, 3))) as [H1 _].
  assert (X : In ((1, 3), (2, 3)) [((1, 3), (1, 4))]).
  { apply H1. left. reflexivity. }
  destruct X as [X | []]. discriminate X.
Qed.

(** The instance [cycle4_round1] is the one the run rooted at node 1 is in
    after its first round. *)
Lemma cycle4_round1_reached :
  exists self0 sd,
    Substitute_init cycle4 path4 [] [] false = Ok self0
    /\ (instantiate_substitute_variables 0 ;;;
        substitute_step (1, 4, 3) [((4, 3), []); ((3, 2), []); ((2, 1), [])])
         self0
       = Ok (sd, cycle4_round1).
Proof. do 2 eexists. split; vm_compute; reflexivity. Qed.

(** ** The search of the quasi-cut set *)

(** C4, as stated, fails: in the second round of the run above the query is
    for node 3, whose descendant ranks are 1 and 2.  The only entry,
    (1, 4, 1), has its source 4 at rank 1 and its target 1 at rank 4: the
    code returns it, the search on the target's rank returns nothing. *)
Lemma search_tests_source_not_target :
  equal_weight_descendant (1, 3, 2) cycle4_round1
  = Ok (Some (1, 4, 1), cycle4_round1)
  /\ find_first_matching_as_stated cycle4_round1 1 3 = None.
Proof. split; vm_compute; reflexivity. Qed.

(** C4, amended.  On a quasi-cut set in ascending (weight, source, target)
    order, [equal_weight_descendant] returns the first entry whose source
    node's rank lies in the descendant ranks of the queried node and whose
    weight is the query weight (no entry before it in the order passes the
    test), and "none" when no entry passes it; the instance is left as it
    is. *)
Theorem equal_weight_descendant_first_by_source
        (self : Substitute) (w node p : Z) :
  sorted_cuts (quasi_cuts self) ->
  dict_has node (descendants self) = true ->
  (forall e, In e (quasi_cuts self) ->
             dict_has (snd (fst e)) (postorder_nodes self) = true) ->
  exists r,
    equal_weight_descendant (w, node, p) self = Ok (r, self)
    /\ match r with
       | Some e =>
           In e (quasi_cuts self)
           /\ source_match self w node e = true
           /\ forall e', In e' (quasi_cuts self) -> cut_lt e' e ->
                         source_match self w node e' = false
       | None =>
           forall e, In e (quasi_cuts self) -> source_match self w node e = false
       end.
Proof.
  intros Hs Hn Hq.
  exists (find (source_match self w node) (quasi_cuts self)). split.
  - unfold equal_weight_descendant.
    rewrite (scan_cuts_find self w node (quasi_cuts self) Hn Hq). reflexivity.
  - apply find_first_sorted. exact Hs.
Qed.

Lemma equal_weight_descendant_first_by_source_witness :
  exists r,
    equal_weight_descendant (1, 3, 2) cycle4_round1 = Ok (r, cycle4_round1)
    /\ match r with
       | Some e =>
           In e (quasi_cuts cycle4_round1)
           /\ source_match cycle4_round1 1 3 e = true
           /\ forall e', In e' (quasi_cuts cycle4_round1) -> cut_lt e' e ->
                         source_match cycle4_round1 1 3 e' = false
       | None =>
           forall e, In e (quasi_cuts cycle4_round1) ->
                     source_match cycle4_round1 1 3 e = false
       end.
Proof.
  apply (equal_weight_descendant_first_by_source cycle4_round1 1 3 2).
  - simpl. constructor; [constructor | intros y []].
  - reflexivity.
  - simpl. intros e [<- | []]. reflexivity.
Defined.

(** ** Retention of a chosen entry *)

(** C9.  The entry that step 2.2.c records as a substitute is still in the
    quasi-cut set when the search is left; and on the closed path rooted at
    node 1 the entry (1, 4, 1) recorded for the tree edge (4, 3) is recorded
    again for the edges (3, 2) and (2, 1) of its ancestors. *)
Theorem chosen_entry_retained :
  (forall fuel n_edge self ce self',
      search_loop fuel n_edge self = Ok (Some ce, self') ->
      SortedSet.contains ce (quasi_cuts self') = true)
  /\ exists sd,
      run_substitute cycle4 path4 [] [] false 0 = Ok sd
      /\ sd_get (4, 3) sd = Some [(4, 1)]
      /\ sd_get (3, 2) sd = Some [(4, 1)]
      /\ sd_get (2, 1) sd = Some [(4, 1)].
Proof.
  split.
  - intros fuel n_edge self ce self' H. apply contains_In.
    apply (search_loop_retains fuel n_edge self self' ce H).
  - eexists. split; [vm_compute; reflexivity|]. repeat split.
Qed.

Lemma chosen_entry_retained_witness :
  search_loop 2 (1, 3, 2) cycle4_round1 = Ok (Some (1, 4, 1), cycle4_round1)
  /\ SortedSet.contains (1, 4, 1) (quasi_cuts cycle4_round1) = true.
Proof.
  split; [vm_compute; reflexivity|].
  apply (proj1 chosen_entry_retained 2%nat (1, 3, 2) cycle4_round1 (1, 4, 1)
               cycle4_round1).
  vm_compute. reflexivity.
Defined.

(** ** The caller's objects *)

(** C10.  A successful call of [substitute()] leaves the graph, the tree,
    the fixed and the restricted edges (and the [ordered] flag) of the
    instance as they were, and its result and final state do not depend on
    the working state the instance had before the call: the directed copy,
    the ranks, the descendant sets and the quasi-cut set are made anew from
    the inputs. *)
Theorem substitute_leaves_inputs
        (r_idx : nat) (self self' : Substitute) (sd : subst_dict) :
  substitute r_idx self = Ok (sd, self') ->
  graph self' = graph self
  /\ tree self' = tree self
  /\ fixed_edges self' = fixed_edges self
  /\ restricted_edges self' = restricted_edges self
  /\ forall other,
      same_inputs self other -> substitute r_idx other = Ok (sd, self').
Proof.
  intros H. pose proof (keeps_substitute r_idx self sd self' H) as K.
  destruct K as [K1 [K2 [K3 [K4 K5]]]].
  repeat split; try congruence.
  intros other Ho. rewrite <- (substitute_fresh r_idx self other Ho). exact H.
Qed.

Lemma substitute_leaves_inputs_witness :
  exists sd self',
    substitute 0 cycle4_round1 = Ok (sd, self')
    /\ graph self' = cycle4 /\ tree self' = path4
    /\ fixed_edges self' = [] /\ restricted_edges self' = [].
Proof.
  do 2 eexists. split; [vm_compute; reflexivity|].
  destruct (substitute_leaves_inputs 0 cycle4_round1 _ _
              (eq_refl : substitute 0 cycle4_round1 = Ok (_, _)))
    as [H1 [H2 [H3 [H4 _]]]].
  repeat split; assumption.
Defined.

(** ** The descendant sets *)

(** C6.  On a tree that the constructor accepted and that touches every
    node of the graph, after the postorder pass every node of the tree has a
    rank and a descendant set, the set is a contiguous range of integers
    whose maximum is the rank of the node, and for every integer rank of a
    neighbour exactly one of the three tests of step 2.1 holds: below the
    minimum, in the set, above the maximum. *)
Theorem descendant_sets_are_ranges
        (g t : nx.Graph) (fixed restricted : list tuple)
        (r_idx : nat) (self0 : Substitute) :
  wf_graphb t = true ->
  spans t g = true ->
  Substitute_init g t fixed restricted false = Ok self0 ->
  (r_idx < nx.number_of_nodes g)%nat ->
  exists self1,
    instantiate_substitute_variables r_idx self0 = Ok (tt, self1)
    /\ forall v, In v (nx.nodes t) ->
         exists r ds,
           dict_get v (postorder_nodes self1) = Some r
           /\ dict_get v (descendants self1) = Some ds
           /\ contiguous_up_to r ds
           /\ forall k : Z,
               (step_a k ds = Ok true /\ step_b k ds = false
                /\ step_c k ds = Ok false)
               \/ (step_a k ds = Ok false /\ step_b k ds = true
                   /\ step_c k ds = Ok false)
               \/ (step_a k ds = Ok false /\ step_b k ds = false
                   /\ step_c k ds = Ok true).
Proof.
  intros Hwf Hsp Hinit Hr.
  destruct (valid_instantiate g t fixed restricted r_idx self0 Hwf Hsp Hinit Hr)
    as [root [l [self1 [Hnth [E [Hs [Hd Hi]]]]]]].
  exists self1. split; [exact E|]. intros v Hv.
  apply (inst_nodes t l self1 Hi) in Hv.
  destruct (instantiated_node t l self1 v Hi Hv)
    as [pre [blk0 [post [El [Hrank [Hdesc _]]]]]].
  exists (1 + Z.of_nat (length pre) + Z.of_nat (length blk0)),
         (range (1 + Z.of_nat (length pre)) (S (length blk0))).
  split; [exact Hrank|]. split; [exact Hdesc|].
  assert (Hc : contiguous_up_to
                 (1 + Z.of_nat (length pre) + Z.of_nat (length blk0))
                 (range (1 + Z.of_nat (length pre)) (S (length blk0)))).
  { exists (length blk0). f_equal. lia. }
  split; [exact Hc|]. intros k. apply steps_on_range with (r := 1 + Z.of_nat (length pre) + Z.of_nat (length blk0)).
  exact Hc.
Qed.

Lemma descendant_sets_are_ranges_witness :
  exists self0 self1,
    Substitute_init example
      (nx.from_weighted_edges [(1, 3, 1); (2, 4, 1); (4, 5, 1); (1, 2, 2); (4, 6, 3)])
      [] [] false = Ok self0
    /\ instantiate_substitute_variables 2 self0 = Ok (tt, self1)
    /\ forall v,
        In v (nx.nodes (nx.from_weighted_edges
                          [(1, 3, 1); (2, 4, 1); (4, 5, 1); (1, 2, 2); (4, 6, 3)])) ->
         exists r ds,
           dict_get v (postorder_nodes self1) = Some r
           /\ dict_get v (descendants self1) = Some ds
           /\ contiguous_up_to r ds
           /\ forall k : Z,
               (step_a k ds = Ok true /\ step_b k ds = false
                /\ step_c k ds = Ok false)
               \/ (step_a k ds = Ok false /\ step_b k ds = true
                   /\ step_c k ds = Ok false)
               \/ (step_a k ds = Ok false /\ step_b k ds = false
                   /\ step_c k ds = Ok true).
Proof.
  assert (Hwf : wf_graphb (nx.from_weighted_edges
                 [(1, 3, 1); (2, 4, 1); (4, 5, 1); (1, 2, 2); (4, 6, 3)]) = true)
    by (vm_compute; reflexivity).
  assert (Hsp : spans (nx.from_weighted_edges
                 [(1, 3, 1); (2, 4, 1); (4, 5, 1); (1, 2, 2); (4, 6, 3)])
                      example = true)
    by (vm_compute; reflexivity).
  assert (Hlt : (2 < nx.number_of_nodes example)%nat) by (vm_compute; lia).
  eexists.
  eassert (Hi : Substitute_init example
                  (nx.from_weighted_edges
                     [(1, 3, 1); (2, 4, 1); (4, 5, 1); (1, 2, 2); (4, 6, 3)])
                  [] [] false = Ok _)
    by (vm_compute; reflexivity).
  destruct (descendant_sets_are_ranges _ _ _ _ 2 _ Hwf Hsp Hi Hlt)
    as [self1 [E H]].
  exists self1. split; [exact Hi|]. split; [exact E | exact H].
Defined.

(** ** The shape of the mapping *)

(** C5, as stated, fails on the orientation of the keys: rooted at node 1,
    the closed path yields the key (4, 3), whose first component 4 is the
    child and whose second component 3 is the parent; the parent-to-child
    pair (3, 4) is not a key. *)
Lemma keys_not_parent_to_child :
  exists sd,
    run_substitute cycle4 path4 [] [] false 0 = Ok sd
    /\ In (4, 3) (map fst sd)
    /\ ~ In (3, 4) (map fst sd)
    /\ child_parent path4 1 4 3
    /\ ~ child_parent path4 1 3 4.
Proof.
  eexists. split; [vm_compute; reflexivity|].
  split; [simpl; auto|].
  split; [simpl; intros [H | [H | [H | []]]]; discriminate H|].
  split.
  - split; [reflexivity|].
    apply avoid_step with 2; [discriminate | vm_compute; tauto |].
    apply avoid_step with 3; [discriminate | vm_compute; tauto |].
    apply avoid_refl. discriminate.
  - intros [_ H].
    assert (Hgen : forall x y, reach_avoiding (nx.to_directed path4) 3 x y ->
                               (x = 1 \/ x = 2) -> y = 1 \/ y = 2).
    { intros x y Hr. induction Hr as [x Hx | x z y Hx He Hrest IH]; intros Hxy.
      - exact Hxy.
      - apply IH. destruct Hxy as [-> | ->]; vm_compute in He.
        + destruct He as [<- | []]. right. reflexivity.
        + destruct He as [<- | [<- | []]].
          * left. reflexivity.
          * exfalso. inversion Hrest; congruence. }
    destruct (Hgen 1 4 H (or_introl eq_refl)); discriminate.
Qed.

(** X1.  For a graph and a tree that the constructor accepts, the
    tree touching every node of the graph, [substitute()] returns a mapping
    whose keys are the node-count-minus-one tree edges, each once and in one
    orientation only, written (child, parent): the second component is on
    the side of the root, reached from it without passing through the
    first.  Every tree edge, fixed or not, is a key, and every key is mapped
    to at most one substitute edge. *)
Theorem substitute_keys_child_to_parent
        (g t : nx.Graph) (fixed restricted : list tuple)
        (r_idx : nat) (self0 : Substitute) :
  wf_graphb g = true ->
  wf_graphb t = true ->
  spans t g = true ->
  Substitute_init g t fixed restricted false = Ok self0 ->
  (r_idx < nx.number_of_nodes g)%nat ->
  exists root sd,
    nth_error (nx.nodes g) r_idx = Some root
    /\ run_substitute g t fixed restricted false r_idx = Ok sd
    /\ length sd = (nx.number_of_nodes g - 1)%nat
    /\ NoDup (map fst sd)
    /\ (forall c p, In (c, p) (map fst sd) -> child_parent t root c p)
    /\ (forall u v, nx.has_edge t u v = true ->
                    (In (u, v) (map fst sd) /\ ~ In (v, u) (map fst sd))
                    \/ (In (v, u) (map fst sd) /\ ~ In (u, v) (map fst sd)))
    /\ (forall k v, In (k, v) sd -> (length v <= 1)%nat).
Proof.
  intros Hwg Hwt Hsp Hinit Hr.
  exact (run_substitute_keys g t fixed restricted r_idx self0 Hwg Hwt Hsp Hinit Hr).
Qed.

Lemma substitute_keys_child_to_parent_witness :
  exists root sd,
    nth_error (nx.nodes example) 2 = Some root
    /\ run_substitute example example_tree [] [] false 2 = Ok sd
    /\ length sd = (nx.number_of_nodes example - 1)%nat
    /\ NoDup (map fst sd)
    /\ (forall c p, In (c, p) (map fst sd) -> child_parent example_tree root c p)
    /\ (forall u v, nx.has_edge example_tree u v = true ->
                    (In (u, v) (map fst sd) /\ ~ In (v, u) (map fst sd))
                    \/ (In (v, u) (map fst sd) /\ ~ In (u, v) (map fst sd)))
    /\ (forall k v, In (k, v) sd -> (length v <= 1)%nat).
Proof.
  assert (Hwg : wf_graphb example = true) by (vm_compute; reflexivity).
  assert (Hwt : wf_graphb example_tree = true) by (vm_compute; reflexivity).
  assert (Hsp : spans example_tree example = true) by (vm_compute; reflexivity).
  assert (Hlt : (2 < nx.number_of_nodes example)%nat) by (vm_compute; lia).
  eassert (Hi : Substitute_init example example_tree [] [] false = Ok _)
    by (vm_compute; reflexivity).
  apply (substitute_keys_child_to_parent _ _ _ _ 2 _ Hwg Hwt Hsp Hi Hlt).
Defined.

(** ** The choice of the root *)

Lemma unorient_swap (a b : Z) : unorient (a, b) = unorient (b, a).
Proof. unfold unorient. simpl. rewrite Z.min_comm, Z.max_comm. reflexivity. Qed.

(** X2.  Two runs on the same valid input that differ only in the
    root drawn both return a mapping, and the two mappings have the same
    keys up to orientation, the edges of the tree.  The orientation of a
    key follows the root, and the substitute edge chosen for a key can
    differ between the roots, so the sets of (tree edge, substitute edge)
    pairs need not coincide. *)
Theorem keys_same_up_to_orientation
        (g t : nx.Graph) (fixed restricted : list tuple)
        (r1 r2 : nat) (self0 : Substitute) :
  wf_graphb g = true ->
  wf_graphb t = true ->
  spans t g = true ->
  Substitute_init g t fixed restricted false = Ok self0 ->
  (r1 < nx.number_of_nodes g)%nat ->
  (r2 < nx.number_of_nodes g)%nat ->
  exists sd1 sd2,
    run_substitute g t fixed restricted false r1 = Ok sd1
    /\ run_substitute g t fixed restricted false r2 = Ok sd2
    /\ same_set (map unorient (map fst sd1)) (map unorient (map fst sd2)).
Proof.
  intros Hwg Hwt Hsp Hinit H1 H2.
  destruct (run_substitute_keys g t fixed restricted r1 self0 Hwg Hwt Hsp Hinit H1)
    as [root1 [sd1 [_ [E1 [_ [_ [Hcp1 [Hcov1 _]]]]]]]].
  destruct (run_substitute_keys g t fixed restricted r2 self0 Hwg Hwt Hsp Hinit H2)
    as [root2 [sd2 [_ [E2 [_ [_ [Hcp2 [Hcov2 _]]]]]]]].
  exists sd1, sd2. split; [exact E1|]. split; [exact E2|].
  assert (Hhalf : forall (sda sdb : subst_dict) (roota : Z),
             (forall c p, In (c, p) (map fst sda) -> child_parent t roota c p) ->
             (forall u v, nx.has_edge t u v = true ->
                          (In (u, v) (map fst sdb) /\ ~ In (v, u) (map fst sdb))
                          \/ (In (v, u) (map fst sdb) /\ ~ In (u, v) (map fst sdb))) ->
             forall x, In x (map unorient (map fst sda)) ->
                       In x (map unorient (map fst sdb))).
  { intros sda sdb roota Hcp Hcov x Hx. apply in_map_iff in Hx.
    destruct Hx as [[c p] [Ex Hin]]. subst x.
    destruct (Hcp c p Hin) as [Hedge _].
    destruct (Hcov c p Hedge) as [[Hk _] | [Hk _]].
    - apply in_map. exact Hk.
    - rewrite unorient_swap. apply in_map. exact Hk. }
  intros x. split.
  - apply (Hhalf sd1 sd2 root1 Hcp1 Hcov2).
  - apply (Hhalf sd2 sd1 root2 Hcp2 Hcov1).
Qed.

Lemma keys_same_up_to_orientation_witness :
  exists sd1 sd2,
    run_substitute fork_graph fork_tree [] [] false 0 = Ok sd1
    /\ run_substitute fork_graph fork_tree [] [] false 2 = Ok sd2
    /\ same_set (map unorient (map fst sd1)) (map unorient (map fst sd2)).
Proof.
  assert (Hwg : wf_graphb fork_graph = true) by (vm_compute; reflexivity).
  assert (Hwt : wf_graphb fork_tree = true) by (vm_compute; reflexivity).
  assert (Hsp : spans fork_tree fork_graph = true) by (vm_compute; reflexivity).
  assert (H0 : (0 < nx.number_of_nodes fork_graph)%nat) by (vm_compute; lia).
  assert (H2 : (2 < nx.number_of_nodes fork_graph)%nat) by (vm_compute; lia).
  eassert (Hi : Substitute_init fork_graph fork_tree [] [] false = Ok _)
    by (vm_compute; reflexivity).
  apply (keys_same_up_to_orientation _ _ _ _ 0 2 _ Hwg Hwt Hsp Hi H0 H2).
Defined.

(** * Further properties of the code *)

(** ** What a returned substitute is *)

(** The parts of a successful run of [substitute()]: the instance after
    step 1, the ordered edges, and what the loop of step 2 adds to the
    mapping. *)
Lemma substitute_run (r_idx : nat) (self self' : Substitute) (sd : subst_dict) :
  substitute r_idx self = Ok (sd, self') ->
  exists s1 oe,
    instantiate_substitute_variables r_idx self = Ok (tt, s1)
    /\ same_inputs self s1
    /\ cuts_only s1 self'
    /\ cuts_inv self'
    /\ (forall e, In e oe ->
          nx.edge_weight (graph self) (snd e) (snd (fst e)) = Ok (fst (fst e))
          /\ In (snd e, snd (fst e)) (nx.di_edges (directed s1)))
    /\ forall k v, In (k, v) sd ->
         forall sub, In sub v ->
           exists w, In (w, fst k, snd k) oe
                     /\ good_substitute s1 w (fst k) sub
                     /\ tuple_in [w; fst k; snd k] (fixed_edges self) = false.
Proof.
  intros H. destruct (substitute_parts r_idx self self' sd H)
    as [s1 [oe [Hi [Hoe Hloop]]]].
  destruct (instantiate_result r_idx self s1 tt Hi) as [Hq Hsame].
  destruct (postordered_edges_result s1 s1 oe Hoe) as [_ Hes].
  assert (Hinv : cuts_inv s1).
  { split; rewrite Hq; [constructor | intros e []]. }
  destruct (substitute_loop_result oe s1 self' _ sd Hloop Hinv)
    as [Hco [Hinv' Hvals]].
  exists s1, oe. split; [exact Hi|]. split; [exact Hsame|].
  split; [exact Hco|]. split; [exact Hinv'|].
  destruct Hsame as [Hg [_ [Hf _]]].
  split.
  - intros e He. rewrite Hg. apply Hes, He.
  - intros k v Hk sub Hsub.
    destruct (Hvals k v Hk) as [v0 [extra [Hin [Ev Hex]]]].
    apply initial_dict_values in Hin. destruct Hin as [-> | []].
    simpl in Ev. subst v. destruct (Hex sub Hsub) as [w [Hw [Hgood Hfix]]].
    exists w. rewrite Hf. auto.
Qed.

(** X5.  Whatever the input, when [substitute()] returns, every edge (y, z)
    it lists for a key (c, p) is an edge of the graph that is not an edge of
    the tree, whose tuple (y, z) is not in [restricted_edges], and whose
    weight is the weight the graph gives the tree edge between p and c;
    the rank of its first endpoint y is among the descendant ranks of c and
    the rank of its second endpoint z is not. *)
Theorem substitutes_cross_the_cut
        (r_idx : nat) (self self' : Substitute) (sd : subst_dict)
        (c p y z : Z) (v : list (Z * Z)) :
  substitute r_idx self = Ok (sd, self') ->
  In ((c, p), v) sd ->
  In (y, z) v ->
  exists w,
    nx.edge_weight (graph self) p c = Ok w
    /\ nx.edge_weight (graph self) y z = Ok w
    /\ nx.has_edge (graph self) y z = true
    /\ nx.has_edge (tree self) y z = false
    /\ ~ In [y; z] (restricted_edges self)
    /\ ranked_within self' c y
    /\ ranked_outside self' c z.
Proof.
  intros H Hk Hsub.
  destruct (substitute_run r_idx self self' sd H)
    as [s1 [oe [_ [Hsame [Hco [_ [Hes Hvals]]]]]]].
  destruct (Hvals (c, p) v Hk (y, z) Hsub) as [w [Hw [Hgood _]]].
  simpl in Hw, Hgood. exists w.
  destruct (Hes _ Hw) as [Hwt _]. simpl in Hwt.
  destruct Hgood as [[Hg [Hr [Ht Hwe]]] [Hin Hout]]. simpl in Hg, Hr, Ht, Hwe.
  destruct Hsame as [Eg [Et [_ [Er _]]]].
  rewrite Eg, Et, Er.
  split; [rewrite <- Eg; exact Hwt|].
  split; [exact Hwe|]. split; [exact Hg|]. split; [exact Ht|].
  split; [apply tuple_in_not_In; exact Hr|].
  split.
  - apply (ranked_within_cuts_only s1 self' c y Hco). exact Hin.
  - apply (ranked_outside_cuts_only s1 self' c z Hco). exact Hout.
Qed.

Lemma substitutes_cross_the_cut_witness :
  exists self' w,
    nx.edge_weight example 1 2 = Ok w
    /\ nx.edge_weight example 4 3 = Ok w
    /\ nx.has_edge example 4 3 = true
    /\ nx.has_edge example_tree 4 3 = false
    /\ ~ In [4; 3] []
    /\ ranked_within self' 2 4
    /\ ranked_outside self' 2 3.
Proof.
  eassert (Hs : substitute 2 (fresh_instance example example_tree [] [] false)
                = Ok (_, _)) by (vm_compute; reflexivity).
  eexists.
  apply (substitutes_cross_the_cut 2 _ _ _ 2 1 4 3 [(4, 3)] Hs).
  - simpl. auto 10.
  - left. reflexivity.
Defined.

(** X6.  When the weighted triple (w, c, p) of a tree edge, w being the
    weight the graph gives the edge, c the child and p the parent under the
    root drawn, is in [fixed_edges], step 2.2 is skipped and the key (c, p)
    is mapped to the empty list. *)
Theorem fixed_triple_maps_to_none
        (r_idx : nat) (self self' : Substitute) (sd : subst_dict)
        (w c p : Z) (v : list (Z * Z)) :
  substitute r_idx self = Ok (sd, self') ->
  In ((c, p), v) sd ->
  nx.edge_weight (graph self) p c = Ok w ->
  In [w; c; p] (fixed_edges self) ->
  v = [].
Proof.
  intros H Hk Hw Hfix. apply tuple_in_In in Hfix.
  destruct (substitute_run r_idx self self' sd H)
    as [s1 [oe [_ [_ [_ [_ [Hes Hvals]]]]]]].
  destruct v as [|sub v]; [reflexivity|]. exfalso.
  destruct (Hvals (c, p) (sub :: v) Hk sub (or_introl eq_refl))
    as [w0 [Hw0 [_ Hnot]]].
  simpl in Hw0, Hnot. destruct (Hes _ Hw0) as [Hwt _]. simpl in Hwt.
  rewrite Hw in Hwt. inversion Hwt. subst w0. congruence.
Qed.

Lemma fixed_triple_maps_to_none_witness :
  exists sd self',
    substitute 0 (fresh_instance cycle4 path4 [[1; 4; 3]] [] false)
    = Ok (sd, self')
    /\ In ((4, 3), []) sd
    /\ @nil (Z * Z) = [].
Proof.
  eassert (Hs : substitute 0 (fresh_instance cycle4 path4 [[1; 4; 3]] [] false)
                = Ok (_, _)) by (vm_compute; reflexivity).
  do 2 eexists. split; [exact Hs|].
  split; [simpl; auto|].
  apply (fixed_triple_maps_to_none 0 _ _ _ 1 4 3 [] Hs).
  - simpl. auto.
  - vm_compute. reflexivity.
  - left. reflexivity.
Defined.

(** X7.  For a graph and a tree that the constructor accepts, the tree
    touching every node of the graph: when [substitute()] lists the edge
    (y, z) for the key (c, p), the key is an edge of the tree, (y, z) joins
    two nodes of the tree and is not one of its edges, and the tree with
    the edge between c and p taken out and the edge between y and z put in
    still joins every node to every other.  Having as many edges as before,
    it is a spanning tree again. *)
Theorem exchange_keeps_spanning_tree
        (g t : nx.Graph) (fixed restricted : list tuple)
        (r_idx : nat) (self self' : Substitute) (sd : subst_dict)
        (c p y z : Z) (v : list (Z * Z)) :
  wf_graphb t = true ->
  spans t g = true ->
  Substitute_init g t fixed restricted false = Ok self ->
  substitute r_idx self = Ok (sd, self') ->
  In ((c, p), v) sd ->
  In (y, z) v ->
  nx.has_edge t c p = true
  /\ In y (nx.nodes t) /\ In z (nx.nodes t)
  /\ nx.has_edge t y z = false
  /\ forall a b, In a (nx.nodes t) -> In b (nx.nodes t) ->
                 joined (exchanged t c p y z) a b.
Proof.
  intros Hwt Hsp Hinit H Hk Hsub.
  destruct (Substitute_init_Ok g t fixed restricted false self Hinit)
    as [Eself [_ Hct]].
  destruct (check_input_tree_Ok t g Hct) as [Hcg _].
  destruct (check_input_graph_Ok t Hcg) as [_ [Hloop _]].
  pose proof (wf_graphb_wf t Hwt) as Hwf.
  destruct (substitute_run r_idx self self' sd H)
    as [s1 [oe [Hi [_ [_ [_ [Hes Hvals]]]]]]].
  assert (Hlt : (r_idx < nx.number_of_nodes g)%nat).
  { assert (Eg : graph self = g) by (rewrite Eself; reflexivity).
    rewrite <- Eg. apply (instantiate_drew_node r_idx self s1 tt); [|exact Hi].
    rewrite Eself. reflexivity. }
  destruct (valid_instantiate g t fixed restricted r_idx self Hwt Hsp Hinit Hlt)
    as [root [l [s1' [_ [Hi' [_ [Hdfs Hinst]]]]]]].
  assert (s1' = s1) by congruence. subst s1'.
  destruct (Hvals (c, p) v Hk (y, z) Hsub) as [w [Hw [Hgood _]]].
  simpl in Hw, Hgood. destruct (Hes _ Hw) as [_ Hdi]. simpl in Hdi.
  destruct Hgood as [[_ [_ [Hnt _]]] [Hy Hz]]. simpl in Hnt, Hy, Hz.
  assert (Et : tree s1 = t).
  { destruct (instantiate_result r_idx self s1 tt Hi) as [_ [_ [E _]]].
    rewrite <- E, Eself. reflexivity. }
  rewrite Et in Hnt.
  assert (Hedge : edge (directed s1) p c).
  { apply di_edges_In; [|exact Hdi].
    rewrite (inst_keys t l s1 Hinst). apply (wf_nodes t Hwf). }
  assert (Hroot : forall x, In x l -> down (nx.to_directed t) l root x).
  { apply dfs_postorder_down; [apply (wf_closed t Hwf) | exact Hdfs]. }
  assert (Hl : forall x, nx.has_edge t x x = false).
  { intros x. apply no_self_cycles. exact Hloop. }
  destruct (exchange_parent t l s1 Hinst c p Hl Hedge) as [_ [Hpc _]].
  assert (Hyl : In y l).
  { destruct Hy as [r [dn [Hr _]]].
    rewrite (inst_po t l s1 Hinst) in Hr. apply dict_get_In_keys in Hr.
    rewrite map_fst_ranks_from in Hr. exact Hr. }
  assert (Hzl : In z l).
  { destruct Hz as [r [dn [Hr _]]].
    rewrite (inst_po t l s1 Hinst) in Hr. apply dict_get_In_keys in Hr.
    rewrite map_fst_ranks_from in Hr. exact Hr. }
  split.
  { apply has_edge_sym; [exact Hwf|]. apply edge_has_edge. exact Hpc. }
  split; [apply (inst_nodes t l s1 Hinst), Hyl|].
  split; [apply (inst_nodes t l s1 Hinst), Hzl|].
  split; [exact Hnt|].
  intros a b Ha Hb.
  apply (exchange_joined t l s1 Hwf Hinst root c p y z Hl Hroot Hedge Hy Hz);
    apply (inst_nodes t l s1 Hinst); assumption.
Qed.

Lemma exchange_keeps_spanning_tree_witness :
  nx.has_edge example_tree 2 1 = true
  /\ In 4 (nx.nodes example_tree) /\ In 3 (nx.nodes example_tree)
  /\ nx.has_edge example_tree 4 3 = false
  /\ forall a b, In a (nx.nodes example_tree) -> In b (nx.nodes example_tree) ->
                 joined (exchanged example_tree 2 1 4 3) a b.
Proof.
  assert (Hwt : wf_graphb example_tree = true) by (vm_compute; reflexivity).
  assert (Hsp : spans example_tree example = true) by (vm_compute; reflexivity).
  assert (Hi : Substitute_init example example_tree [] [] false
               = Ok (fresh_instance example example_tree [] [] false))
    by (vm_compute; reflexivity).
  eassert (Hs : substitute 2 (fresh_instance example example_tree [] [] false)
                = Ok (_, _)) by (vm_compute; reflexivity).
  apply (exchange_keeps_spanning_tree
           example example_tree [] [] 2 _ _ _ 2 1 4 3 [(4, 3)]
           Hwt Hsp Hi Hs).
  - simpl. auto 10.
  - left. reflexivity.
Defined.

(** ** The ranks and the pruned graph *)

(** X3.  For a graph and a tree that the constructor accepts, the tree
    touching every node of the graph, step 1 of [substitute()] returns
    without an exception whichever index is drawn, and [postorder_nodes]
    ranks every node of the tree exactly once: its keys are the nodes of the
    tree without repetition, the ranks are 1, 2, ..., n in the order of the
    keys, and the node drawn as the root has the last rank n. *)
Theorem postorder_ranks_number_the_tree
        (g t : nx.Graph) (fixed restricted : list tuple)
        (r_idx : nat) (self : Substitute) :
  wf_graphb t = true ->
  spans t g = true ->
  Substitute_init g t fixed restricted false = Ok self ->
  (r_idx < nx.number_of_nodes g)%nat ->
  exists root s1,
    nth_error (nx.nodes g) r_idx = Some root
    /\ instantiate_substitute_variables r_idx self = Ok (tt, s1)
    /\ NoDup (map fst (postorder_nodes s1))
    /\ (forall x, In x (map fst (postorder_nodes s1)) <-> In x (nx.nodes t))
    /\ map snd (postorder_nodes s1) = range 1 (nx.number_of_nodes t)
    /\ dict_get root (postorder_nodes s1)
       = Some (Z.of_nat (nx.number_of_nodes t)).
Proof.
  intros Hwt Hsp Hinit Hlt.
  destruct (valid_instantiate g t fixed restricted r_idx self Hwt Hsp Hinit Hlt)
    as [root [l [s1 [Hroot [Hi [_ [Hdfs Hinst]]]]]]].
  pose proof (wf_graphb_wf t Hwt) as Hwf.
  pose proof (instantiated_length t l s1 Hwf Hinst) as Hlen.
  exists root, s1. split; [exact Hroot|]. split; [exact Hi|].
  rewrite (inst_po t l s1 Hinst), map_fst_ranks_from, map_snd_ranks_from, Hlen.
  split; [apply (inst_nodup t l s1 Hinst)|].
  split; [apply (inst_nodes t l s1 Hinst)|].
  split; [reflexivity|].
  destruct (dfs_postorder_root_last _ root l (wf_closed t Hwf) Hdfs) as [l0 El].
  assert (Hn : ~ In root l0).
  { pose proof (inst_nodup t l s1 Hinst) as Hnd. rewrite El in Hnd.
    apply NoDup_remove_2 in Hnd. rewrite app_nil_r in Hnd. exact Hnd. }
  rewrite (ranks_from_get l l0 [] root 1 El Hn).
  rewrite <- Hlen. f_equal. rewrite El at 1. rewrite length_app.
  cbn [length]. lia.
Qed.

Lemma postorder_ranks_number_the_tree_witness :
  exists root s1,
    nth_error (nx.nodes example) 2 = Some root
    /\ instantiate_substitute_variables
         2 (fresh_instance example example_tree [] [] false) = Ok (tt, s1)
    /\ NoDup (map fst (postorder_nodes s1))
    /\ (forall x, In x (map fst (postorder_nodes s1))
                  <-> In x (nx.nodes example_tree))
    /\ map snd (postorder_nodes s1) = range 1 (nx.number_of_nodes example_tree)
    /\ dict_get root (postorder_nodes s1)
       = Some (Z.of_nat (nx.number_of_nodes example_tree)).
Proof.
  assert (Hwt : wf_graphb example_tree = true) by (vm_compute; reflexivity).
  assert (Hsp : spans example_tree example = true) by (vm_compute; reflexivity).
  assert (Hi : Substitute_init example example_tree [] [] false
               = Ok (fresh_instance example example_tree [] [] false))
    by (vm_compute; reflexivity).
  assert (Hlt : (2 < nx.number_of_nodes example)%nat) by (vm_compute; lia).
  apply (postorder_ranks_number_the_tree
           example example_tree [] [] 2 _ Hwt Hsp Hi Hlt).
Defined.

(** X4.  On such an input the first loop of [postorder_tree] leaves in
    [self.directed] exactly the tree edges oriented from the higher rank to
    the lower one: u -> v is an edge of the pruned graph if and only if u
    and v are joined in the tree and v is ranked below u.  So every tree
    edge is kept in one orientation and deleted in the other. *)
Theorem pruned_graph_points_down
        (g t : nx.Graph) (fixed restricted : list tuple)
        (r_idx : nat) (self s1 : Substitute) (u v : Z) :
  wf_graphb t = true ->
  spans t g = true ->
  Substitute_init g t fixed restricted false = Ok self ->
  instantiate_substitute_variables r_idx self = Ok (tt, s1) ->
  (In v (nx.succ_of (directed s1) u) <->
   nx.has_edge t u v = true
   /\ rank_of (postorder_nodes s1) v < rank_of (postorder_nodes s1) u)
  /\ (nx.has_edge t u v = true ->
      (In v (nx.succ_of (directed s1) u) /\ ~ In u (nx.succ_of (directed s1) v))
      \/ (In u (nx.succ_of (directed s1) v)
          /\ ~ In v (nx.succ_of (directed s1) u))).
Proof.
  intros Hwt Hsp Hinit Hi.
  destruct (Substitute_init_Ok g t fixed restricted false self Hinit)
    as [Eself [_ Hct]].
  destruct (check_input_tree_Ok t g Hct) as [Hcg _].
  destruct (check_input_graph_Ok t Hcg) as [_ [Hloop _]].
  pose proof (wf_graphb_wf t Hwt) as Hwf.
  assert (Hlt : (r_idx < nx.number_of_nodes g)%nat).
  { assert (Eg : graph self = g) by (rewrite Eself; reflexivity).
    rewrite <- Eg. apply (instantiate_drew_node r_idx self s1 tt); [|exact Hi].
    rewrite Eself. reflexivity. }
  destruct (valid_instantiate g t fixed restricted r_idx self Hwt Hsp Hinit Hlt)
    as [root [l [s1' [_ [Hi' [_ [_ Hinst]]]]]]].
  assert (s1' = s1) by congruence. subst s1'.
  pose proof (kept_edge t l (directed s1) Hwf Hloop
                        (inst_nodup t l s1 Hinst) (inst_nodes t l s1 Hinst)
                        (inst_keys t l s1 Hinst) (inst_succ t l s1 Hinst))
    as Hkept.
  rewrite (inst_po t l s1 Hinst).
  assert (Hiff : forall a b,
             In b (nx.succ_of (directed s1) a) <->
             nx.has_edge t a b = true
             /\ rank_of (ranks_from 1 l) b < rank_of (ranks_from 1 l) a).
  { intros a b. rewrite <- edge_has_edge. apply (Hkept a b). }
  split; [apply Hiff|].
  intros He. rewrite !Hiff.
  pose proof (has_edge_sym t u v Hwf He) as He'.
  assert (Hne : rank_of (ranks_from 1 l) u <> rank_of (ranks_from 1 l) v).
  { intros E.
    assert (Hu : In u l).
    { apply (inst_nodes t l s1 Hinst). rewrite <- to_directed_keys.
      apply edge_source_key with v. apply edge_has_edge. exact He. }
    assert (Hv : In v l).
    { apply (inst_nodes t l s1 Hinst). rewrite <- to_directed_keys.
      apply edge_source_key with u. apply edge_has_edge. exact He'. }
    apply (rank_of_inj l 1 u v (inst_nodup t l s1 Hinst) Hu Hv) in E.
    subst v. rewrite (no_self_cycles t u Hloop) in He. discriminate. }
  destruct (Z.lt_total (rank_of (ranks_from 1 l) u) (rank_of (ranks_from 1 l) v))
    as [Hlt' | [Heq | Hgt]].
  - right. split; [auto|]. intros [_ H]. lia.
  - contradiction.
  - left. split; [auto|]. intros [_ H]. lia.
Qed.

Lemma pruned_graph_points_down_witness :
  exists s1,
    (In 4 (nx.succ_of (directed s1) 2) <->
     nx.has_edge example_tree 2 4 = true
     /\ rank_of (postorder_nodes s1) 4 < rank_of (postorder_nodes s1) 2)
    /\ (nx.has_edge example_tree 2 4 = true ->
        (In 4 (nx.succ_of (directed s1) 2) /\ ~ In 2 (nx.succ_of (directed s1) 4))
        \/ (In 2 (nx.succ_of (directed s1) 4)
            /\ ~ In 4 (nx.succ_of (directed s1) 2))).
Proof.
  assert (Hwt : wf_graphb example_tree = true) by (vm_compute; reflexivity).
  assert (Hsp : spans example_tree example = true) by (vm_compute; reflexivity).
  assert (Hi : Substitute_init example example_tree [] [] false
               = Ok (fresh_instance example example_tree [] [] false))
    by (vm_compute; reflexivity).
  eassert (Hs : instantiate_substitute_variables
                  2 (fresh_instance example example_tree [] [] false)
                = Ok (tt, _)) by (vm_compute; reflexivity).
  eexists.
  apply (pruned_graph_points_down
           example example_tree [] [] 2 _ _ 2 4 Hwt Hsp Hi Hs).
Defined.

(** ** The validators *)

(** X8.  On a graph with at least one node, [check_input_graph] returns
    without an exception exactly when every node is reachable from every
    other, no node has an edge to itself, and every edge has a weight;
    otherwise it raises a [ValueError] and no other exception. *)
Theorem check_input_graph_accepts (g : nx.Graph) :
  wf_graphb g = true ->
  g <> [] ->
  (check_input_graph g = Ok tt <->
   (forall x y, In x (nx.nodes g) -> In y (nx.nodes g) ->
                reach (nx.to_directed g) x y)
   /\ (forall x, nx.has_edge g x x = false)
   /\ (forall x y, nx.has_edge g x y = true ->
                   exists w, nx.edge_weight g x y = Ok w))
  /\ (check_input_graph g = Ok tt
      \/ exists msg, check_input_graph g = Raise (ValueError msg)).
Proof.
  intros Hwg Hne. pose proof (wf_graphb_wf g Hwg) as Hwf.
  destruct (is_connected_iff g Hwf Hne) as [c [Hc Hciff]].
  destruct (is_weighted_iff g Hwf) as [w [Hw Hwiff]].
  pose proof (has_self_cycles_iff g) as Hliff.
  unfold check_input_graph. rewrite Hc. simpl.
  destruct c; simpl.
  - destruct (has_self_cycles g); simpl.
    + split.
      * split; [discriminate|]. intros [_ [H _]].
        apply Hliff in H. discriminate.
      * right. eexists. reflexivity.
    + rewrite Hw. simpl. destruct w; simpl.
      * split; [|left; reflexivity].
        split; [|reflexivity]. intros _.
        split; [apply Hciff; reflexivity|].
        split; [apply Hliff; reflexivity|].
        apply Hwiff. reflexivity.
      * split.
        -- split; [discriminate|]. intros [_ [_ H]].
           apply Hwiff in H. discriminate.
        -- right. eexists. reflexivity.
  - split.
    + split; [discriminate|]. intros [H _]. apply Hciff in H. discriminate.
    + right. eexists. reflexivity.
Qed.

Lemma check_input_graph_accepts_witness :
  (check_input_graph example = Ok tt <->
   (forall x y, In x (nx.nodes example) -> In y (nx.nodes example) ->
                reach (nx.to_directed example) x y)
   /\ (forall x, nx.has_edge example x x = false)
   /\ (forall x y, nx.has_edge example x y = true ->
                   exists w, nx.edge_weight example x y = Ok w))
  /\ (check_input_graph example = Ok tt
      \/ exists msg, check_input_graph example = Raise (ValueError msg)).
Proof.
  assert (Hwg : wf_graphb example = true) by (vm_compute; reflexivity).
  assert (Hne : example <> []) by discriminate.
  apply (check_input_graph_accepts example Hwg Hne).
Defined.

(** X9.  For a tree that passes [check_input_graph], [check_input_tree]
    returns without an exception exactly when every edge of the tree is an
    edge of the graph and the tree has one edge less than it has nodes;
    otherwise it raises the [ValueError] "Input tree is not a spanning
    tree.".  Neither the weights of the tree nor the nodes of the graph are
    compared with anything. *)
Theorem check_input_tree_accepts (t g : nx.Graph) :
  wf_graphb t = true ->
  wf_graphb g = true ->
  check_input_graph t = Ok tt ->
  (check_input_tree t g = Ok tt <->
   (forall u v, nx.has_edge t u v = true -> nx.has_edge g u v = true)
   /\ (nx.number_of_nodes t - 1)%nat = nx.number_of_edges t)
  /\ (check_input_tree t g = Ok tt
      \/ check_input_tree t g
         = Raise (ValueError "Input tree is not a spanning tree.")).
Proof.
  intros Hwt Hwg Hcg.
  pose proof (wf_graphb_wf t Hwt) as Hwft.
  pose proof (wf_graphb_wf g Hwg) as Hwfg.
  destruct (check_input_graph_Ok t Hcg) as [Hconn _].
  unfold check_input_tree. rewrite Hcg. simpl.
  unfold is_tree_of_graph.
  destruct (forallb (fun e => nx.has_edge g (fst e) (snd e)) (nx.edges t))
    eqn:Hall.
  - assert (Hsub : forall u v, nx.has_edge t u v = true ->
                               nx.has_edge g u v = true).
    { intros u v. apply (tree_edges_in_graph t g u v Hwft Hwfg Hall). }
    unfold nx.is_tree. destruct t as [|e t'] eqn:Et; [discriminate Hconn|].
    rewrite <- Et in *.
    unfold nx.number_of_nodes.
    destruct (Nat.eqb (length t - 1) (nx.number_of_edges t)) eqn:En.
    + rewrite Hconn. simpl. apply Nat.eqb_eq in En.
      split; [|left; reflexivity]. split; [auto | reflexivity].
    + simpl. apply Nat.eqb_neq in En.
      split; [|right; reflexivity].
      split; [discriminate|]. intros [_ H]. contradiction.
  - simpl. split; [|right; reflexivity].
    split; [discriminate|]. intros [H _].
    assert (Hall' : forallb (fun e => nx.has_edge g (fst e) (snd e))
                            (nx.edges t) = true).
    { apply forallb_forall. intros [u v] Hin. simpl.
      apply H. apply edges_has_edge; [apply (wf_nodes t Hwft) | exact Hin]. }
    congruence.
Qed.

Lemma check_input_tree_accepts_witness :
  (check_input_tree example_tree example = Ok tt <->
   (forall u v, nx.has_edge example_tree u v = true ->
                nx.has_edge example u v = true)
   /\ (nx.number_of_nodes example_tree - 1)%nat
      = nx.number_of_edges example_tree)
  /\ (check_input_tree example_tree example = Ok tt
      \/ check_input_tree example_tree example
         = Raise (ValueError "Input tree is not a spanning tree.")).
Proof.
  assert (Hwt : wf_graphb example_tree = true) by (vm_compute; reflexivity).
  assert (Hwg : wf_graphb example = true) by (vm_compute; reflexivity).
  assert (Hcg : check_input_graph example_tree = Ok tt)
    by (vm_compute; reflexivity).
  apply (check_input_tree_accepts example_tree example Hwt Hwg Hcg).
Defined.

(** X10.  An empty graph, and an empty tree beside a graph that passes the
    check, make the constructor fail with [NetworkXPointlessConcept], the
    exception of [nx.is_connected], not with a [ValueError]. *)
Theorem empty_input_raises_pointless_concept
        (g t : nx.Graph) (fixed restricted : list tuple) (ord : bool) :
  check_input_graph g = Ok tt ->
  Substitute_init [] t fixed restricted ord = Raise NetworkXPointlessConcept
  /\ Substitute_init g [] fixed restricted ord = Raise NetworkXPointlessConcept.
Proof.
  intros Hcg. split; [reflexivity|].
  unfold Substitute_init. rewrite Hcg. reflexivity.
Qed.

Lemma empty_input_raises_pointless_concept_witness :
  Substitute_init [] path4 [] [] false = Raise NetworkXPointlessConcept
  /\ Substitute_init cycle4 [] [] [] false = Raise NetworkXPointlessConcept.
Proof.
  assert (Hcg : check_input_graph cycle4 = Ok tt) by (vm_compute; reflexivity).
  apply (empty_input_raises_pointless_concept cycle4 path4 [] [] false Hcg).
Defined.

(** ** [is_admissible] *)

(** X11.  When every member of [fixed_edges] is a pair, [is_admissible]
    returns a boolean, and returns true exactly when every fixed pair is an
    edge of the tree, in whichever orientation it is written, and no
    restricted tuple is one of the pairs that [tree.edges] lists. *)
Theorem is_admissible_on_pairs (t : nx.Graph) (fixed restricted : list tuple) :
  (forall f, In f fixed -> exists u v, f = [u; v]) ->
  exists b,
    is_admissible t fixed restricted = Ok b
    /\ (b = true <->
        (forall u v, In [u; v] fixed -> nx.has_edge t u v = true)
        /\ (forall e, In e (nx.edges t) -> ~ In [fst e; snd e] restricted)).
Proof.
  intros Hp. destruct (fixed_in_tree_pairs t fixed Hp) as [f [Hf Hfiff]].
  unfold is_admissible. rewrite Hf. simpl. destruct f; simpl.
  - eexists. split; [reflexivity|].
    rewrite negb_true_iff, restricted_meets_tree. split.
    + intros H. split; [apply Hfiff; reflexivity | exact H].
    + intros [_ H]. exact H.
  - exists false. split; [reflexivity|]. split; [discriminate|].
    intros [H _]. apply Hfiff in H. discriminate.
Qed.

Lemma is_admissible_on_pairs_witness :
  exists b,
    is_admissible path4 [[3; 4]] [[1; 4]] = Ok b
    /\ (b = true <->
        (forall u v, In [u; v] [[3; 4]] -> nx.has_edge path4 u v = true)
        /\ (forall e, In e (nx.edges path4) -> ~ In [fst e; snd e] [[1; 4]])).
Proof.
  apply (is_admissible_on_pairs path4 [[3; 4]] [[1; 4]]).
  intros f [<- | []]. exists 3, 4. reflexivity.
Defined.

(** X12.  The two tests of [is_admissible] treat orientation differently.
    For an edge that [tree.edges] lists as (u, v): restricting (u, v) makes
    the tree inadmissible, restricting (v, u) goes unnoticed, and fixing
    either (u, v) or (v, u) is accepted. *)
Theorem is_admissible_orientation (t : nx.Graph) (u v : Z) :
  wf_graphb t = true ->
  In (u, v) (nx.edges t) ->
  u <> v ->
  is_admissible t [] [[u; v]] = Ok false
  /\ is_admissible t [] [[v; u]] = Ok true
  /\ is_admissible t [[u; v]] [] = Ok true
  /\ is_admissible t [[v; u]] [] = Ok true.
Proof.
  intros Hwt Hin Hne. pose proof (wf_graphb_wf t Hwt) as Hwf.
  pose proof (edges_has_edge t u v (wf_nodes t Hwf) Hin) as He.
  pose proof (has_edge_sym t u v Hwf He) as He'.
  pose proof (edges_one_orientation t u v (wf_nodes t Hwf) Hne Hin) as Hno.
  unfold is_admissible. simpl. rewrite He, He'. simpl.
  rewrite !orb_false_r.
  assert (H1 : tuple_in [u; v] (map tuple_of_pair (nx.edges t)) = true).
  { apply tuple_in_In. apply in_map_iff. exists (u, v). auto. }
  assert (H2 : tuple_in [v; u] (map tuple_of_pair (nx.edges t)) = false).
  { apply tuple_in_not_In. intros H. apply in_map_iff in H.
    destruct H as [[a b] [E Hab]]. inversion E. subst. exact (Hno Hab). }
  rewrite H1, H2. auto.
Qed.

Lemma is_admissible_orientation_witness :
  is_admissible path4 [] [[3; 4]] = Ok false
  /\ is_admissible path4 [] [[4; 3]] = Ok true
  /\ is_admissible path4 [[3; 4]] [] = Ok true
  /\ is_admissible path4 [[4; 3]] [] = Ok true.
Proof.
  assert (Hwt : wf_graphb path4 = true) by (vm_compute; reflexivity).
  apply (is_admissible_orientation path4 3 4 Hwt).
  - vm_compute. auto.
  - discriminate.
Defined.

(** ** The root *)



(** X14.  With [ordered=True] no root is drawn and no traversal is made:
    step 1 returns whatever index would have been drawn, the ranks are
    1, 2, ..., n in the order of [tree.nodes], taken as given, and the
    pruned graph keeps the tree edges u -> v whose target is not ranked
    above their source.  The result of [substitute()] then does not depend
    on the index either. *)
Theorem ordered_fast_path_trusts_node_order (self : Substitute) :
  wf_graphb (tree self) = true ->
  ordered self = true ->
  exists s1,
    (forall r_idx, instantiate_substitute_variables r_idx self = Ok (tt, s1))
    /\ map fst (postorder_nodes s1) = nx.nodes (tree self)
    /\ map snd (postorder_nodes s1)
       = range 1 (nx.number_of_nodes (tree self))
    /\ (forall u v,
           In v (nx.succ_of (directed s1) u) <->
           nx.has_edge (tree self) u v = true
           /\ rank_of (postorder_nodes s1) v <= rank_of (postorder_nodes s1) u)
    /\ forall r r', substitute r self = substitute r' self.
Proof.
  intros Hwt Hord. pose proof (wf_graphb_wf _ Hwt) as Hwf.
  destruct (ordered_instantiate self Hwf Hord) as [d' [ds [Hi [Hkeys Hpruned]]]].
  set (l := nx.nodes (tree self)) in *.
  assert (Hnd : NoDup l) by apply (wf_nodes _ Hwf).
  eexists. split; [exact Hi|]. simpl.
  rewrite map_fst_ranks_from, map_snd_ranks_from.
  split; [reflexivity|].
  split.
  { unfold l, nx.nodes, nx.number_of_nodes. rewrite length_map. reflexivity. }
  split.
  - intros u v. split.
    + intros Hin.
      assert (Hu : In u l).
      { rewrite <- Hkeys. apply edge_source_key with v. exact Hin. }
      rewrite (Hpruned u Hu) in Hin. apply filter_In in Hin.
      destruct Hin as [He Hup]. apply memZ_In in Hup.
      apply (upto_rank l 1 u v Hnd Hu) in Hup. destruct Hup as [_ Hle].
      split; [apply edge_has_edge; exact He | exact Hle].
    + intros [He Hle].
      assert (Hu : In u l).
      { unfold l. rewrite <- to_directed_keys.
        apply edge_source_key with v. apply edge_has_edge. exact He. }
      assert (Hv : In v l).
      { unfold l. rewrite <- to_directed_keys.
        apply (wf_closed _ Hwf u v). apply edge_has_edge. exact He. }
      rewrite (Hpruned u Hu). apply filter_In.
      split; [apply edge_has_edge; exact He|].
      apply memZ_In. apply (upto_rank l 1 u v Hnd Hu). auto.
  - intros r r'. unfold substitute, bind. rewrite (Hi r), (Hi r').
    reflexivity.
Qed.

Lemma ordered_fast_path_trusts_node_order_witness :
  exists s1,
    (forall r_idx,
        instantiate_substitute_variables
          r_idx (fresh_instance example example_tree [] [] true) = Ok (tt, s1))
    /\ map fst (postorder_nodes s1) = nx.nodes example_tree
    /\ map snd (postorder_nodes s1) = range 1 (nx.number_of_nodes example_tree)
    /\ (forall u v,
           In v (nx.succ_of (directed s1) u) <->
           nx.has_edge example_tree u v = true
           /\ rank_of (postorder_nodes s1) v <= rank_of (postorder_nodes s1) u)
    /\ forall r r',
         substitute r (fresh_instance example example_tree [] [] true)
         = substitute r' (fresh_instance example example_tree [] [] true).
Proof.
  assert (Hwt : wf_graphb example_tree = true) by (vm_compute; reflexivity).
  apply (ordered_fast_path_trusts_node_order
           (fresh_instance example example_tree [] [] true) Hwt).
  reflexivity.
Defined.

(** ** The two steps of a round *)

(** X15.  Step 2.1 for an incident edge (w, a, b), where b has rank r and
    the descendant ranks of a are lo, lo + 1, ..., lo + n: when r < lo the
    reversed entry (w, b, a) is taken out and (w, a, b) is put in; when
    lo <= r <= lo + n only the reversed entry is taken out; when
    r > lo + n only (w, a, b) is put in.  Nothing else of the instance
    changes. *)
Theorem step_2_1_three_cases (s : Substitute) (w a b r lo : Z) (n : nat) :
  dict_get b (postorder_nodes s) = Some r ->
  dict_get a (descendants s) = Some (range lo (S n)) ->
  update_cuts (w, a, b) s
  = Ok (tt, set_quasi_cuts
              (if r <? lo
               then SortedSet.add (w, a, b)
                                  (SortedSet.remove (w, b, a) (quasi_cuts s))
               else if r <=? lo + Z.of_nat n
                    then SortedSet.remove (w, b, a) (quasi_cuts s)
                    else SortedSet.add (w, a, b) (quasi_cuts s))
              s).
Proof. apply update_cuts_cases. Qed.

Lemma step_2_1_three_cases_witness :
  update_cuts (1, 1, 4) cycle4_round1
  = Ok (tt, set_quasi_cuts
              (if 1 <? 1
               then SortedSet.add (1, 1, 4)
                      (SortedSet.remove (1, 4, 1) (quasi_cuts cycle4_round1))
               else if 1 <=? 1 + Z.of_nat 3
                    then SortedSet.remove (1, 4, 1) (quasi_cuts cycle4_round1)
                    else SortedSet.add (1, 1, 4) (quasi_cuts cycle4_round1))
              cycle4_round1).
Proof.
  apply (step_2_1_three_cases cycle4_round1 1 1 4 1 1 3); reflexivity.
Defined.

(** X16.  The [while] loop of step 2.2 for the tree edge (w, node, p) ends
    within as many rounds as the quasi-cut set has entries, and raises
    nothing but [KeyError].  When it ends normally it has changed the
    quasi-cut set only, by taking out entries of weight w whose source and
    target are both ranked among the descendants of [node]; the entry it
    records has weight w, its source ranked among the descendants of
    [node] and its target not, and is still in the set; and when it records
    nothing, no entry left has weight w and its source ranked among the
    descendants of [node]. *)
Theorem step_2_2_search (w node p : Z) (s : Substitute) :
  match search_loop (S (length (quasi_cuts s))) (w, node, p) s with
  | Ok (r, s') =>
      cuts_only s s'
      /\ incl (quasi_cuts s') (quasi_cuts s)
      /\ (sorted_cuts (quasi_cuts s) -> sorted_cuts (quasi_cuts s'))
      /\ (forall e, In e (quasi_cuts s) -> ~ In e (quasi_cuts s') ->
                    source_match s w node e = true
                    /\ ranked_within s node (snd e))
      /\ match r with
         | Some ce =>
             In ce (quasi_cuts s')
             /\ source_match s w node ce = true
             /\ ranked_outside s node (snd ce)
         | None =>
             forall e, In e (quasi_cuts s') -> source_match s w node e = false
         end
  | Raise e => e = KeyError
  end.
Proof.
  destruct (search_loop (S (length (quasi_cuts s))) (w, node, p) s)
    as [[r s']|e] eqn:E.
  - apply (search_loop_result w node p _ s r s' E).
  - apply (search_loop_ends (w, node, p) (S (length (quasi_cuts s))) s e);
      [lia | exact E].
Qed.

(** X17.  When [substitute()] returns, the quasi-cut set is in strictly
    ascending (weight, source, target) order, and each of its entries
    (w, y, z) is an edge of the graph of weight w that is not an edge of the
    tree and whose tuple (y, z) is not in [restricted_edges]. *)
Theorem quasi_cuts_sorted_candidates
        (r_idx : nat) (self self' : Substitute) (sd : subst_dict) :
  substitute r_idx self = Ok (sd, self') ->
  sorted_cuts (quasi_cuts self')
  /\ forall w y z,
       In (w, y, z) (quasi_cuts self') ->
       nx.has_edge (graph self) y z = true
       /\ nx.edge_weight (graph self) y z = Ok w
       /\ nx.has_edge (tree self) y z = false
       /\ ~ In [y; z] (restricted_edges self).
Proof.
  intros H.
  destruct (substitute_run r_idx self self' sd H)
    as [s1 [oe [_ [Hsame [Hco [[Hsorted Hcand] _]]]]]].
  split; [exact Hsorted|].
  intros w y z Hin. destruct (Hcand _ Hin) as [Hg [Hr [Ht Hw]]].
  simpl in Hg, Hr, Ht, Hw.
  destruct Hco as [Eg [Et [_ [Er _]]]].
  destruct Hsame as [Eg1 [Et1 [_ [Er1 _]]]].
  rewrite Eg, <- Eg1 in Hg, Hw. rewrite Et, <- Et1 in Ht.
  rewrite Er, <- Er1 in Hr.
  split; [exact Hg|]. split; [exact Hw|]. split; [exact Ht|].
  apply tuple_in_not_In. exact Hr.
Qed.

Lemma quasi_cuts_sorted_candidates_witness :
  exists self',
    sorted_cuts (quasi_cuts self')
    /\ forall w y z,
         In (w, y, z) (quasi_cuts self') ->
         nx.has_edge example y z = true
         /\ nx.edge_weight example y z = Ok w
         /\ nx.has_edge example_tree y z = false
         /\ ~ In [y; z] [].
Proof.
  eassert (Hs : substitute 2 (fresh_instance example example_tree [] [] false)
                = Ok (_, _)) by (vm_compute; reflexivity).
  eexists.
  apply (quasi_cuts_sorted_candidates 2 _ _ _ Hs).
Defined.

(** ** The order of the keys *)

(** X18.  For a graph and a tree that the constructor accepts, the tree
    touching every node of the graph, the keys of the mapping are listed
    bottom-up: the first components of the keys, in the order of the
    mapping, are the nodes of rank 1, 2, ..., n - 1.  So every node but the
    root is the first component of exactly one key, the edge to its
    parent. *)
Theorem keys_listed_by_rank_of_child
        (g t : nx.Graph) (fixed restricted : list tuple)
        (r_idx : nat) (self : Substitute) :
  wf_graphb g = true ->
  wf_graphb t = true ->
  spans t g = true ->
  Substitute_init g t fixed restricted false = Ok self ->
  (r_idx < nx.number_of_nodes g)%nat ->
  exists sd self',
    substitute r_idx self = Ok (sd, self')
    /\ map (fun k => rank_of (postorder_nodes self') (fst k)) (map fst sd)
       = range 1 (nx.number_of_nodes t - 1).
Proof. apply keys_by_rank. Qed.

Lemma keys_listed_by_rank_of_child_witness :
  exists sd self',
    substitute 2 (fresh_instance example example_tree [] [] false)
    = Ok (sd, self')
    /\ map (fun k => rank_of (postorder_nodes self') (fst k)) (map fst sd)
       = range 1 (nx.number_of_nodes example_tree - 1).
Proof.
  assert (Hwg : wf_graphb example = true) by (vm_compute; reflexivity).
  assert (Hwt : wf_graphb example_tree = true) by (vm_compute; reflexivity).
  assert (Hsp : spans example_tree example = true) by (vm_compute; reflexivity).
  assert (Hi : Substitute_init example example_tree [] [] false
               = Ok (fresh_instance example example_tree [] [] false))
    by (vm_compute; reflexivity).
  assert (Hlt : (2 < nx.number_of_nodes example)%nat) by (vm_compute; lia).
  apply (keys_listed_by_rank_of_child
           example example_tree [] [] 2 _ Hwg Hwt Hsp Hi Hlt).
Defined.

(** ** The incident edges *)

(** X19.  When [find_incident_edges(node)] returns, it has left the
    instance as it was, and the triples it returns are exactly the
    (w, node, b) such that b is a neighbour of [node] in the graph, the
    tuple (node, b), in this orientation, is not in [restricted_edges],
    [node] and b are not joined in the tree, and w is the weight of the
    edge in the graph. *)
Theorem incident_edges_are_the_candidates
        (node : Z) (self s' : Substitute) (inc : list wedge) :
  find_incident_edges node self = Ok (inc, s') ->
  s' = self
  /\ forall w a b,
       In (w, a, b) inc <->
       a = node
       /\ nx.has_edge (graph self) node b = true
       /\ ~ In [node; b] (restricted_edges self)
       /\ nx.has_edge (tree self) node b = false
       /\ nx.edge_weight (graph self) node b = Ok w.
Proof. apply find_incident_edges_iff. Qed.

Lemma incident_edges_are_the_candidates_witness :
  exists inc,
    find_incident_edges 4 (fresh_instance example example_tree [] [[4; 3]] false)
    = Ok (inc, fresh_instance example example_tree [] [[4; 3]] false)
    /\ forall w a b,
         In (w, a, b) inc <->
         a = 4
         /\ nx.has_edge example 4 b = true
         /\ ~ In [4; b] [[4; 3]]
         /\ nx.has_edge example_tree 4 b = false
         /\ nx.edge_weight example 4 b = Ok w.
Proof.
  eassert (Hf : find_incident_edges
                  4 (fresh_instance example example_tree [] [[4; 3]] false)
                = Ok (_, _)) by (vm_compute; reflexivity).
  eexists. split; [exact Hf|].
  apply (incident_edges_are_the_candidates 4 _ _ _ Hf).
Defined.
